(** * GridShuffler: a shallow embedding of [src/cpp/grid_shuffler_alg.hpp]

    The C++ class [GridShuffler] rearranges the non-empty cells of a grid of
    strings by a backtracking search.  This file embeds the class member by
    member and proves the properties of the search, of the validator and of
    the constructor.  The header is what the Python binding
    ([export_lib.cpp]) and the tests ([test/test.cpp]) include;
    [grid_shuffler_alg.cpp] is an earlier copy of the class, of which the
    members that differ from the header are embedded in the module
    [Legacy].

    Conventions of the embedding.
    - [int] coordinates and the [uint64_t] dimensions are integers in [Z];
      grids are assumed to have fewer than 2^31 rows and columns, so that no
      [int] counter wraps.
    - [std::vector] is a [list]; an access [v[i]] past the end is undefined
      behaviour in C++ and is the stuck outcome [OutOfBounds] here.
    - [std::unordered_map] is a [gmap], [std::unordered_set] a [gset];
      [PositionHash] only serves the hash tables and has no counterpart.  The
      order in which a hash table is traversed is unspecified: the keys of
      [forbidden_neighbors] are shuffled before use, and the entries of the
      assignment are written to distinct cells, so the order does not show.
    - The checked access [m.at(k)] throws [std::out_of_range] on a missing
      key: the stuck outcome [OutOfRange].  The unchecked [m[k]] is read as
      the value at [k] or else the default value.  On a missing key it also
      inserts the default value, which later reads the same; in the states
      the constructor and [shuffle] lead to, the keys the search looks up are
      always present (see [init_domains_keys], [init_domains_lookup] and
      [ctor_neighbors_keys]).
    - [std::mt19937] is an abstract generator state [G] that
      [std::ranges::shuffle] threads through; it is only assumed to return a
      permutation of its argument.
    - The recursion of [backtrack] is bounded by a [fuel] argument;
      [backtrack_total] and [backtrack_mono] show that the bound [shuffle]
      passes is never reached and that the result does not depend on it. *)

From Stdlib Require Import ZArith.
From stdpp Require Import gmap strings list fin_maps sorting.

Open Scope Z_scope.

(** ** Data model *)

(** [using Position = std::pair<int, int>] and
    [using Grid = std::vector<std::vector<std::string>>] *)
Abbreviation Position := (Z * Z)%type (only parsing).
Abbreviation Grid := (list (list string)) (only parsing).

(** [std::string::empty] *)
Definition empty_label (s : string) : bool :=
  match s with EmptyString => true | String _ _ => false end.

(** Ways in which a member function fails to return. *)
Inductive stuck : Type :=
| OutOfBounds  (* vector subscript past the end: undefined behaviour *)
| OutOfRange   (* std::out_of_range thrown by unordered_map::at *)
| OutOfFuel.   (* the recursion bound of the model was reached *)

Inductive outcome (A : Type) : Type :=
| Ret (a : A)
| Stuck (why : stuck).
Arguments Ret {A} a.
Arguments Stuck {A} why.

#[global] Instance outcome_ret : MRet outcome := fun A a => Ret a.
#[global] Instance outcome_bind : MBind outcome := fun A B f m =>
  match m with Ret a => f a | Stuck w => Stuck w end.

(** A [for] loop over a container whose body may get stuck. *)
Fixpoint foldM {A B : Type} (f : B -> A -> outcome B) (b : B) (l : list A)
  : outcome B :=
  match l with
  | [] => Ret b
  | x :: l' => b' ← f b x; foldM f b' l'
  end.

(** [g[i][j]] for reading *)
Definition grid_at (g : Grid) (i j : Z) : outcome string :=
  if (i <? 0) || (j <? 0) then Stuck OutOfBounds else
  match g !! Z.to_nat i with
  | None => Stuck OutOfBounds
  | Some row =>
      match row !! Z.to_nat j with
      | None => Stuck OutOfBounds
      | Some s => Ret s
      end
  end.

(** [g[i][j] = d] *)
Definition grid_write (g : Grid) (i j : Z) (d : string) : outcome Grid :=
  if (i <? 0) || (j <? 0) then Stuck OutOfBounds else
  match g !! Z.to_nat i with
  | None => Stuck OutOfBounds
  | Some row =>
      if decide (Z.to_nat j < length row)%nat
      then Ret (<[Z.to_nat i := <[Z.to_nat j := d]> row]> g)
      else Stuck OutOfBounds
  end.

(** [m.at(k)] *)
Definition map_at `{Countable K} {V : Type} (m : gmap K V) (k : K) : outcome V :=
  match m !! k with
  | Some v => Ret v
  | None => Stuck OutOfRange
  end.

(** The members of the class.  The member [assignment] is declared in the
    source but never read or written, and is left out. *)
Record GridShuffler : Type := MkGridShuffler {
  original_grid : Grid;
  shuffled_grid : Grid;
  non_empty_positions : list Position;
  forbidden_neighbors : gmap string (gset string);
  neighbors_map : gmap Position (list Position);
  original_positions : gmap string Position;
  rows : Z;
  cols : Z
}.

Definition set_shuffled_grid (s : GridShuffler) (g : Grid) : GridShuffler :=
  MkGridShuffler (original_grid s) g (non_empty_positions s)
    (forbidden_neighbors s) (neighbors_map s) (original_positions s)
    (rows s) (cols s).

(** ** Construction of the indices *)

Definition directions : list (Z * Z) := [(-1, 0); (1, 0); (0, -1); (0, 1)].

(** [ni >= 0 && ni < rows && nj >= 0 && nj < cols] *)
Definition in_range (nrows ncols ni nj : Z) : bool :=
  (0 <=? ni) && (ni <? nrows) && (0 <=? nj) && (nj <? ncols).

(** [forbidden_neighbors[tar].insert(x)] *)
Definition forbid (tar x : string) (fn : gmap string (gset string))
  : gmap string (gset string) :=
  <[tar := default ∅ (fn !! tar) ∪ {[x]}]> fn.

Definition forbidden_step (g : Grid) (nrows ncols i j : Z) (tar : string)
    (fn : gmap string (gset string)) (d : Z * Z)
  : outcome (gmap string (gset string)) :=
  let ni := i + d.1 in
  let nj := j + d.2 in
  if in_range nrows ncols ni nj then
    nb ← grid_at g ni nj;
    if negb (empty_label nb) then Ret (forbid tar nb fn) else Ret fn
  else Ret fn.

Definition forbidden_cell (g : Grid) (nrows ncols i : Z)
    (fn : gmap string (gset string)) (j : Z)
  : outcome (gmap string (gset string)) :=
  tar ← grid_at g i j;
  if empty_label tar then Ret fn
  else foldM (forbidden_step g nrows ncols i j tar) (<[tar := ∅]> fn) directions.

Definition buildForbiddenNeighbors (g : Grid) (nrows ncols : Z)
  : outcome (gmap string (gset string)) :=
  foldM (fun fn i => foldM (forbidden_cell g nrows ncols i) fn (seqZ 0 ncols))
        ∅ (seqZ 0 nrows).

Definition non_empty_cell (g : Grid) (i : Z) (ps : list Position) (j : Z)
  : outcome (list Position) :=
  tar ← grid_at g i j;
  if negb (empty_label tar) then Ret (ps ++ [(i, j)]) else Ret ps.

Definition buildNonEmptyPositions (g : Grid) (nrows ncols : Z)
  : outcome (list Position) :=
  foldM (fun ps i => foldM (non_empty_cell g i) ps (seqZ 0 ncols))
        [] (seqZ 0 nrows).

(** [neighbors_map[pos].emplace_back(ni, nj)] *)
Definition add_neighbor (pos q : Position)
    (nm : gmap Position (list Position)) : gmap Position (list Position) :=
  <[pos := default [] (nm !! pos) ++ [q]]> nm.

Definition neighbors_step (g : Grid) (nrows ncols : Z) (pos : Position)
    (nm : gmap Position (list Position)) (d : Z * Z)
  : outcome (gmap Position (list Position)) :=
  let ni := pos.1 + d.1 in
  let nj := pos.2 + d.2 in
  if in_range nrows ncols ni nj then
    nb ← grid_at g ni nj;
    if negb (empty_label nb) then Ret (add_neighbor pos (ni, nj) nm) else Ret nm
  else Ret nm.

Definition neighbors_cell (g : Grid) (nrows ncols : Z)
    (nm : gmap Position (list Position)) (pos : Position)
  : outcome (gmap Position (list Position)) :=
  foldM (neighbors_step g nrows ncols pos) (<[pos := []]> nm) directions.

Definition buildNeighborsMap (g : Grid) (nrows ncols : Z)
    (nep : list Position) : outcome (gmap Position (list Position)) :=
  foldM (neighbors_cell g nrows ncols) ∅ nep.

Definition original_cell (g : Grid) (i : Z) (op : gmap string Position) (j : Z)
  : outcome (gmap string Position) :=
  tar ← grid_at g i j;
  if empty_label tar then Ret op else Ret (<[tar := (i, j)]> op).

Definition buildOriginalPositions (g : Grid) (nrows ncols : Z)
  : outcome (gmap string Position) :=
  foldM (fun op i => foldM (original_cell g i) op (seqZ 0 ncols))
        ∅ (seqZ 0 nrows).

(** The constructor [GridShuffler::GridShuffler(const Grid&)]. *)
Definition GridShuffler_ctor (grid : Grid) : outcome GridShuffler :=
  let nrows := Z.of_nat (length grid) in
  let ncols :=
    if 0 <? nrows
    then match grid with row0 :: _ => Z.of_nat (length row0) | [] => 0 end
    else 0 in
  let shuffled := replicate (Z.to_nat nrows) (replicate (Z.to_nat ncols) EmptyString) in
  fn ← buildForbiddenNeighbors grid nrows ncols;
  nep ← buildNonEmptyPositions grid nrows ncols;
  nm ← buildNeighborsMap grid nrows ncols nep;
  op ← buildOriginalPositions grid nrows ncols;
  Ret (MkGridShuffler grid shuffled nep fn nm op nrows ncols).

(** ** The search *)

(** The loop over [neighbors_map[pos]] of [isValidAssignment]: [true] when an
    already assigned neighbour holds a label of [forbidden_neighbors[digit]]. *)
Fixpoint neighbor_conflict (s : GridShuffler) (digit : string)
    (ca : gmap Position string) (nbrs : list Position) : bool :=
  match nbrs with
  | [] => false
  | neighbor :: rest =>
      match ca !! neighbor with
      | Some neighbor_digit =>
          if decide (neighbor_digit ∈ default ∅ (forbidden_neighbors s !! digit))
          then true
          else neighbor_conflict s digit ca rest
      | None => neighbor_conflict s digit ca rest
      end
  end.

Definition isValidAssignment (s : GridShuffler) (pos : Position)
    (digit : string) (ca : gmap Position string) : bool :=
  if neighbor_conflict s digit ca (default [] (neighbors_map s !! pos))
  then false
  else
    match original_positions s !! digit with
    | Some p => if decide (p = pos) then false else true
    | None => true
    end.

(** [std::ranges::min_element]: the first element that no later element
    compares less than. *)
Fixpoint min_element_from {A : Type} (comp : A -> A -> bool) (smallest : A)
    (rest : list A) : A :=
  match rest with
  | [] => smallest
  | x :: rest' =>
      min_element_from comp (if comp x smallest then x else smallest) rest'
  end.

Definition min_element {A : Type} (comp : A -> A -> bool) (l : list A)
  : option A :=
  match l with
  | [] => None
  | x :: rest => Some (min_element_from comp x rest)
  end.

(** [current_assignment.contains(p)] *)
Definition contains (ca : gmap Position string) (p : Position) : bool :=
  bool_decide (is_Some (ca !! p)).

(** The comparison lambda of [backtrack]. *)
Definition mrv_less (ca : gmap Position string)
    (pd : gmap Position (list string)) (a b : Position) : bool :=
  negb (contains ca a) &&
  (contains ca b ||
   bool_decide (length (default [] (pd !! a)) < length (default [] (pd !! b)))%nat).

(** The iterator [it] of [backtrack]: the position [min_element] picks among
    [non_empty_positions] for a given partial assignment ([None] stands for
    the end iterator of an empty range). *)
Definition selected (s : GridShuffler) (pd : gmap Position (list string))
    (ca : gmap Position string) : option Position :=
  min_element (mrv_less ca pd) (non_empty_positions s).

(** The candidate loop of [backtrack]; [rec] is the recursive call.  The
    assignment is passed by reference in the source, so it is threaded
    through and returned. *)
Fixpoint try_digits
    (rec : gmap Position string -> option (bool * gmap Position string))
    (s : GridShuffler) (pos : Position) (digits : list string)
    (ca : gmap Position string) : option (bool * gmap Position string) :=
  match digits with
  | [] => Some (false, ca)
  | digit :: rest =>
      if isValidAssignment s pos digit ca then
        match rec (<[pos := digit]> ca) with
        | None => None
        | Some (true, ca') => Some (true, ca')
        | Some (false, ca') => try_digits rec s pos rest (delete pos ca')
        end
      else try_digits rec s pos rest ca
  end.

(** [backtrack], with a bound [fuel] on the recursion depth; [None] means
    that the bound was reached. *)
Fixpoint backtrack (s : GridShuffler) (pd : gmap Position (list string))
    (fuel : nat) (ca : gmap Position string)
  : option (bool * gmap Position string) :=
  match fuel with
  | O => None
  | S fuel' =>
      if decide (size ca = length (non_empty_positions s)) then Some (true, ca)
      else
        match selected s pd ca with
        | None => Some (false, ca)
        | Some pos =>
            if contains ca pos then Some (false, ca)
            else try_digits (backtrack s pd fuel') s pos
                   (default [] (pd !! pos)) ca
        end
  end.

(** [forbidden_neighbors | std::views::keys] *)
Definition all_digits (s : GridShuffler) : list string :=
  (map_to_list (forbidden_neighbors s)).*1.

(** The copy of the assignment into [shuffled_grid]. *)
Definition write_back (g : Grid) (ca : gmap Position string) : outcome Grid :=
  foldM (fun g' '(pos, digit) => grid_write g' pos.1 pos.2 digit)
        g (map_to_list ca).

Section Randomness.

(** The random source: the state of the generator and the effect of
    [std::ranges::shuffle(v, mt)] on the vector and on the generator. *)
Variable G : Type.
Variable ranges_shuffle : list string -> G -> list string * G.

(** The domain initialisation loop of [shuffle]. *)
Fixpoint init_domains (digits : list string) (ps : list Position)
    (pd : gmap Position (list string)) (mt : G)
  : gmap Position (list string) * G :=
  match ps with
  | [] => (pd, mt)
  | pos :: ps' =>
      let '(l, mt') := ranges_shuffle digits mt in
      init_domains digits ps' (<[pos := l]> pd) mt'
  end.

Definition shuffle (s : GridShuffler) (mt : G)
  : outcome (bool * GridShuffler * G) :=
  let '(possible_digits, mt') :=
    init_domains (all_digits s) (non_empty_positions s) ∅ mt in
  match backtrack s possible_digits (S (length (non_empty_positions s))) ∅ with
  | None => Stuck OutOfFuel
  | Some (true, current_assignment) =>
      g ← write_back (shuffled_grid s) current_assignment;
      Ret (true, set_shuffled_grid s g, mt')
  | Some (false, _) => Ret (false, s, mt')
  end.

End Randomness.

Arguments init_domains {G} ranges_shuffle digits ps pd mt.
Arguments shuffle {G} ranges_shuffle s mt.

(** [getShuffledGrid] *)
Definition getShuffledGrid (s : GridShuffler) : Grid := shuffled_grid s.

(** ** The validator *)

(** The loop over [neighbors_map.at(pos)] of [validateResult]: [Ret true]
    when a neighbour holds a label forbidden for [digit]. *)
Fixpoint validate_neighbors (s : GridShuffler) (digit : string)
    (nbrs : list Position) : outcome bool :=
  match nbrs with
  | [] => Ret false
  | (fst, snd) :: rest =>
      forbidden ← map_at (forbidden_neighbors s) digit;
      v ← grid_at (shuffled_grid s) fst snd;
      if decide (v ∈ forbidden) then Ret true
      else validate_neighbors s digit rest
  end.

Fixpoint validate_positions (s : GridShuffler) (ps : list Position)
  : outcome bool :=
  match ps with
  | [] => Ret true
  | pos :: rest =>
      digit ← grid_at (shuffled_grid s) pos.1 pos.2;
      nbrs ← map_at (neighbors_map s) pos;
      conflict ← validate_neighbors s digit nbrs;
      if (conflict : bool) then Ret false
      else
        match original_positions s !! digit with
        | Some it =>
            v ← grid_at (shuffled_grid s) it.1 it.2;
            if String.eqb v digit then Ret false
            else validate_positions s rest
        | None => validate_positions s rest
        end
  end.

Definition validateResult (s : GridShuffler) : outcome bool :=
  validate_positions s (non_empty_positions s).

(** ** A scripted generator, for running the model on concrete inputs *)

Fixpoint remove_first (d : string) (l : list string) : list string :=
  match l with
  | [] => []
  | x :: l' => if decide (x = d) then l' else x :: remove_first d l'
  end.

(** [front d l] moves the first occurrence of [d] to the head of [l]. *)
Definition front (d : string) (l : list string) : list string :=
  if decide (d ∈ l) then d :: remove_first d l else l.

(** The generator state is the list of labels that the coming shuffles
    bring to the front, one per call. *)
Definition scripted (l : list string) (mt : list string)
  : list string * list string :=
  match mt with
  | [] => (l, [])
  | d :: mt' => (front d l, mt')
  end.

(** ** Vocabulary of the specification *)

(** *** Positions and cells of the input grid *)

(** The cells of an [nrows] by [ncols] grid in row-major order. *)
Definition cells (nrows ncols : Z) : list Position :=
  i ← seqZ 0 nrows; (fun j => (i, j)) <$> seqZ 0 ncols.

(** Row-major order on positions. *)
Definition row_major_lt (p q : Position) : Prop :=
  p.1 < q.1 \/ (p.1 = q.1 /\ p.2 < q.2).

Definition row_major_le (p q : Position) : Prop :=
  p = q \/ row_major_lt p q.

(** The label at a position, the empty label where the grid has no cell. *)
Definition cell (g : Grid) (p : Position) : string :=
  match grid_at g p.1 p.2 with
  | Ret x => x
  | Stuck _ => EmptyString
  end.

Definition occupied (g : Grid) (p : Position) : bool :=
  negb (empty_label (cell g p)).

(** Every cell within the dimensions can be read. *)
Definition readable (g : Grid) (nrows ncols : Z) : Prop :=
  forall i j, in_range nrows ncols i j = true -> exists x, grid_at g i j = Ret x.

(** A grid of [nrows] rows of [ncols] cells each. *)
Definition shaped (nrows ncols : Z) (g : Grid) : Prop :=
  length g = Z.to_nat nrows /\
  Forall (fun row : list string => length row = Z.to_nat ncols) g.

(** The width the constructor takes: that of the first row. *)
Definition first_row_width (grid : Grid) : Z :=
  Z.of_nat (length (default [] (head grid))).

(** All rows are as long as the first one; no row is shorter than the
    first one. *)
Definition rectangular (grid : Grid) : Prop :=
  Forall (fun row : list string => length row = length (default [] (head grid))) grid.

Definition rows_cover (grid : Grid) : Prop :=
  Forall (fun row => (length (default [] (head grid)) <= length row)%nat) grid.

(** The non-empty labels of the grid are pairwise distinct. *)
Definition distinct_labels (grid : Grid) : Prop :=
  NoDup (filter (fun x => x <> EmptyString) (concat grid)).

(** Non-empty positions and orthogonal adjacency, read off the input grid. *)
Definition non_empty_position (grid : Grid) (p : Position) : Prop :=
  in_range (Z.of_nat (length grid)) (first_row_width grid) p.1 p.2 = true /\
  cell grid p <> EmptyString.

Definition adjacent (p q : Position) : Prop :=
  Z.abs (p.1 - q.1) + Z.abs (p.2 - q.2) = 1.

(** *** What the constructor computes *)

(** The four orthogonal candidates around a position, in the order of
    [directions], and those among them that are occupied cells of the grid. *)
Definition around (p : Position) : list Position :=
  (fun d : Z * Z => (p.1 + d.1, p.2 + d.2)) <$> directions.

Definition is_neighbor (g : Grid) (nrows ncols : Z) (q : Position) : bool :=
  in_range nrows ncols q.1 q.2 && occupied g q.

Definition neighbors_spec (g : Grid) (nrows ncols : Z) (p : Position)
  : list Position :=
  filter (fun q => is_neighbor g nrows ncols q) (around p).

Definition forbidden_spec (g : Grid) (nrows ncols : Z) (p : Position)
  : gset string :=
  list_to_set (cell g <$> neighbors_spec g nrows ncols p).

Definition positions_spec (g : Grid) (nrows ncols : Z) : list Position :=
  filter (fun p => occupied g p) (cells nrows ncols).

(** Successive insertions [m[key x] = val x] for the elements of a list. *)
Definition insert_all `{Countable K} {V A : Type} (key : A -> K) (val : A -> V)
    (m : gmap K V) (l : list A) : gmap K V :=
  foldl (fun m' x => <[key x := val x]> m') m l.

(** The engine the constructor returns on a readable grid (see
    [ctor_readable] and [ctor_Ret]). *)
Definition engine_spec (grid : Grid) : GridShuffler :=
  let nrows := Z.of_nat (length grid) in
  let ncols := first_row_width grid in
  let nep := positions_spec grid nrows ncols in
  MkGridShuffler grid
    (replicate (Z.to_nat nrows) (replicate (Z.to_nat ncols) EmptyString))
    nep
    (insert_all (cell grid) (forbidden_spec grid nrows ncols) ∅ nep)
    (insert_all id (neighbors_spec grid nrows ncols) ∅ nep)
    (insert_all (cell grid) id ∅ nep)
    nrows ncols.

(** An engine built from [grid], whatever its output grid holds. *)
Definition built (grid : Grid) (s : GridShuffler) : Prop :=
  readable grid (Z.of_nat (length grid)) (first_row_width grid) /\
  exists out,
    s = set_shuffled_grid (engine_spec grid) out /\
    shaped (Z.of_nat (length grid)) (first_row_width grid) out.

(** *** The search *)

(** [neighbors_map[p]], [forbidden_neighbors[d]] and [possible_digits[p]]
    as the unchecked accesses of the search read them. *)
Definition neighbors_of (s : GridShuffler) (p : Position) : list Position :=
  default [] (neighbors_map s !! p).

Definition forbidden_of (s : GridShuffler) (d : string) : gset string :=
  default ∅ (forbidden_neighbors s !! d).

Definition domain_of (pd : gmap Position (list string)) (p : Position)
  : list string :=
  default [] (pd !! p).

(** The non-empty positions that a partial assignment leaves open. *)
Definition unassigned (s : GridShuffler) (ca : gmap Position string)
  : list Position :=
  filter (fun p => ca !! p = None) (non_empty_positions s).

(** The domains of the non-empty positions all have the same size. *)
Definition equal_domains (s : GridShuffler) (pd : gmap Position (list string))
  : Prop :=
  forall a b, a ∈ non_empty_positions s -> b ∈ non_empty_positions s ->
              length (domain_of pd a) = length (domain_of pd b).

(** The search assigns only non-empty positions, only labels of their
    domains, and never a label to the position recorded as its original
    one. *)
Definition placed (s : GridShuffler) (pd : gmap Position (list string))
    (ca : gmap Position string) : Prop :=
  forall p d, ca !! p = Some d ->
    p ∈ non_empty_positions s /\ d ∈ domain_of pd p /\
    original_positions s !! d <> Some p.

(** No two neighbouring positions are assigned labels of which the second
    is forbidden for the first. *)
Definition conflict_free (s : GridShuffler) (ca : gmap Position string) : Prop :=
  forall p q dp dq, ca !! p = Some dp -> ca !! q = Some dq ->
    q ∈ neighbors_of s p -> dq ∉ forbidden_of s dp.

(** The domains [shuffle] draws for the engine [s] from the generator [mt]. *)
Definition drawn {G : Type} (ranges_shuffle : list string -> G -> list string * G)
    (s : GridShuffler) (mt : G) : gmap Position (list string) :=
  (init_domains ranges_shuffle (all_digits s) (non_empty_positions s) ∅ mt).1.

(** The states of an engine: the one the constructor returns, and those any
    number of calls of [shuffle] lead to. *)
Inductive reachable {G : Type} (ranges_shuffle : list string -> G -> list string * G)
    (grid : Grid) : GridShuffler -> Prop :=
| reachable_ctor s :
    GridShuffler_ctor grid = Ret s -> reachable ranges_shuffle grid s
| reachable_shuffle s mt b s' mt' :
    reachable ranges_shuffle grid s ->
    shuffle ranges_shuffle s mt = Ret (b, s', mt') ->
    reachable ranges_shuffle grid s'.

(** The states before any successful [shuffle]: the one the constructor
    returns, and those that calls of [shuffle] returning [false] lead to. *)
Inductive unshuffled {G : Type} (ranges_shuffle : list string -> G -> list string * G)
    (grid : Grid) : GridShuffler -> Prop :=
| unshuffled_ctor s :
    GridShuffler_ctor grid = Ret s -> unshuffled ranges_shuffle grid s
| unshuffled_failed s mt s' mt' :
    unshuffled ranges_shuffle grid s ->
    shuffle ranges_shuffle s mt = Ret (false, s', mt') ->
    unshuffled ranges_shuffle grid s'.

(** *** The validator *)

(** The two conditions [validateResult] checks at one position. *)
Definition valid_at (s : GridShuffler) (p : Position) : Prop :=
  exists d nbrs,
    grid_at (shuffled_grid s) p.1 p.2 = Ret d /\
    neighbors_map s !! p = Some nbrs /\
    (forall q, q ∈ nbrs ->
       exists S0 dq, forbidden_neighbors s !! d = Some S0 /\
                     grid_at (shuffled_grid s) q.1 q.2 = Ret dq /\ dq ∉ S0) /\
    (forall it, original_positions s !! d = Some it ->
       exists v, grid_at (shuffled_grid s) it.1 it.2 = Ret v /\ v <> d).

(** *** Concrete grids and runs of the generator *)

Section Inputs.

Open Scope string_scope.

(** The grid of the infeasibility scenario. *)
Definition two_cells : Grid := [["A"; "B"]].

(** The grid of [test/test.cpp], and a run of the generator that brings
    "9" to the front of the first domain and "1" to the front of the
    others. *)
Definition test_grid : Grid :=
  [["1"; "2"; "3"]; ["4"; "5"; "6"]; ["7"; "8"; "9"]].
Definition test_draws : list string :=
  ["9"; "1"; "1"; "1"; "1"; "1"; "1"; "1"; "1"].
Definition test_output : Grid :=
  [["9"; "1"; "1"]; ["1"; "1"; "1"]; ["1"; "1"; "1"]].

(** A row of four distinct labels and a run that solves it. *)
Definition line_grid : Grid := [["A"; "B"; "C"; "D"]].
Definition line_draws : list string := ["C"; "A"; "D"; "B"].
Definition line_output : Grid := [["C"; "A"; "D"; "B"]].

(** Grids in which the label "A" occurs twice. *)
Definition spaced_grid : Grid := [["A"; ""; "A"; ""; "B"]].
Definition spaced_draws : list string := ["A"; "B"; "A"].
Definition spaced_output : Grid := [["A"; ""; "B"; ""; "A"]].

Definition paired_grid : Grid := [["A"; "B"; ""; "A"]].
Definition paired_draws : list string := ["B"; "A"; "B"].
Definition paired_output : Grid := [["B"; "A"; ""; "B"]].

(** A grid whose second row is longer than the first, and a single cell. *)
Definition ragged_grid : Grid := [["A"]; ["B"; "C"]].
Definition single_cell : Grid := [["A"]].

End Inputs.

(** *** Selection by minimum remaining values *)

(** [m], at index [i] of [l], is what [min_element] has picked after scanning
    [l]: an open position if [l] has one, with a domain no larger than that
    of any open position of [l] and smaller than that of any earlier one. *)
Definition mrv_pick (ca : gmap Position string) (pd : gmap Position (list string))
    (l : list Position) (i : nat) (m : Position) : Prop :=
  l !! i = Some m /\
  (forall p, p ∈ l -> ca !! p = None -> ca !! m = None) /\
  (forall j p, l !! j = Some p -> ca !! p = None ->
     (length (domain_of pd m) <= length (domain_of pd p))%nat /\
     ((j < i)%nat -> (length (domain_of pd m) < length (domain_of pd p))%nat)).

(** *** Arrangements *)

(** An arrangement gives every non-empty position a label of the candidate
    list, none to the position recorded as its original one, and no two
    neighbouring positions labels of which the second is forbidden for the
    first.  Labels may repeat. *)
Definition arrangement (s : GridShuffler) (sol : gmap Position string) : Prop :=
  (forall p, p ∈ non_empty_positions s -> is_Some (sol !! p)) /\
  (forall p d, sol !! p = Some d ->
     p ∈ non_empty_positions s /\ d ∈ all_digits s /\
     original_positions s !! d <> Some p) /\
  conflict_free s sol.

(** The same conditions in a form that is decided by evaluation. *)
Definition arrangement_check (s : GridShuffler) (sol : gmap Position string) : Prop :=
  Forall (fun p => is_Some (sol !! p)) (non_empty_positions s) /\
  map_Forall (fun p d =>
     p ∈ non_empty_positions s /\ d ∈ all_digits s /\
     original_positions s !! d <> Some p) sol /\
  map_Forall (fun p dp =>
     map_Forall (fun q dq => q ∈ neighbors_of s p -> dq ∉ forbidden_of s dp) sol) sol.

(** *** The tests of [test/test.cpp] *)

Section Tests.

Open Scope string_scope.

Variable G : Type.
Variable ranges_shuffle : list string -> G -> list string * G.

(** The grid of the test [WithEmptyCells]. *)
Definition sparse_grid : Grid :=
  [["1"; "2"; "3"]; ["4"; ""; "6"]; ["7"; ""; ""]].

(** The condition the tests [BasicTest] and [WithEmptyCells] assert: the
    result of [shuffle] on a fresh engine. *)
Definition shuffle_test (grid : Grid) (mt : G) : outcome bool :=
  shuffler ← GridShuffler_ctor grid;
  r ← shuffle ranges_shuffle shuffler mt;
  Ret r.1.1.

Definition BasicTest (mt : G) : outcome bool := shuffle_test test_grid mt.

Definition WithEmptyCells (mt : G) : outcome bool := shuffle_test sparse_grid mt.

(** The condition the test [ValidateResult] asserts: it calls [shuffle],
    drops its result, and validates. *)
Definition ValidateResult (mt : G) : outcome bool :=
  shuffler ← GridShuffler_ctor test_grid;
  r ← shuffle ranges_shuffle shuffler mt;
  validateResult r.1.2.

End Tests.

(** *** Further inputs *)

Section MoreInputs.

Open Scope string_scope.

(** A partial assignment of the row [line_grid], domains of different sizes
    for its open positions, and the assignment of the run [line_draws]. *)
Definition line_partial : gmap Position string := {[ (0, 0) := "C" ]}.

Definition line_domains : gmap Position (list string) :=
  {[ (0, 1) := ["A"; "D"]; (0, 2) := ["B"]; (0, 3) := ["A"; "C"] ]}.

Definition line_assignment : gmap Position string :=
  list_to_map [((0, 0), "C"); ((0, 1), "A"); ((0, 2), "D"); ((0, 3), "B")].

(** A grid without non-empty cells, and one whose cells share a label. *)
Definition blank_grid : Grid := [[""; ""]].
Definition same_grid : Grid := [["A"; "A"]].

End MoreInputs.

(** ** The standalone copy [grid_shuffler_alg.cpp]

    The file [grid_shuffler_alg.cpp] holds an older copy of the class.  Its
    constructor, its four index builders and [validateResult] are, statement
    by statement, those of the header; [isValidAssignment], the selection
    of [backtrack] and [shuffle] differ and are embedded here.  They work on
    the same engine record. *)

Module Legacy.

(** [std::numeric_limits<size_t>::max()], for a [size_t] of 64 bits. *)
Definition size_max : Z := 2 ^ 64 - 1.

(** [isValidAssignment]: the second rule looks up what the assignment holds
    at the recorded original position of [digit]; [pos] plays no part in
    it. *)
Definition isValidAssignment (s : GridShuffler) (pos : Position)
    (digit : string) (ca : gmap Position string) : bool :=
  if neighbor_conflict s digit ca (default [] (neighbors_map s !! pos))
  then false
  else
    match original_positions s !! digit with
    | Some original_pos =>
        match ca !! original_pos with
        | Some assigned => if decide (assigned = digit) then false else true
        | None => true
        end
    | None => true
    end.

(** The selection loop of [backtrack]: the variables [next_pos] and
    [min_options] after the positions of [l] have been visited. *)
Fixpoint select_from (ca : gmap Position string)
    (pd : gmap Position (list string)) (l : list Position)
    (next_pos : Position) (min_options : Z) : Position * Z :=
  match l with
  | [] => (next_pos, min_options)
  | pos :: rest =>
      if contains ca pos then select_from ca pd rest next_pos min_options
      else
        let options_count := Z.of_nat (length (default [] (pd !! pos))) in
        if options_count <? min_options
        then select_from ca pd rest pos options_count
        else select_from ca pd rest next_pos min_options
  end.

(** [next_pos] starts as the value-initialised pair and [min_options] as
    the largest [size_t]. *)
Definition next_position (s : GridShuffler) (pd : gmap Position (list string))
    (ca : gmap Position string) : Position :=
  (select_from ca pd (non_empty_positions s) (0, 0) size_max).1.

Fixpoint try_digits
    (rec : gmap Position string -> option (bool * gmap Position string))
    (s : GridShuffler) (pos : Position) (digits : list string)
    (ca : gmap Position string) : option (bool * gmap Position string) :=
  match digits with
  | [] => Some (false, ca)
  | digit :: rest =>
      if isValidAssignment s pos digit ca then
        match rec (<[pos := digit]> ca) with
        | None => None
        | Some (true, ca') => Some (true, ca')
        | Some (false, ca') => try_digits rec s pos rest (delete pos ca')
        end
      else try_digits rec s pos rest ca
  end.

(** [backtrack], with a bound [fuel] on the recursion depth.  There is no
    test of what the selection loop found. *)
Fixpoint backtrack (s : GridShuffler) (pd : gmap Position (list string))
    (fuel : nat) (ca : gmap Position string)
  : option (bool * gmap Position string) :=
  match fuel with
  | O => None
  | S fuel' =>
      if decide (size ca = length (non_empty_positions s)) then Some (true, ca)
      else
        let next_pos := next_position s pd ca in
        try_digits (backtrack s pd fuel') s next_pos
          (default [] (pd !! next_pos)) ca
  end.

Section Randomness.

Variable G : Type.
Variable ranges_shuffle : list string -> G -> list string * G.

(** [shuffle]: every domain is filled with the keys of
    [forbidden_neighbors], one [push_back] each, and shuffled. *)
Definition shuffle (s : GridShuffler) (mt : G)
  : outcome (bool * GridShuffler * G) :=
  let '(possible_digits, mt') :=
    init_domains ranges_shuffle (all_digits s) (non_empty_positions s) ∅ mt in
  match backtrack s possible_digits (S (length (non_empty_positions s))) ∅ with
  | None => Stuck OutOfFuel
  | Some (true, current_assignment) =>
      g ← write_back (shuffled_grid s) current_assignment;
      Ret (true, set_shuffled_grid s g, mt')
  | Some (false, _) => Ret (false, s, mt')
  end.

End Randomness.

Arguments shuffle {G} ranges_shuffle s mt.

End Legacy.

Arguments shuffle_test {G} ranges_shuffle grid mt.
Arguments BasicTest {G} ranges_shuffle mt.
Arguments WithEmptyCells {G} ranges_shuffle mt.
Arguments ValidateResult {G} ranges_shuffle mt.

(** Equations between closed terms are settled by evaluation. *)
Ltac by_evaluation := vm_compute; reflexivity.

(** ** Generic facts about loops *)

Lemma foldM_app {A B : Type} (f : B -> A -> outcome B) (l1 l2 : list A) (b : B) :
  foldM f b (l1 ++ l2) = b' ← foldM f b l1; foldM f b' l2.
Proof.
  revert b. induction l1 as [|x l1 IH]; intros b; simpl; [done|].
  destruct (f b x) as [b1|w]; simpl; [apply IH|done].
Qed.

Lemma foldM_cons {A B : Type} (f : B -> A -> outcome B) (x : A) (l : list A) (b : B) :
  foldM f b (x :: l) = b' ← f b x; foldM f b' l.
Proof. done. Qed.

(** A loop whose body never gets stuck is a left fold. *)
Lemma foldM_pure {A B : Type} (f : B -> A -> outcome B) (h : B -> A -> B)
    (l : list A) (b : B) :
  (forall b' x, x ∈ l -> f b' x = Ret (h b' x)) ->
  foldM f b l = Ret (foldl h b l).
Proof.
  revert b. induction l as [|x l IH]; intros b Hf; simpl; [done|].
  rewrite Hf by left. simpl. apply IH. intros b' y Hy. apply Hf. by right.
Qed.

(** A loop returns only if its body returned at every element. *)
Lemma foldM_ret_inv {A B : Type} (f : B -> A -> outcome B) (l : list A) (b r : B) :
  foldM f b l = Ret r ->
  forall x, x ∈ l -> exists b1 b2, f b1 x = Ret b2.
Proof.
  revert b. induction l as [|y l IH]; intros b Hr x Hx; [by apply elem_of_nil in Hx|].
  simpl in Hr. destruct (f b y) as [b1|w] eqn:E; simpl in Hr; [|done].
  apply elem_of_cons in Hx as [->|Hx]; [eauto|]. by eapply IH.
Qed.

(** A loop gets stuck only for a reason for which its body gets stuck. *)
Lemma foldM_stuck_inv {A B : Type} (f : B -> A -> outcome B) (l : list A)
    (b : B) (w : stuck) :
  foldM f b l = Stuck w -> exists b1 x, x ∈ l /\ f b1 x = Stuck w.
Proof.
  revert b. induction l as [|y l IH]; intros b Hr; simpl in Hr; [done|].
  destruct (f b y) as [b1|w'] eqn:E; simpl in Hr.
  - destruct (IH _ Hr) as (b2 & x & Hx & Hs). exists b2, x. split; [by right|done].
  - inversion Hr; subst. exists b, y. split; [by left|done].
Qed.

(** Two nested loops over rows and columns are one loop over [cells]. *)
Lemma foldM_cells {B : Type} (f : Z -> B -> Z -> outcome B) (nrows ncols : Z) (b : B) :
  foldM (fun b' i => foldM (f i) b' (seqZ 0 ncols)) b (seqZ 0 nrows)
  = foldM (fun b' p => f p.1 b' p.2) b (cells nrows ncols).
Proof.
  unfold cells. generalize (seqZ 0 nrows). intros rs. revert b.
  induction rs as [|i rs IH]; intros b; [done|].
  cbn [foldM mbind list_bind]. rewrite foldM_app.
  assert (forall js b0, foldM (f i) b0 js
            = foldM (fun b' p => f p.1 b' p.2) b0 ((fun j => (i, j)) <$> js)) as Hin.
  { induction js as [|j js IHj]; intros b0; simpl; [done|].
    destruct (f i b0 j); simpl; [apply IHj|done]. }
  rewrite <- Hin. destruct (foldM (f i) b (seqZ 0 ncols)); simpl; [apply IH|done].
Qed.

Lemma elem_of_cells (nrows ncols : Z) (p : Position) :
  p ∈ cells nrows ncols <-> in_range nrows ncols p.1 p.2 = true.
Proof.
  unfold cells, in_range. rewrite list_elem_of_bind. split.
  - intros (i & Hp & Hi). apply list_elem_of_fmap in Hp as (j & -> & Hj).
    apply elem_of_seqZ in Hi, Hj. simpl. lia.
  - intros H. exists p.1. split.
    + apply list_elem_of_fmap. exists p.2. split; [by destruct p|].
      apply elem_of_seqZ. lia.
    + apply elem_of_seqZ. lia.
Qed.

(** ** The search: selection of the next position *)

Lemma contains_true (ca : gmap Position string) (p : Position) :
  contains ca p = true <-> ca !! p <> None.
Proof.
  unfold contains. rewrite bool_decide_eq_true.
  split; [by intros [? ->]|]. destruct (ca !! p); [eauto|done].
Qed.

Lemma contains_false (ca : gmap Position string) (p : Position) :
  contains ca p = false <-> ca !! p = None.
Proof.
  unfold contains. rewrite bool_decide_eq_false.
  split; [by intros ?%eq_None_not_Some|]. intros -> [? ?]; done.
Qed.

Lemma min_element_from_elem {A : Type} (comp : A -> A -> bool) (x : A) (rest : list A) :
  min_element_from comp x rest ∈ x :: rest.
Proof.
  revert x. induction rest as [|y rest IH]; intros x; simpl; [left|].
  destruct (comp y x).
  - right. apply IH.
  - specialize (IH x). apply elem_of_cons in IH as [->|IH]; [left|right; by right].
Qed.

Lemma min_element_elem {A : Type} (comp : A -> A -> bool) (l : list A) (x : A) :
  min_element comp l = Some x -> x ∈ l.
Proof.
  destruct l as [|y l]; simpl; [done|]. intros [= <-]. apply min_element_from_elem.
Qed.

Lemma elem_of_skip {A : Type} (a x y : A) (l : list A) :
  a ∈ x :: l -> a ∈ x :: y :: l.
Proof. rewrite !elem_of_cons. tauto. Qed.

(** With a comparison that only tells open positions from assigned ones,
    [min_element] keeps the first open position it meets. *)
Lemma min_element_from_open (ca : gmap Position string) (comp : Position -> Position -> bool)
    (x : Position) (rest : list Position) :
  (forall a b, a ∈ x :: rest -> b ∈ x :: rest ->
               comp a b = negb (contains ca a) && contains ca b) ->
  min_element_from comp x rest
  = if contains ca x
    then default x (head (filter (fun p => ca !! p = None) rest))
    else x.
Proof.
  revert x. induction rest as [|y rest IH]; intros x Hc; simpl.
  { by destruct (contains ca x). }
  rewrite (Hc y x) by (repeat constructor).
  destruct (contains ca x) eqn:Ex.
  - destruct (contains ca y) eqn:Ey; simpl.
    + rewrite IH, Ex.
      * apply contains_true in Ey. by rewrite filter_cons_False.
      * intros a b Ha Hb. apply Hc; by apply elem_of_skip.
    + rewrite IH, Ey.
      * apply contains_false in Ey. by rewrite filter_cons_True.
      * intros a b Ha Hb. apply Hc; by right.
  - rewrite andb_false_r. rewrite IH, Ex; [done|].
    intros a b Ha Hb. apply Hc; by apply elem_of_skip.
Qed.

Section Search.

Variable s : GridShuffler.
Variable pd : gmap Position (list string).

Lemma mrv_less_equal_domains (ca : gmap Position string) (a b : Position) :
  equal_domains s pd ->
  a ∈ non_empty_positions s -> b ∈ non_empty_positions s ->
  mrv_less ca pd a b = negb (contains ca a) && contains ca b.
Proof.
  intros He Ha Hb. unfold mrv_less. fold (domain_of pd a) (domain_of pd b).
  rewrite (He a b Ha Hb). rewrite bool_decide_eq_false_2 by lia.
  by rewrite orb_false_r.
Qed.

Lemma selected_elem (ca : gmap Position string) (p : Position) :
  selected s pd ca = Some p -> p ∈ non_empty_positions s.
Proof. apply min_element_elem. Qed.

(** Selection is first-open-position when the domains have equal sizes. *)
Lemma selected_first_open (ca : gmap Position string) (p : Position) :
  equal_domains s pd ->
  head (unassigned s ca) = Some p ->
  selected s pd ca = Some p.
Proof.
  intros He. unfold selected, unassigned.
  destruct (non_empty_positions s) as [|x rest] eqn:En; [done|].
  simpl. intros Hh. f_equal.
  rewrite (min_element_from_open ca).
  - destruct (contains ca x) eqn:Ex.
    + apply contains_true in Ex. rewrite filter_cons_False in Hh by done.
      by rewrite Hh.
    + apply contains_false in Ex. rewrite filter_cons_True in Hh by done.
      by injection Hh.
  - intros a b Ha Hb. apply mrv_less_equal_domains; rewrite ?En; done.
Qed.

(** *** Termination *)

Lemma unassigned_insert_lt (ca : gmap Position string) (pos : Position) (d : string) :
  pos ∈ non_empty_positions s -> ca !! pos = None ->
  (length (unassigned s (<[pos := d]> ca)) < length (unassigned s ca))%nat.
Proof.
  intros Hin Hnone. unfold unassigned.
  assert (filter (fun p => <[pos := d]> ca !! p = None) (non_empty_positions s)
          = filter (fun p => p <> pos)
              (filter (fun p => ca !! p = None) (non_empty_positions s))) as ->.
  { rewrite list_filter_filter. apply list_filter_iff. intros p.
    rewrite lookup_insert_None. intuition congruence. }
  apply (length_filter_lt _ _ pos); [|tauto].
  by apply list_elem_of_filter.
Qed.

Lemma unassigned_bound (ca : gmap Position string) :
  (length (unassigned s ca) <= length (non_empty_positions s))%nat.
Proof. apply length_filter. Qed.

(** A failed candidate loop hands the assignment back as it received it. *)
Lemma try_digits_false
    (rec : gmap Position string -> option (bool * gmap Position string))
    (pos : Position) (digits : list string) (ca ca' : gmap Position string) :
  (forall c c', rec c = Some (false, c') -> c' = c) ->
  ca !! pos = None ->
  try_digits rec s pos digits ca = Some (false, ca') -> ca' = ca.
Proof.
  intros Hrec Hnone. induction digits as [|d digits IH]; simpl.
  { by intros [= <-]. }
  destruct (isValidAssignment s pos d ca); [|done].
  destruct (rec (<[pos := d]> ca)) as [[[] c]|] eqn:Er; [done| |done].
  apply Hrec in Er as ->. by rewrite delete_insert_id.
Qed.

Lemma backtrack_false (fuel : nat) (ca ca' : gmap Position string) :
  backtrack s pd fuel ca = Some (false, ca') -> ca' = ca.
Proof.
  revert ca ca'. induction fuel as [|fuel IH]; intros ca ca'; simpl; [done|].
  case_decide; [done|].
  destruct (selected s pd ca) as [pos|]; [|by intros [= <-]].
  destruct (contains ca pos) eqn:Ec; [by intros [= <-]|].
  apply contains_false in Ec. by apply try_digits_false.
Qed.

Lemma try_digits_total
    (rec : gmap Position string -> option (bool * gmap Position string))
    (pos : Position) (digits : list string) (ca : gmap Position string) :
  (forall c c', rec c = Some (false, c') -> c' = c) ->
  (forall d, is_Some (rec (<[pos := d]> ca))) ->
  ca !! pos = None ->
  is_Some (try_digits rec s pos digits ca).
Proof.
  intros Hrec Htot Hnone. induction digits as [|d digits IH]; simpl; [eauto|].
  destruct (isValidAssignment s pos d ca); [|done].
  destruct (Htot d) as [[[] c] Er]; rewrite Er; [eauto|].
  apply Hrec in Er as ->. by rewrite delete_insert_id.
Qed.

(** [backtrack] returns as soon as the bound exceeds the number of open
    positions: every recursive call closes one more of them. *)
Lemma backtrack_total (fuel : nat) (ca : gmap Position string) :
  (length (unassigned s ca) < fuel)%nat ->
  is_Some (backtrack s pd fuel ca).
Proof.
  revert ca. induction fuel as [|fuel IH]; intros ca Hlt; [lia|]. simpl.
  case_decide; [eauto|].
  destruct (selected s pd ca) as [pos|] eqn:Em; [|eauto].
  destruct (contains ca pos) eqn:Ec; [eauto|].
  apply contains_false in Ec. apply selected_elem in Em.
  apply try_digits_total; [apply backtrack_false| |done].
  intros d. apply IH.
  pose proof (unassigned_insert_lt ca pos d Em Ec). lia.
Qed.

(** The result does not depend on the bound. *)
Lemma try_digits_mono
    (rec rec' : gmap Position string -> option (bool * gmap Position string))
    (pos : Position) (digits : list string) (ca : gmap Position string)
    (r : bool * gmap Position string) :
  (forall c r', rec c = Some r' -> rec' c = Some r') ->
  try_digits rec s pos digits ca = Some r ->
  try_digits rec' s pos digits ca = Some r.
Proof.
  intros Hrec. revert ca. induction digits as [|d digits IH]; intros ca; simpl; [done|].
  destruct (isValidAssignment s pos d ca); [|apply IH].
  destruct (rec (<[pos := d]> ca)) as [[[] c]|] eqn:Er; [| |done].
  - rewrite (Hrec _ _ Er). done.
  - rewrite (Hrec _ _ Er). apply IH.
Qed.

Lemma backtrack_mono (fuel fuel' : nat) (ca : gmap Position string)
    (r : bool * gmap Position string) :
  (fuel <= fuel')%nat ->
  backtrack s pd fuel ca = Some r -> backtrack s pd fuel' ca = Some r.
Proof.
  revert fuel' ca r. induction fuel as [|fuel IH]; intros fuel' ca r Hle; [done|].
  destruct fuel' as [|fuel']; [lia|]. simpl.
  case_decide; [done|].
  destruct (selected s pd ca) as [pos|]; [|done].
  destruct (contains ca pos); [done|].
  apply try_digits_mono. intros c r'. apply IH. lia.
Qed.

End Search.

(** ** The search: what an accepted assignment satisfies *)

Lemma neighbor_conflict_false (s : GridShuffler) (digit : string)
    (ca : gmap Position string) (nbrs : list Position) :
  neighbor_conflict s digit ca nbrs = false <->
  forall n dn, n ∈ nbrs -> ca !! n = Some dn -> dn ∉ forbidden_of s digit.
Proof.
  unfold forbidden_of. induction nbrs as [|q nbrs IH]; simpl.
  { split; [|done]. intros _ n dn Hn. by apply elem_of_nil in Hn. }
  destruct (ca !! q) as [dq|] eqn:Eq.
  - case_decide as Hd.
    + split; [done|]. intros Hall. exfalso. apply (Hall q dq); [by left|done|done].
    + rewrite IH. split.
      * intros Hall n dn [->|Hn]%elem_of_cons Hl; [congruence|by eapply Hall].
      * intros Hall n dn Hn. apply Hall. by right.
  - rewrite IH. split.
    + intros Hall n dn [->|Hn]%elem_of_cons Hl; [congruence|by eapply Hall].
    + intros Hall n dn Hn. apply Hall. by right.
Qed.

Lemma isValidAssignment_true (s : GridShuffler) (pos : Position)
    (digit : string) (ca : gmap Position string) :
  isValidAssignment s pos digit ca = true <->
  (forall n dn, n ∈ neighbors_of s pos -> ca !! n = Some dn ->
                dn ∉ forbidden_of s digit) /\
  original_positions s !! digit <> Some pos.
Proof.
  unfold isValidAssignment. fold (neighbors_of s pos).
  destruct (neighbor_conflict s digit ca (neighbors_of s pos)) eqn:En.
  - split; [done|]. intros [Hall _].
    apply (proj2 (neighbor_conflict_false _ _ _ _)) in Hall. congruence.
  - pose proof (proj1 (neighbor_conflict_false _ _ _ _) En) as Hall.
    destruct (original_positions s !! digit) as [p|]; [|by split].
    case_decide as E.
    + subst. split; [done|]. by intros [_ ?].
    + split; [|done]. intros _. split; [done|]. congruence.
Qed.

Section Soundness.

Variable s : GridShuffler.
Variable pd : gmap Position (list string).

(** Any property of partial assignments that accepted candidates preserve
    holds of the assignment a successful search returns, which moreover has
    one entry per non-empty position. *)
Section Invariant.

Variable Inv : gmap Position string -> Prop.

Hypothesis Inv_insert : forall ca pos digit,
  Inv ca -> pos ∈ non_empty_positions s -> ca !! pos = None ->
  digit ∈ domain_of pd pos -> isValidAssignment s pos digit ca = true ->
  Inv (<[pos := digit]> ca).

Lemma try_digits_invariant
    (rec : gmap Position string -> option (bool * gmap Position string))
    (pos : Position) (digits : list string) (ca ca' : gmap Position string) :
  (forall c c', Inv c -> rec c = Some (true, c') ->
     Inv c' /\ size c' = length (non_empty_positions s)) ->
  (forall c c', rec c = Some (false, c') -> c' = c) ->
  pos ∈ non_empty_positions s -> ca !! pos = None ->
  (forall d, d ∈ digits -> d ∈ domain_of pd pos) ->
  Inv ca ->
  try_digits rec s pos digits ca = Some (true, ca') ->
  Inv ca' /\ size ca' = length (non_empty_positions s).
Proof.
  intros Hrec Hfalse Hpos Hnone.
  induction digits as [|d digits IH]; intros Hdom Hc; simpl; [done|].
  assert (forall d', d' ∈ digits -> d' ∈ domain_of pd pos) as Hdom'.
  { intros d' Hd'. apply Hdom. by right. }
  destruct (isValidAssignment s pos d ca) eqn:Ev; [|by apply IH].
  destruct (rec (<[pos := d]> ca)) as [[[] c]|] eqn:Er; [| |done].
  - intros [= <-]. eapply Hrec; [|done].
    apply Inv_insert; [done..| |done]. apply Hdom. by left.
  - apply Hfalse in Er as ->. rewrite delete_insert_id by done. by apply IH.
Qed.

Lemma backtrack_invariant (fuel : nat) (ca ca' : gmap Position string) :
  Inv ca ->
  backtrack s pd fuel ca = Some (true, ca') ->
  Inv ca' /\ size ca' = length (non_empty_positions s).
Proof.
  revert ca ca'. induction fuel as [|fuel IH]; intros ca ca' Hc; simpl; [done|].
  case_decide as Hsz; [by intros [= <-]|].
  destruct (selected s pd ca) as [pos|] eqn:Em; [|done].
  destruct (contains ca pos) eqn:Ec; [done|].
  apply contains_false in Ec. apply selected_elem in Em.
  apply try_digits_invariant; try done.
  intros c c'. apply backtrack_false.
Qed.

End Invariant.

Lemma placed_insert (ca : gmap Position string) (pos : Position) (digit : string) :
  placed s pd ca ->
  pos ∈ non_empty_positions s -> digit ∈ domain_of pd pos ->
  isValidAssignment s pos digit ca = true ->
  placed s pd (<[pos := digit]> ca).
Proof.
  intros H1 Hpos Hdom [_ Hop]%isValidAssignment_true p d.
  rewrite lookup_insert. case_decide as E.
  - intros [= <-]. by subst.
  - apply H1.
Qed.

Lemma backtrack_placed (fuel : nat) (ca : gmap Position string) :
  backtrack s pd fuel ∅ = Some (true, ca) ->
  placed s pd ca /\ size ca = length (non_empty_positions s).
Proof.
  apply (backtrack_invariant (placed s pd)).
  - intros c pos d Hc Hpos _ Hd Hv. by apply placed_insert.
  - intros p d. by rewrite lookup_empty.
Qed.

(** A placed assignment of full size covers every non-empty position. *)
Lemma placed_complete (ca : gmap Position string) (p : Position) :
  NoDup (non_empty_positions s) ->
  placed s pd ca -> size ca = length (non_empty_positions s) ->
  p ∈ non_empty_positions s -> is_Some (ca !! p).
Proof.
  intros Hnd H1 Hsz Hp.
  assert (dom ca = list_to_set (non_empty_positions s)) as Hdom.
  { apply set_subseteq_size_eq.
    - intros q [d Hq]%elem_of_dom. apply elem_of_list_to_set. by apply (H1 q d).
    - rewrite size_dom, Hsz, size_list_to_set by done. lia. }
  apply elem_of_dom. rewrite Hdom. by apply elem_of_list_to_set.
Qed.

(** When the neighbour relation and the forbidden pairs are symmetric, no
    two neighbouring positions are assigned labels of which one is forbidden
    for the other, although each candidate is checked in one direction and
    against the already assigned neighbours only. *)
Hypothesis neighbors_sym :
  forall p q, q ∈ neighbors_of s p -> p ∈ neighbors_of s q.
Hypothesis neighbors_irrefl :
  forall p, p ∉ neighbors_of s p.
Hypothesis forbidden_sym :
  forall a b, b ∈ forbidden_of s a -> a ∈ forbidden_of s b.

Lemma conflict_free_insert (ca : gmap Position string) (pos : Position) (digit : string) :
  conflict_free s ca ->
  isValidAssignment s pos digit ca = true ->
  conflict_free s (<[pos := digit]> ca).
Proof.
  intros H2 [Hnb _]%isValidAssignment_true p q dp dq. rewrite !lookup_insert.
  destruct (decide (pos = p)) as [<-|Ep], (decide (pos = q)) as [<-|Eq].
  - intros _ _ Hq. by apply neighbors_irrefl in Hq.
  - intros [= <-] Hq Hn. by eapply Hnb.
  - intros Hp [= <-] Hn Hf. apply neighbors_sym in Hn.
    apply forbidden_sym in Hf. by eapply Hnb.
  - apply H2.
Qed.

Lemma backtrack_conflict_free (fuel : nat) (ca : gmap Position string) :
  backtrack s pd fuel ∅ = Some (true, ca) -> conflict_free s ca.
Proof.
  intros Hb. apply (backtrack_invariant (conflict_free s)) in Hb as [Hc _]; [done| |].
  - intros c pos d Hc _ _ _ Hv. by apply conflict_free_insert.
  - intros p q dp dq. by rewrite lookup_empty.
Qed.

End Soundness.

(** ** Reading the grid *)

Lemma in_range_spec (nrows ncols i j : Z) :
  in_range nrows ncols i j = true <-> 0 <= i < nrows /\ 0 <= j < ncols.
Proof. unfold in_range. lia. Qed.

Lemma empty_label_spec (x : string) : empty_label x = true <-> x = EmptyString.
Proof. by destruct x. Qed.

Lemma occupied_spec (g : Grid) (p : Position) :
  occupied g p = true <-> cell g p <> EmptyString.
Proof.
  unfold occupied. rewrite negb_true_iff, <- empty_label_spec.
  by destruct (empty_label (cell g p)).
Qed.

Lemma grid_at_Ret (g : Grid) (i j : Z) (x : string) :
  grid_at g i j = Ret x <->
  0 <= i /\ 0 <= j /\
  exists row, g !! Z.to_nat i = Some row /\ row !! Z.to_nat j = Some x.
Proof.
  unfold grid_at. destruct ((i <? 0) || (j <? 0)) eqn:E.
  - split; [done|]. lia.
  - destruct (g !! Z.to_nat i) as [row|] eqn:Er.
    + destruct (row !! Z.to_nat j) as [y|] eqn:Ey.
      * split.
        -- intros [= ->]. repeat split; try lia. eauto.
        -- intros (_ & _ & row' & [= <-] & Hy). congruence.
      * split; [done|]. intros (_ & _ & row' & [= <-] & Hy). congruence.
    + split; [done|]. by intros (_ & _ & row' & ? & _).
Qed.

Lemma grid_at_stuck (g : Grid) (i j : Z) (w : stuck) :
  grid_at g i j = Stuck w -> w = OutOfBounds.
Proof.
  unfold grid_at. repeat case_match; congruence.
Qed.

Lemma grid_at_cell (g : Grid) (i j : Z) (x : string) :
  grid_at g i j = Ret x -> cell g (i, j) = x.
Proof. unfold cell. simpl. by intros ->. Qed.

Lemma readable_cell (g : Grid) (nrows ncols i j : Z) :
  readable g nrows ncols -> in_range nrows ncols i j = true ->
  grid_at g i j = Ret (cell g (i, j)).
Proof.
  intros Hr Hin. destruct (Hr i j Hin) as [x Hx].
  by rewrite (grid_at_cell _ _ _ _ Hx).
Qed.

(** ** What the constructor computes *)

Lemma foldl_filter {A B : Type} (keep : A -> bool) (h : B -> A -> B)
    (b : B) (l : list A) :
  foldl (fun b' x => if keep x then h b' x else b') b l
  = foldl h b (filter (fun x => keep x) l).
Proof.
  revert b. induction l as [|x l IH]; intros b; simpl; [done|].
  destruct (keep x) eqn:E.
  - rewrite filter_cons_True by (by rewrite E). simpl. apply IH.
  - rewrite filter_cons_False by (rewrite E; simpl; tauto). apply IH.
Qed.

Section InsertAll.

Context `{Countable K} {V A : Type}.
Variable key : A -> K.
Variable val : A -> V.

Lemma lookup_insert_all_None (m : gmap K V) (l : list A) (k : K) :
  (forall x, x ∈ l -> key x <> k) ->
  insert_all key val m l !! k = m !! k.
Proof.
  revert m. induction l as [|y l IH]; intros m Hk; simpl; [done|].
  unfold insert_all in *. simpl. rewrite IH.
  - apply lookup_insert_ne. apply Hk. by left.
  - intros x Hx. apply Hk. by right.
Qed.

Lemma lookup_insert_all_Some (m : gmap K V) (l : list A) (k : K) (v : V) :
  insert_all key val m l !! k = Some v ->
  (exists x, x ∈ l /\ key x = k /\ val x = v) \/ m !! k = Some v.
Proof.
  revert m. induction l as [|y l IH]; intros m; [by right|].
  unfold insert_all in *. simpl. intros [(x & Hx & Hkv)|Hm]%IH.
  - left. exists x. split; [by right|done].
  - rewrite lookup_insert in Hm. case_decide as E.
    + injection Hm as <-. left. exists y. split; [by left|done].
    + by right.
Qed.

Lemma lookup_insert_all_inj `{EqDecision A} (m : gmap K V) (l : list A) (x : A) :
  (forall a b, a ∈ l -> b ∈ l -> key a = key b -> a = b) ->
  x ∈ l ->
  insert_all key val m l !! key x = Some (val x).
Proof.
  revert m. induction l as [|y l IH]; intros m Hinj Hx; [by apply elem_of_nil in Hx|].
  destruct (decide (x ∈ l)) as [Hl|Hl].
  - unfold insert_all in *. simpl. apply IH; [|done].
    intros a b Ha Hb. apply Hinj; by right.
  - apply elem_of_cons in Hx as [->|Hx]; [|done].
    change (insert_all key val (<[key y := val y]> m) l !! key y = Some (val y)).
    rewrite lookup_insert_all_None; [apply lookup_insert_eq|].
    intros z Hz Hk. apply Hl. rewrite <- (Hinj z y); [done|by right|by left|done].
Qed.

Lemma lookup_insert_all_is_Some (m : gmap K V) (l : list A) (x : A) :
  x ∈ l \/ is_Some (m !! key x) -> is_Some (insert_all key val m l !! key x).
Proof.
  revert m. induction l as [|y l IH]; intros m Hx.
  { destruct Hx as [Hx|Hx]; [by apply elem_of_nil in Hx|done]. }
  change (is_Some (insert_all key val (<[key y := val y]> m) l !! key x)).
  apply IH. rewrite lookup_insert. case_decide as E; [right; eauto|].
  destruct Hx as [[->|Hx]%elem_of_cons|Hx]; [done|by left|by right].
Qed.

End InsertAll.

(** *** The loops of the constructor on a readable grid *)

Section Builders.

Variable g : Grid.
Variables nrows ncols : Z.
Hypothesis Hread : readable g nrows ncols.

Lemma foldl_snoc (acc l : list Position) :
  foldl (fun ps p => ps ++ [p]) acc l = acc ++ l.
Proof.
  revert acc. induction l as [|x l IH]; intros acc; simpl; [by rewrite app_nil_r|].
  rewrite IH. by rewrite <- app_assoc.
Qed.

Lemma buildNonEmptyPositions_readable :
  buildNonEmptyPositions g nrows ncols = Ret (positions_spec g nrows ncols).
Proof.
  unfold buildNonEmptyPositions.
  rewrite (foldM_cells (non_empty_cell g)).
  rewrite (foldM_pure _ (fun ps p => if occupied g p then ps ++ [p] else ps)).
  - by rewrite (foldl_filter (occupied g) (fun ps p => ps ++ [p])), foldl_snoc.
  - intros ps [i j] Hp%elem_of_cells. unfold non_empty_cell. simpl in *.
    rewrite (readable_cell _ _ _ _ _ Hread Hp). simpl.
    unfold occupied. by destruct (empty_label (cell g (i, j))).
Qed.

Lemma neighbors_step_readable (pos : Position) (d : Z * Z)
    (nm : gmap Position (list Position)) :
  neighbors_step g nrows ncols pos nm d
  = Ret (if is_neighbor g nrows ncols (pos.1 + d.1, pos.2 + d.2)
         then add_neighbor pos (pos.1 + d.1, pos.2 + d.2) nm else nm).
Proof.
  unfold neighbors_step, is_neighbor. simpl.
  destruct (in_range nrows ncols (pos.1 + d.1) (pos.2 + d.2)) eqn:Hin; [|done].
  rewrite (readable_cell _ _ _ _ _ Hread Hin). simpl.
  unfold occupied. by destruct (empty_label _).
Qed.

Lemma neighbors_steps (pos : Position) (ds : list (Z * Z))
    (nm : gmap Position (list Position)) (l0 : list Position) :
  nm !! pos = Some l0 ->
  foldM (neighbors_step g nrows ncols pos) nm ds
  = Ret (<[pos := l0 ++ filter (fun q => is_neighbor g nrows ncols q)
                          ((fun d : Z * Z => (pos.1 + d.1, pos.2 + d.2)) <$> ds)]> nm).
Proof.
  revert nm l0. induction ds as [|d ds IH]; intros nm l0 Hl.
  { simpl. by rewrite app_nil_r, insert_id. }
  rewrite foldM_cons, neighbors_step_readable, fmap_cons. cbn [mbind outcome_bind].
  destruct (is_neighbor g nrows ncols (pos.1 + d.1, pos.2 + d.2)) eqn:Hn.
  - rewrite filter_cons_True by (by rewrite Hn).
    unfold add_neighbor. rewrite Hl. simpl default.
    rewrite (IH _ (l0 ++ [(pos.1 + d.1, pos.2 + d.2)])) by apply lookup_insert_eq.
    by rewrite insert_insert_eq, <- app_assoc.
  - rewrite filter_cons_False by (rewrite Hn; simpl; tauto).
    by apply IH.
Qed.

Lemma buildNeighborsMap_readable (nep : list Position) :
  buildNeighborsMap g nrows ncols nep
  = Ret (insert_all id (neighbors_spec g nrows ncols) ∅ nep).
Proof.
  unfold buildNeighborsMap, insert_all. apply foldM_pure.
  intros nm pos _. unfold neighbors_cell.
  rewrite (neighbors_steps pos directions _ []) by apply lookup_insert_eq.
  by rewrite insert_insert_eq.
Qed.

Lemma forbidden_step_readable (i j : Z) (tar : string) (d : Z * Z)
    (fn : gmap string (gset string)) :
  forbidden_step g nrows ncols i j tar fn d
  = Ret (if is_neighbor g nrows ncols (i + d.1, j + d.2)
         then forbid tar (cell g (i + d.1, j + d.2)) fn else fn).
Proof.
  unfold forbidden_step, is_neighbor. simpl.
  destruct (in_range nrows ncols (i + d.1) (j + d.2)) eqn:Hin; [|done].
  rewrite (readable_cell _ _ _ _ _ Hread Hin). simpl.
  unfold occupied. by destruct (empty_label _).
Qed.

Lemma forbidden_steps (i j : Z) (tar : string) (ds : list (Z * Z))
    (fn : gmap string (gset string)) (S0 : gset string) :
  fn !! tar = Some S0 ->
  foldM (forbidden_step g nrows ncols i j tar) fn ds
  = Ret (<[tar := S0 ∪ list_to_set (cell g <$>
                   filter (fun q => is_neighbor g nrows ncols q)
                     ((fun d : Z * Z => (i + d.1, j + d.2)) <$> ds))]> fn).
Proof.
  revert fn S0. induction ds as [|d ds IH]; intros fn S0 Hl.
  { simpl. by rewrite (right_id_L ∅ (∪)), insert_id. }
  rewrite foldM_cons, forbidden_step_readable, fmap_cons. cbn [mbind outcome_bind].
  destruct (is_neighbor g nrows ncols (i + d.1, j + d.2)) eqn:Hn.
  - rewrite filter_cons_True by (by rewrite Hn).
    unfold forbid. rewrite Hl. simpl default.
    rewrite (IH _ (S0 ∪ {[cell g (i + d.1, j + d.2)]})) by apply lookup_insert_eq.
    by rewrite insert_insert_eq, fmap_cons, list_to_set_cons, (assoc_L (∪)).
  - rewrite filter_cons_False by (rewrite Hn; simpl; tauto).
    by apply IH.
Qed.

Lemma buildForbiddenNeighbors_readable :
  buildForbiddenNeighbors g nrows ncols
  = Ret (insert_all (cell g) (forbidden_spec g nrows ncols) ∅
           (positions_spec g nrows ncols)).
Proof.
  unfold buildForbiddenNeighbors.
  rewrite (foldM_cells (forbidden_cell g nrows ncols)).
  rewrite (foldM_pure _ (fun fn p =>
    if occupied g p then <[cell g p := forbidden_spec g nrows ncols p]> fn else fn)).
  - by rewrite (foldl_filter (occupied g)
                  (fun fn p => <[cell g p := forbidden_spec g nrows ncols p]> fn)).
  - intros fn [i j] Hp%elem_of_cells. unfold forbidden_cell. cbn [fst snd] in *.
    rewrite (readable_cell _ _ _ _ _ Hread Hp). cbn [mbind outcome_bind].
    unfold occupied. destruct (empty_label (cell g (i, j))); cbn [negb]; [done|].
    rewrite (forbidden_steps i j _ directions _ ∅) by apply lookup_insert_eq.
    by rewrite insert_insert_eq, (left_id_L ∅ (∪)).
Qed.

Lemma buildOriginalPositions_readable :
  buildOriginalPositions g nrows ncols
  = Ret (insert_all (cell g) id ∅ (positions_spec g nrows ncols)).
Proof.
  unfold buildOriginalPositions.
  rewrite (foldM_cells (original_cell g)).
  rewrite (foldM_pure _ (fun op p => if occupied g p then <[cell g p := p]> op else op)).
  - by rewrite (foldl_filter (occupied g) (fun op p => <[cell g p := p]> op)).
  - intros op [i j] Hp%elem_of_cells. unfold original_cell. simpl in *.
    rewrite (readable_cell _ _ _ _ _ Hread Hp). simpl.
    unfold occupied. by destruct (empty_label (cell g (i, j))).
Qed.

End Builders.

(** *** The outcome of the constructor *)

Lemma forbidden_cell_Ret (g : Grid) (nrows ncols i j : Z)
    (fn fn' : gmap string (gset string)) :
  forbidden_cell g nrows ncols i fn j = Ret fn' -> exists x, grid_at g i j = Ret x.
Proof.
  unfold forbidden_cell. destruct (grid_at g i j) as [x|w]; [eauto|done].
Qed.

Lemma forbidden_cell_stuck (g : Grid) (nrows ncols i j : Z)
    (fn : gmap string (gset string)) (w : stuck) :
  forbidden_cell g nrows ncols i fn j = Stuck w -> w = OutOfBounds.
Proof.
  unfold forbidden_cell. destruct (grid_at g i j) as [x|w'] eqn:E.
  - cbn [mbind outcome_bind]. destruct (empty_label x); [done|].
    intros (fn1 & d & _ & Hs)%foldM_stuck_inv. unfold forbidden_step in Hs.
    destruct (in_range _ _ _ _); [|done].
    destruct (grid_at g (i + d.1) (j + d.2)) as [y|w''] eqn:E'.
    + cbn [mbind outcome_bind] in Hs. by destruct (negb (empty_label y)).
    + injection Hs as <-. by eapply grid_at_stuck.
  - intros [= <-]. by eapply grid_at_stuck.
Qed.

Lemma buildForbiddenNeighbors_Ret (g : Grid) (nrows ncols : Z)
    (fn : gmap string (gset string)) :
  buildForbiddenNeighbors g nrows ncols = Ret fn -> readable g nrows ncols.
Proof.
  unfold buildForbiddenNeighbors. rewrite (foldM_cells (forbidden_cell g nrows ncols)).
  intros Hr i j Hin.
  destruct (foldM_ret_inv _ _ _ _ Hr (i, j)) as (b1 & b2 & Hc).
  { by apply elem_of_cells. }
  by eapply forbidden_cell_Ret.
Qed.

Lemma buildForbiddenNeighbors_stuck (g : Grid) (nrows ncols : Z) (w : stuck) :
  buildForbiddenNeighbors g nrows ncols = Stuck w -> w = OutOfBounds.
Proof.
  unfold buildForbiddenNeighbors. rewrite (foldM_cells (forbidden_cell g nrows ncols)).
  intros (b1 & p & _ & Hs)%foldM_stuck_inv. by eapply forbidden_cell_stuck.
Qed.

Lemma ctor_width (grid : Grid) :
  (if 0 <? Z.of_nat (length grid)
   then match grid with row0 :: _ => Z.of_nat (length row0) | [] => 0 end
   else 0) = first_row_width grid.
Proof.
  unfold first_row_width. destruct grid as [|row0 grid]; [done|].
  cbn [head default]. destruct (0 <? _) eqn:E; [done|].
  apply Z.ltb_ge in E. rewrite length_cons in E. lia.
Qed.

Lemma ctor_readable (grid : Grid) :
  readable grid (Z.of_nat (length grid)) (first_row_width grid) ->
  GridShuffler_ctor grid = Ret (engine_spec grid).
Proof.
  intros Hr. unfold GridShuffler_ctor. rewrite ctor_width.
  rewrite (buildForbiddenNeighbors_readable _ _ _ Hr). cbn [mbind outcome_bind].
  rewrite (buildNonEmptyPositions_readable _ _ _ Hr). cbn [mbind outcome_bind].
  rewrite (buildNeighborsMap_readable _ _ _ Hr). cbn [mbind outcome_bind].
  rewrite (buildOriginalPositions_readable _ _ _ Hr). done.
Qed.

Lemma ctor_Ret (grid : Grid) (s : GridShuffler) :
  GridShuffler_ctor grid = Ret s ->
  readable grid (Z.of_nat (length grid)) (first_row_width grid) /\
  s = engine_spec grid.
Proof.
  intros Hc.
  assert (readable grid (Z.of_nat (length grid)) (first_row_width grid)) as Hr.
  { unfold GridShuffler_ctor in Hc. rewrite ctor_width in Hc.
    destruct (buildForbiddenNeighbors _ _ _) as [fn|w] eqn:E; [|done].
    by eapply buildForbiddenNeighbors_Ret. }
  split; [done|]. rewrite (ctor_readable _ Hr) in Hc. congruence.
Qed.

Lemma ctor_stuck (grid : Grid) (w : stuck) :
  GridShuffler_ctor grid = Stuck w ->
  w = OutOfBounds /\
  ~ readable grid (Z.of_nat (length grid)) (first_row_width grid).
Proof.
  intros Hc. split.
  - unfold GridShuffler_ctor in Hc. rewrite ctor_width in Hc.
    destruct (buildForbiddenNeighbors _ _ _) as [fn|w'] eqn:E.
    + pose proof (buildForbiddenNeighbors_Ret _ _ _ _ E) as Hr.
      pose proof (ctor_readable _ Hr) as Hc'. unfold GridShuffler_ctor in Hc'.
      rewrite ctor_width, E in Hc'. congruence.
    + injection Hc as <-. by eapply buildForbiddenNeighbors_stuck.
  - intros Hr. rewrite (ctor_readable _ Hr) in Hc. done.
Qed.

Lemma readable_rows_cover (grid : Grid) :
  readable grid (Z.of_nat (length grid)) (first_row_width grid) <-> rows_cover grid.
Proof.
  unfold readable, rows_cover, first_row_width.
  set (w := length (default [] (head grid))). split.
  - intros Hr. apply Forall_lookup. intros i row Hi.
    destruct (decide (w = 0)%nat) as [->|Hw]; [lia|].
    destruct (Hr (Z.of_nat i) (Z.of_nat (w - 1))) as [x Hx].
    { apply in_range_spec. apply lookup_lt_Some in Hi. lia. }
    apply grid_at_Ret in Hx as (_ & _ & row' & Hrow & Hj).
    rewrite Nat2Z.id in Hrow. rewrite Nat2Z.id in Hj.
    pose proof (eq_trans (eq_sym Hi) Hrow) as E. injection E as <-.
    apply lookup_lt_Some in Hj. lia.
  - intros Hc i j [Hi Hj]%in_range_spec.
    destruct (lookup_lt_is_Some_2 grid (Z.to_nat i)) as [row Hrow]; [lia|].
    pose proof (Forall_lookup_1 _ _ _ _ Hc Hrow) as Hlen. simpl in Hlen.
    destruct (lookup_lt_is_Some_2 row (Z.to_nat j)) as [x Hx]; [lia|].
    exists x. apply grid_at_Ret. repeat split; try lia. eauto.
Qed.

(** ** The indices of a constructed engine *)

Lemma seq_sorted (a n : nat) : StronglySorted lt (seq a n).
Proof.
  revert a. induction n as [|n IH]; intros a; simpl; constructor; [apply IH|].
  apply Forall_forall. intros x Hx%elem_of_seq. lia.
Qed.

Lemma seqZ_sorted (m n : Z) : StronglySorted Z.lt (seqZ m n).
Proof.
  unfold seqZ. apply (StronglySorted_fmap _ lt); [|apply seq_sorted].
  intros x y Hxy. lia.
Qed.

Lemma filter_sorted {A : Type} (R : relation A) (P : A -> Prop)
    `{forall x, Decision (P x)} (l : list A) :
  StronglySorted R l -> StronglySorted R (filter P l).
Proof.
  induction 1 as [|x l Hl IH Hx]; [constructor|].
  destruct (decide (P x)).
  - rewrite filter_cons_True by done. constructor; [done|].
    apply Forall_forall. intros y [_ Hy]%list_elem_of_filter.
    by eapply Forall_forall in Hx.
  - by rewrite filter_cons_False.
Qed.

Lemma cells_sorted (nrows ncols : Z) :
  StronglySorted row_major_lt (cells nrows ncols).
Proof.
  unfold cells. pose proof (seqZ_sorted 0 nrows) as Hs.
  induction Hs as [|i rs Hrs IH Hi]; [constructor|].
  cbn [mbind list_bind]. apply StronglySorted_app_2; [| |done].
  - intros p q (j & -> & _)%list_elem_of_fmap (i' & Hq & Hi')%list_elem_of_bind.
    apply list_elem_of_fmap in Hq as (j' & -> & _).
    left. simpl. by eapply Forall_forall in Hi.
  - apply (StronglySorted_fmap _ Z.lt); [|apply seqZ_sorted].
    intros x y Hxy. right. simpl. done.
Qed.

Lemma row_major_lt_irrefl (p : Position) : ~ row_major_lt p p.
Proof. unfold row_major_lt. lia. Qed.

Lemma sorted_NoDup (l : list Position) :
  StronglySorted row_major_lt l -> NoDup l.
Proof.
  induction 1 as [|x l Hl IH Hx]; constructor; [|done].
  intros Hin. eapply Forall_forall in Hx; [|done]. by apply row_major_lt_irrefl in Hx.
Qed.

(** The head of a sorted list is its least element. *)
Lemma sorted_head_least (l : list Position) (p0 p : Position) :
  StronglySorted row_major_lt l -> head l = Some p0 -> p ∈ l ->
  row_major_le p0 p.
Proof.
  intros Hs Hh Hp. destruct l as [|x l]; [done|]. injection Hh as ->.
  apply StronglySorted_cons in Hs as [Hx _].
  apply elem_of_cons in Hp as [->|Hp]; [by left|right].
  by eapply Forall_forall in Hx.
Qed.

Lemma elem_of_around (p q : Position) :
  q ∈ around p <->
  (q.1 = p.1 - 1 /\ q.2 = p.2) \/ (q.1 = p.1 + 1 /\ q.2 = p.2) \/
  (q.1 = p.1 /\ q.2 = p.2 - 1) \/ (q.1 = p.1 /\ q.2 = p.2 + 1).
Proof.
  unfold around, directions. destruct p as [pi pj], q as [qi qj]. simpl.
  rewrite !elem_of_cons, elem_of_nil.
  split.
  - intros [[= -> ->]|[[= -> ->]|[[= -> ->]|[[= -> ->]|[]]]]]; lia.
  - intros [[-> ->]|[[-> ->]|[[-> ->]|[-> ->]]]].
    + left. f_equal; lia.
    + right; left. f_equal; lia.
    + right; right; left. f_equal; lia.
    + right; right; right; left. f_equal; lia.
Qed.

Lemma around_sym (p q : Position) : q ∈ around p -> p ∈ around q.
Proof. rewrite !elem_of_around. lia. Qed.

Lemma around_irrefl (p : Position) : p ∉ around p.
Proof. rewrite elem_of_around. lia. Qed.

Lemma NoDup_filter_lookup {A : Type} (P : A -> Prop) `{forall x, Decision (P x)}
    (l : list A) (i j : nat) (x : A) :
  NoDup (filter P l) -> P x -> l !! i = Some x -> l !! j = Some x -> i = j.
Proof.
  revert i j. induction l as [|y l IH]; intros i j Hnd HP Hi Hj; [done|].
  destruct (decide (P y)) as [Hy|Hy].
  - rewrite filter_cons_True in Hnd by done. apply NoDup_cons in Hnd as [Hny Hnd].
    destruct i as [|i], j as [|j]; simpl in *; [done| | |f_equal; by apply IH].
    + injection Hi as ->. exfalso. apply Hny. apply list_elem_of_filter.
      split; [done|]. by eapply list_elem_of_lookup_2.
    + injection Hj as ->. exfalso. apply Hny. apply list_elem_of_filter.
      split; [done|]. by eapply list_elem_of_lookup_2.
  - rewrite filter_cons_False in Hnd by done.
    destruct i as [|i], j as [|j]; simpl in *; [done| | |f_equal; by apply IH].
    + injection Hi as ->. done.
    + injection Hj as ->. done.
Qed.

Lemma NoDup_concat_lookup {A : Type} (P : A -> Prop) `{forall x, Decision (P x)}
    (ll : list (list A)) (i i' j j' : nat) (r r' : list A) (x : A) :
  NoDup (filter P (concat ll)) -> P x ->
  ll !! i = Some r -> r !! j = Some x ->
  ll !! i' = Some r' -> r' !! j' = Some x ->
  i = i' /\ j = j'.
Proof.
  revert i i'. induction ll as [|r0 ll IH]; intros i i' Hnd HP Hi Hj Hi' Hj'; [done|].
  simpl in Hnd. rewrite filter_app in Hnd.
  apply NoDup_app in Hnd as (Hnd0 & Hcross & Hnd1).
  assert (forall k rr jj, ll !! k = Some rr -> rr !! jj = Some x ->
                          x ∈ filter P (concat ll)) as Hin.
  { intros k rr jj Hk Hjj. apply list_elem_of_filter. split; [done|].
    apply list_elem_of_In, in_concat. exists rr.
    split; apply list_elem_of_In; by eapply list_elem_of_lookup_2. }
  destruct i as [|i], i' as [|i']; simpl in *.
  - injection Hi as <-. injection Hi' as <-. split; [done|].
    exact (NoDup_filter_lookup P r0 j j' x Hnd0 HP Hj Hj').
  - injection Hi as <-. exfalso. apply (Hcross x); [|by eapply Hin].
    apply list_elem_of_filter. split; [done|]. by eapply list_elem_of_lookup_2.
  - injection Hi' as <-. exfalso. apply (Hcross x); [|by eapply Hin].
    apply list_elem_of_filter. split; [done|]. by eapply list_elem_of_lookup_2.
  - destruct (IH i i') as [-> ->]; done.
Qed.

Section Indices.

Variable grid : Grid.

Abbreviation R := (Z.of_nat (length grid)).
Abbreviation C := (first_row_width grid).
Abbreviation nep := (positions_spec grid R C).
Abbreviation s0 := (engine_spec grid).

Lemma elem_of_positions (p : Position) :
  p ∈ nep <-> in_range R C p.1 p.2 = true /\ occupied grid p = true.
Proof.
  unfold positions_spec. rewrite list_elem_of_filter, elem_of_cells.
  rewrite Is_true_true. tauto.
Qed.

Lemma positions_sorted : StronglySorted row_major_lt nep.
Proof. apply filter_sorted, cells_sorted. Qed.

Lemma positions_NoDup : NoDup nep.
Proof. apply sorted_NoDup, positions_sorted. Qed.

Lemma elem_of_neighbors_spec (p q : Position) :
  q ∈ neighbors_spec grid R C p <-> q ∈ around p /\ q ∈ nep.
Proof.
  unfold neighbors_spec, is_neighbor.
  rewrite list_elem_of_filter, elem_of_positions, Is_true_true, andb_true_iff. tauto.
Qed.

Lemma neighbors_lookup (p : Position) :
  p ∈ nep -> neighbors_map s0 !! p = Some (neighbors_spec grid R C p).
Proof.
  intros Hp. simpl.
  apply (lookup_insert_all_inj id (neighbors_spec grid R C) ∅ nep p); [|done].
  intros a b _ _ E. exact E.
Qed.

Lemma neighbors_lookup_None (p : Position) :
  p ∉ nep -> neighbors_map s0 !! p = None.
Proof.
  intros Hp. simpl. rewrite lookup_insert_all_None; [done|].
  intros x Hx E. unfold id in E. by subst.
Qed.

Lemma elem_of_neighbors_of (p q : Position) :
  q ∈ neighbors_of s0 p <-> p ∈ nep /\ q ∈ nep /\ q ∈ around p.
Proof.
  unfold neighbors_of. destruct (decide (p ∈ nep)) as [Hp|Hp].
  - rewrite (neighbors_lookup p Hp). simpl. rewrite elem_of_neighbors_spec. tauto.
  - rewrite (neighbors_lookup_None p Hp). simpl. rewrite elem_of_nil. tauto.
Qed.

Lemma neighbors_of_sym (p q : Position) :
  q ∈ neighbors_of s0 p -> p ∈ neighbors_of s0 q.
Proof.
  rewrite !elem_of_neighbors_of. intros (Hp & Hq & Ha).
  apply around_sym in Ha. tauto.
Qed.

Lemma neighbors_of_irrefl (p : Position) : p ∉ neighbors_of s0 p.
Proof.
  rewrite elem_of_neighbors_of. intros (_ & _ & Ha). by apply around_irrefl in Ha.
Qed.

(** The keys of [forbidden_neighbors] are the labels of the non-empty
    positions; the empty label is not among them. *)
Lemma forbidden_keys (d : string) :
  is_Some (forbidden_neighbors s0 !! d) <-> exists p, p ∈ nep /\ cell grid p = d.
Proof.
  simpl. split.
  - intros [S0 [(p & Hp & Hk & _)|Hm]%lookup_insert_all_Some]; [eauto|].
    by rewrite lookup_empty in Hm.
  - intros (p & Hp & <-). apply lookup_insert_all_is_Some. by left.
Qed.

Lemma forbidden_keys_nonempty (d : string) :
  is_Some (forbidden_neighbors s0 !! d) -> d <> EmptyString.
Proof.
  intros (p & [_ Ho]%elem_of_positions & <-)%forbidden_keys.
  by apply occupied_spec.
Qed.

Lemma originals_lookup_Some (d : string) (p : Position) :
  original_positions s0 !! d = Some p -> p ∈ nep /\ cell grid p = d.
Proof.
  simpl. intros [(q & Hq & Hk & Hv)|Hm]%lookup_insert_all_Some.
  - unfold id in Hv. by subst.
  - by rewrite lookup_empty in Hm.
Qed.

(** *** Pairwise distinct labels *)

Hypothesis Hdistinct : distinct_labels grid.

Lemma cell_inj (p q : Position) :
  cell grid p = cell grid q -> cell grid p <> EmptyString -> p = q.
Proof.
  intros Heq Hne. assert (cell grid q <> EmptyString) as Hne' by congruence.
  unfold cell in *.
  destruct (grid_at grid p.1 p.2) as [x|] eqn:Ep; [|done].
  destruct (grid_at grid q.1 q.2) as [y|] eqn:Eq; [|done]. subst y.
  apply grid_at_Ret in Ep as (? & ? & r & Hr & Hx).
  apply grid_at_Ret in Eq as (? & ? & r' & Hr' & Hx').
  destruct (NoDup_concat_lookup _ _ _ _ _ _ _ _ x Hdistinct Hne Hr Hx Hr' Hx') as [E1 E2].
  destruct p, q; simpl in *. f_equal; lia.
Qed.

Lemma positions_label_inj (p q : Position) :
  p ∈ nep -> q ∈ nep -> cell grid p = cell grid q -> p = q.
Proof.
  intros [_ Hp%occupied_spec]%elem_of_positions _ Heq. by apply cell_inj.
Qed.

Lemma forbidden_lookup (p : Position) :
  p ∈ nep ->
  forbidden_neighbors s0 !! cell grid p = Some (forbidden_spec grid R C p).
Proof.
  intros Hp. simpl.
  apply (lookup_insert_all_inj (cell grid) (forbidden_spec grid R C) ∅ nep p); [|done].
  apply positions_label_inj.
Qed.

Lemma originals_lookup (p : Position) :
  p ∈ nep -> original_positions s0 !! cell grid p = Some p.
Proof.
  intros Hp. simpl.
  apply (lookup_insert_all_inj (cell grid) id ∅ nep p); [|done].
  apply positions_label_inj.
Qed.

Lemma elem_of_forbidden_of (a b : string) :
  b ∈ forbidden_of s0 a <->
  exists p q, p ∈ nep /\ q ∈ nep /\ q ∈ around p /\
              cell grid p = a /\ cell grid q = b.
Proof.
  unfold forbidden_of. split.
  - destruct (forbidden_neighbors s0 !! a) as [S0|] eqn:E; simpl; [|set_solver].
    destruct (proj1 (forbidden_keys a)) as (p & Hp & <-); [eauto|].
    rewrite (forbidden_lookup p Hp) in E. injection E as <-.
    unfold forbidden_spec. rewrite elem_of_list_to_set, list_elem_of_fmap.
    intros (q & -> & [Ha Hq]%elem_of_neighbors_spec). by exists p, q.
  - intros (p & q & Hp & Hq & Ha & <- & <-).
    rewrite (forbidden_lookup p Hp). simpl.
    unfold forbidden_spec. rewrite elem_of_list_to_set, list_elem_of_fmap.
    exists q. split; [done|]. by apply elem_of_neighbors_spec.
Qed.

Lemma forbidden_of_sym (a b : string) :
  b ∈ forbidden_of s0 a -> a ∈ forbidden_of s0 b.
Proof.
  rewrite !elem_of_forbidden_of. intros (p & q & Hp & Hq & Ha & Hcp & Hcq).
  exists q, p. by apply around_sym in Ha.
Qed.

End Indices.

(** ** Writing the assignment into the output grid *)

Lemma shaped_replicate (nrows ncols : Z) (x : string) :
  shaped nrows ncols (replicate (Z.to_nat nrows) (replicate (Z.to_nat ncols) x)).
Proof.
  split; [apply length_replicate|].
  apply Forall_replicate. apply length_replicate.
Qed.

Lemma shaped_readable (nrows ncols : Z) (g : Grid) :
  shaped nrows ncols g -> readable g nrows ncols.
Proof.
  intros [Hlen Hrows] i j [Hi Hj]%in_range_spec.
  destruct (lookup_lt_is_Some_2 g (Z.to_nat i)) as [row Hrow]; [lia|].
  pose proof (Forall_lookup_1 _ _ _ _ Hrows Hrow) as Hl. simpl in Hl.
  destruct (lookup_lt_is_Some_2 row (Z.to_nat j)) as [x Hx]; [lia|].
  exists x. apply grid_at_Ret. repeat split; try lia. eauto.
Qed.

Lemma grid_write_spec (nrows ncols : Z) (g : Grid) (i j : Z) (d : string) :
  shaped nrows ncols g -> in_range nrows ncols i j = true ->
  exists g', grid_write g i j d = Ret g' /\ shaped nrows ncols g' /\
    forall i' j', grid_at g' i' j'
                  = if decide ((i', j') = (i, j)) then Ret d else grid_at g i' j'.
Proof.
  intros [Hlen Hrows] [Hi Hj]%in_range_spec. unfold grid_write.
  destruct ((i <? 0) || (j <? 0)) eqn:E; [lia|].
  destruct (lookup_lt_is_Some_2 g (Z.to_nat i)) as [row Hrow]; [lia|].
  pose proof (Forall_lookup_1 _ _ _ _ Hrows Hrow) as Hl. simpl in Hl.
  rewrite Hrow. rewrite decide_True by lia.
  eexists. split; [done|]. split.
  - split; [by rewrite length_insert|].
    apply Forall_insert; [done|]. by rewrite length_insert.
  - intros i' j'. unfold grid_at.
    destruct ((i' <? 0) || (j' <? 0)) eqn:E'.
    { rewrite decide_False; [done|]. intros [= -> ->]. lia. }
    destruct (decide (Z.to_nat i' = Z.to_nat i)) as [Ei|Ei].
    + rewrite Ei, list_lookup_insert_eq by lia. rewrite Hrow.
      destruct (decide (Z.to_nat j' = Z.to_nat j)) as [Ej|Ej].
      * rewrite Ej, list_lookup_insert_eq by lia.
        rewrite decide_True; [done|]. f_equal; lia.
      * rewrite list_lookup_insert_ne by done.
        rewrite decide_False; [done|]. intros [= -> ->]. done.
    + rewrite list_lookup_insert_ne by done.
      rewrite decide_False; [done|]. intros [= -> ->]. done.
Qed.

Lemma write_list_spec (nrows ncols : Z) (l : list (Position * string)) (g : Grid) :
  shaped nrows ncols g ->
  NoDup l.*1 ->
  (forall p d, (p, d) ∈ l -> in_range nrows ncols p.1 p.2 = true) ->
  exists g',
    foldM (fun g0 '(pos, digit) => grid_write g0 pos.1 pos.2 digit) g l = Ret g' /\
    shaped nrows ncols g' /\
    forall p, grid_at g' p.1 p.2
              = match (list_to_map l : gmap Position string) !! p with
                | Some d => Ret d
                | None => grid_at g p.1 p.2
                end.
Proof.
  revert g. induction l as [|[q d] l IH]; intros g Hs Hnd Hin.
  { exists g. split; [done|]. split; [done|]. intros p. simpl.
    by rewrite lookup_empty. }
  rewrite fmap_cons in Hnd. apply NoDup_cons in Hnd as [Hq Hnd].
  destruct (grid_write_spec nrows ncols g q.1 q.2 d Hs) as (g1 & Hw & Hs1 & Hr1).
  { apply (Hin q d). by left. }
  destruct (IH g1 Hs1 Hnd) as (g' & Hf & Hs' & Hr').
  { intros p d' Hp. apply (Hin p d'). by right. }
  exists g'. rewrite foldM_cons, Hw. split; [done|]. split; [done|].
  intros p. rewrite Hr'. cbn [list_to_map foldr uncurry fst snd].
  rewrite lookup_insert. destruct (decide (q = p)) as [->|Eq].
  - rewrite (not_elem_of_list_to_map_1 _ _ Hq). rewrite Hr1.
    rewrite decide_True; [done|]. by destruct p.
  - destruct (list_to_map l !! p) eqn:El; [done|].
    rewrite Hr1. rewrite decide_False; [done|]. destruct p, q. simpl. congruence.
Qed.

Lemma write_back_spec (nrows ncols : Z) (ca : gmap Position string) (g : Grid) :
  shaped nrows ncols g ->
  (forall p d, ca !! p = Some d -> in_range nrows ncols p.1 p.2 = true) ->
  exists g',
    write_back g ca = Ret g' /\ shaped nrows ncols g' /\
    forall p, grid_at g' p.1 p.2
              = match ca !! p with
                | Some d => Ret d
                | None => grid_at g p.1 p.2
                end.
Proof.
  intros Hs Hin. unfold write_back.
  destruct (write_list_spec nrows ncols (map_to_list ca) g Hs) as (g' & Hf & Hs' & Hr).
  - apply NoDup_fst_map_to_list.
  - intros p d Hp%elem_of_map_to_list. by eapply Hin.
  - exists g'. split; [done|]. split; [done|].
    intros p. rewrite Hr. by rewrite list_to_map_to_list.
Qed.

(** ** The domains that [shuffle] draws *)

Section Domains.

Variable G : Type.
Variable ranges_shuffle : list string -> G -> list string * G.

(** [std::ranges::shuffle] rearranges its argument. *)
Hypothesis shuffle_permutes : forall l mt, (ranges_shuffle l mt).1 ≡ₚ l.

Lemma init_domains_lookup (digits : list string) (ps : list Position)
    (pd : gmap Position (list string)) (mt : G) (p : Position) :
  (p ∈ ps /\ (exists l, (init_domains ranges_shuffle digits ps pd mt).1 !! p = Some l /\
                         l ≡ₚ digits)) \/
  ((p ∉ ps) /\ (init_domains ranges_shuffle digits ps pd mt).1 !! p = pd !! p).
Proof.
  revert pd mt. induction ps as [|q ps IH]; intros pd mt; simpl.
  { right. split; [apply not_elem_of_nil|done]. }
  pose proof (shuffle_permutes digits mt) as Hperm.
  destruct (ranges_shuffle digits mt) as [l mt'] eqn:E. simpl in Hperm.
  destruct (IH (<[q := l]> pd) mt') as [[Hp Hl]|[Hp Hl]].
  - left. split; [by right|done].
  - rewrite lookup_insert in Hl. case_decide as Eq.
    + subst. left. split; [by left|]. eauto.
    + right. split; [|done]. rewrite not_elem_of_cons. split; [congruence|done].
Qed.

Lemma init_domains_perm (digits : list string) (ps : list Position) (mt : G)
    (p : Position) :
  p ∈ ps ->
  domain_of (init_domains ranges_shuffle digits ps ∅ mt).1 p ≡ₚ digits.
Proof.
  intros Hp. unfold domain_of.
  destruct (init_domains_lookup digits ps ∅ mt p) as [[_ (l & -> & Hl)]|[Hn _]]; done.
Qed.

Lemma init_domains_equal (s : GridShuffler) (mt : G) :
  equal_domains s
    (init_domains ranges_shuffle (all_digits s) (non_empty_positions s) ∅ mt).1.
Proof.
  intros a b Ha Hb.
  by rewrite (init_domains_perm _ _ mt a Ha), (init_domains_perm _ _ mt b Hb).
Qed.

(** Every candidate is a key of [forbidden_neighbors], and every position
    whose neighbours are looked up has an entry in [neighbors_map]: the
    unchecked accesses [forbidden_neighbors[digit]] and [neighbors_map[pos]]
    of [isValidAssignment] find their key. *)
Lemma init_domains_keys (s : GridShuffler) (mt : G) (p : Position) (d : string) :
  p ∈ non_empty_positions s ->
  d ∈ domain_of
        (init_domains ranges_shuffle (all_digits s) (non_empty_positions s) ∅ mt).1 p ->
  is_Some (forbidden_neighbors s !! d).
Proof.
  intros Hp Hd. rewrite (init_domains_perm _ _ mt p Hp) in Hd.
  unfold all_digits in Hd. apply list_elem_of_fmap in Hd as ([d' S0] & -> & Hd).
  apply elem_of_map_to_list in Hd. eauto.
Qed.

End Domains.

Lemma ctor_neighbors_keys (grid : Grid) (s : GridShuffler) (p : Position) :
  GridShuffler_ctor grid = Ret s ->
  p ∈ non_empty_positions s -> is_Some (neighbors_map s !! p).
Proof.
  intros [_ ->]%ctor_Ret Hp. rewrite neighbors_lookup; [eauto|done].
Qed.

(** ** The engine as a state machine *)

Lemma adjacent_around (p q : Position) : adjacent p q <-> q ∈ around p.
Proof. unfold adjacent. rewrite elem_of_around. lia. Qed.

Lemma built_positions (grid : Grid) (s : GridShuffler) (p : Position) :
  built grid s -> p ∈ non_empty_positions s <-> non_empty_position grid p.
Proof.
  intros (_ & out & -> & _). simpl. unfold non_empty_position.
  by rewrite elem_of_positions, occupied_spec.
Qed.

Lemma ctor_built (grid : Grid) (s : GridShuffler) :
  GridShuffler_ctor grid = Ret s -> built grid s.
Proof.
  intros [Hr ->]%ctor_Ret. split; [done|].
  exists (shuffled_grid (engine_spec grid)). split; [done|]. apply shaped_replicate.
Qed.

#[local] Arguments backtrack : simpl never.

Section Engine.

Variable G : Type.
Variable ranges_shuffle : list string -> G -> list string * G.

Lemma shuffle_false (s s' : GridShuffler) (mt mt' : G) :
  shuffle ranges_shuffle s mt = Ret (false, s', mt') -> s' = s.
Proof.
  unfold shuffle. destruct (init_domains _ _ _ _ _) as [pd mt1].
  destruct (backtrack s pd _ ∅) as [[[] ca]|]; [|by intros [= <- _]|done].
  by destruct (write_back _ _).
Qed.

Lemma shuffle_true (s s' : GridShuffler) (mt mt' : G) :
  shuffle ranges_shuffle s mt = Ret (true, s', mt') ->
  exists ca out,
    backtrack s (drawn ranges_shuffle s mt) (S (length (non_empty_positions s))) ∅ = Some (true, ca) /\
    write_back (shuffled_grid s) ca = Ret out /\
    s' = set_shuffled_grid s out.
Proof.
  unfold shuffle, drawn. destruct (init_domains _ _ _ _ _) as [pd mt1]. cbn [fst].
  destruct (backtrack s pd _ ∅) as [[[] ca]|]; [|done|done].
  destruct (write_back _ _) as [out|] eqn:Ew; [|done].
  intros [= <- _]. by exists ca, out.
Qed.

Lemma shuffle_not_out_of_fuel (s : GridShuffler) (mt : G) :
  shuffle ranges_shuffle s mt <> Stuck OutOfFuel.
Proof.
  unfold shuffle. destruct (init_domains _ _ _ _ _) as [pd mt1].
  destruct (backtrack_total s pd (S (length (non_empty_positions s))) ∅) as [[b ca] ->].
  { pose proof (unassigned_bound s ∅). lia. }
  destruct b; [|done].
  destruct (write_back _ _) as [out|w] eqn:Ew; [done|].
  intros [= ->]. unfold write_back in Ew.
  apply foldM_stuck_inv in Ew as (g1 & [p d] & _ & Hw).
  unfold grid_write in Hw. repeat case_match; congruence.
Qed.

(** What a successful [shuffle] leaves behind on a built engine: an
    assignment covering every non-empty position, copied into the output
    grid. *)
Lemma shuffle_true_built (grid : Grid) (s s' : GridShuffler) (mt mt' : G) :
  built grid s ->
  shuffle ranges_shuffle s mt = Ret (true, s', mt') ->
  exists ca,
    backtrack s (drawn ranges_shuffle s mt) (S (length (non_empty_positions s))) ∅ = Some (true, ca) /\
    placed s (drawn ranges_shuffle s mt) ca /\
    (forall p, p ∈ non_empty_positions s -> is_Some (ca !! p)) /\
    built grid s' /\
    (forall p, grid_at (shuffled_grid s') p.1 p.2
               = match ca !! p with
                 | Some d => Ret d
                 | None => grid_at (shuffled_grid s) p.1 p.2
                 end).
Proof.
  intros Hb (ca & out & Hbt & Hw & ->)%shuffle_true.
  destruct (backtrack_placed _ _ _ _ Hbt) as [Hpl Hsz].
  pose proof Hb as (Hr & out0 & -> & Hsh).
  destruct (write_back_spec _ _ ca out0 Hsh) as (out' & Hw' & Hsh' & Hrd).
  { intros p d Hp. destruct (Hpl p d Hp) as (Hin & _). simpl in Hin.
    by apply elem_of_positions in Hin as [? _]. }
  simpl in Hw. rewrite Hw' in Hw. injection Hw as <-.
  exists ca. split; [done|]. split; [done|]. split.
  { intros p Hp. eapply placed_complete; [|done..]. apply positions_NoDup. }
  split; [|done]. split; [done|]. by exists out'.
Qed.

Lemma reachable_built (grid : Grid) (s : GridShuffler) :
  reachable ranges_shuffle grid s -> built grid s.
Proof.
  induction 1 as [s Hc|s mt b s' mt' _ IH Hs]; [by apply ctor_built|].
  destruct b.
  - by destruct (shuffle_true_built _ _ _ _ _ IH Hs) as (_ & _ & _ & _ & ? & _).
  - by apply shuffle_false in Hs as ->.
Qed.

Lemma unshuffled_ctor_eq (grid : Grid) (s : GridShuffler) :
  unshuffled ranges_shuffle grid s -> GridShuffler_ctor grid = Ret s.
Proof.
  induction 1 as [s Hc|s mt s' mt' _ IH Hs]; [done|].
  by apply shuffle_false in Hs as ->.
Qed.

End Engine.

(** ** The validator on a valid grid *)

Lemma validate_neighbors_false (s : GridShuffler) (d : string) (nbrs : list Position) :
  (forall q, q ∈ nbrs ->
     exists S0 dq, forbidden_neighbors s !! d = Some S0 /\
                   grid_at (shuffled_grid s) q.1 q.2 = Ret dq /\ dq ∉ S0) ->
  validate_neighbors s d nbrs = Ret false.
Proof.
  induction nbrs as [|[qi qj] nbrs IH]; intros Hall; [done|].
  destruct (Hall (qi, qj)) as (S0 & dq & HS & Hq & Hn); [by left|].
  cbn [validate_neighbors]. unfold map_at. rewrite HS. cbn [mbind outcome_bind].
  simpl in Hq. rewrite Hq. cbn [mbind outcome_bind].
  rewrite decide_False by done. apply IH. intros q Hq'. apply Hall. by right.
Qed.

Lemma validate_positions_true (s : GridShuffler) (ps : list Position) :
  (forall p, p ∈ ps -> valid_at s p) -> validate_positions s ps = Ret true.
Proof.
  induction ps as [|p ps IH]; intros Hall; [done|].
  destruct (Hall p) as (d & nbrs & Hd & Hn & Hnb & Hop); [by left|].
  cbn [validate_positions]. rewrite Hd. cbn [mbind outcome_bind].
  unfold map_at. rewrite Hn. cbn [mbind outcome_bind].
  rewrite (validate_neighbors_false s d nbrs Hnb). cbn [mbind outcome_bind].
  assert (validate_positions s ps = Ret true) as Hrest.
  { apply IH. intros q Hq. apply Hall. by right. }
  destruct (original_positions s !! d) as [it|] eqn:Eo; [|done].
  destruct (Hop it eq_refl) as (v & Hv & Hne). rewrite Hv. cbn [mbind outcome_bind].
  apply String.eqb_neq in Hne. by rewrite Hne.
Qed.

(** ** Properties of a successful shuffle *)

Section Shuffled.

Variable G : Type.
Variable ranges_shuffle : list string -> G -> list string * G.
Hypothesis shuffle_permutes : forall l mt, (ranges_shuffle l mt).1 ≡ₚ l.

Variable grid : Grid.
Hypothesis Hdistinct : distinct_labels grid.

Lemma built_conflict_free (s : GridShuffler) (pd : gmap Position (list string))
    (fuel : nat) (ca : gmap Position string) :
  built grid s ->
  backtrack s pd fuel ∅ = Some (true, ca) -> conflict_free s ca.
Proof.
  intros (_ & out & -> & _). apply backtrack_conflict_free.
  - exact (neighbors_of_sym grid).
  - exact (neighbors_of_irrefl grid).
  - exact (forbidden_of_sym grid Hdistinct).
Qed.

(** After a successful shuffle of an engine built from a grid of distinct
    labels, the output grid is valid at every non-empty position. *)
Lemma shuffle_true_valid (s s' : GridShuffler) (mt mt' : G) (p : Position) :
  built grid s ->
  shuffle ranges_shuffle s mt = Ret (true, s', mt') ->
  p ∈ non_empty_positions s' ->
  exists d,
    grid_at (shuffled_grid s') p.1 p.2 = Ret d /\
    d <> cell grid p /\
    valid_at s' p.
Proof.
  intros Hb Hs Hp.
  destruct (shuffle_true_built _ _ _ _ _ _ _ Hb Hs) as (ca & Hbt & Hpl & Hall & Hb' & Hrd).
  pose proof (built_conflict_free _ _ _ _ Hb Hbt) as Hcf.
  pose proof Hb as (_ & out & -> & _). pose proof Hb' as (_ & out' & -> & _).
  simpl in Hp, Hall.
  assert (forall q, q ∈ positions_spec grid (Z.of_nat (length grid)) (first_row_width grid) ->
            exists dq, ca !! q = Some dq /\
                       grid_at out' q.1 q.2 = Ret dq /\
                       is_Some (forbidden_neighbors (engine_spec grid) !! dq) /\
                       original_positions (engine_spec grid) !! dq <> Some q) as Hq.
  { intros q Hq. destruct (Hall q Hq) as [dq Hdq]. exists dq. split; [done|].
    pose proof (Hrd q) as Hr. simpl in Hr. rewrite Hdq in Hr. split; [done|].
    destruct (Hpl q dq Hdq) as (Hin & Hdom & Hop). split; [|done].
    by apply (init_domains_keys G ranges_shuffle shuffle_permutes _ mt q dq). }
  destruct (Hq p Hp) as (d & Hd & Hgd & [S0 HS] & Hop).
  exists d. split; [done|]. split.
  { intros ->. by rewrite (originals_lookup grid Hdistinct p Hp) in Hop. }
  exists d, (neighbors_spec grid (Z.of_nat (length grid)) (first_row_width grid) p).
  split; [done|]. split; [by apply neighbors_lookup|]. split.
  - intros q [Ha Hqn]%elem_of_neighbors_spec.
    destruct (Hq q Hqn) as (dq & Hdq & Hgq & _ & _).
    exists S0, dq. split; [done|]. split; [done|].
    assert (q ∈ neighbors_of (set_shuffled_grid (engine_spec grid) out) p) as Hnb.
    { apply (elem_of_neighbors_of grid). by repeat split. }
    pose proof (Hcf p q d dq Hd Hdq Hnb) as Hn.
    unfold forbidden_of in Hn. simpl in Hn, HS. by rewrite HS in Hn.
  - intros it Hit. simpl in Hit.
    destruct (originals_lookup_Some grid d it Hit) as [Hin _].
    destruct (Hq it Hin) as (v & Hv & Hgv & _ & Hopv).
    exists v. split; [done|]. intros ->. done.
Qed.

End Shuffled.

(** ** The validator before any successful shuffle *)

Lemma grid_at_replicate (nrows ncols i j : Z) (x : string) :
  in_range nrows ncols i j = true ->
  grid_at (replicate (Z.to_nat nrows) (replicate (Z.to_nat ncols) x)) i j = Ret x.
Proof.
  intros [Hi Hj]%in_range_spec. apply grid_at_Ret. repeat split; try lia.
  exists (replicate (Z.to_nat ncols) x). split; apply lookup_replicate_2; lia.
Qed.

Section Initial.

Variable grid : Grid.

Abbreviation R := (Z.of_nat (length grid)).
Abbreviation C := (first_row_width grid).
Abbreviation nep := (positions_spec grid R C).
Abbreviation s0 := (engine_spec grid).

Lemma originals_no_empty_label : original_positions s0 !! EmptyString = None.
Proof.
  destruct (original_positions s0 !! EmptyString) as [p|] eqn:E; [|done].
  apply originals_lookup_Some in E as [[_ Ho%occupied_spec]%elem_of_positions Hc].
  done.
Qed.

Lemma forbidden_no_empty_label : forbidden_neighbors s0 !! EmptyString = None.
Proof.
  destruct (forbidden_neighbors s0 !! EmptyString) as [S0|] eqn:E; [|done].
  exfalso. by apply (forbidden_keys_nonempty grid EmptyString); [eauto|].
Qed.

(** On the all-empty output grid the validator throws at the first
    non-empty position that has a neighbour, and accepts when there is
    none. *)
Lemma validate_initial (ps : list Position) :
  (forall p, p ∈ ps -> p ∈ nep) ->
  validate_positions s0 ps
  = if decide (Exists (fun p => neighbors_spec grid R C p <> []) ps)
    then Stuck OutOfRange else Ret true.
Proof.
  induction ps as [|p ps IH]; intros Hin.
  { rewrite decide_False; [done|]. by intros ?%Exists_nil. }
  assert (p ∈ nep) as Hp by (apply Hin; by left).
  cbn [validate_positions]. cbn [shuffled_grid engine_spec].
  apply elem_of_positions in Hp as Hp'. destruct Hp' as [Hr _].
  rewrite (grid_at_replicate _ _ _ _ _ Hr). cbn [mbind outcome_bind].
  unfold map_at. rewrite (neighbors_lookup grid p Hp). cbn [mbind outcome_bind].
  destruct (neighbors_spec grid R C p) as [|[qi qj] nbrs] eqn:En.
  - cbn [validate_neighbors mbind outcome_bind].
    rewrite originals_no_empty_label. rewrite IH by (intros q Hq; apply Hin; by right).
    destruct (decide (Exists _ ps)) as [He|He].
    + rewrite decide_True; [done|]. by right.
    + rewrite decide_False; [done|]. intros [?|?]%Exists_cons; done.
  - cbn [validate_neighbors]. unfold map_at. rewrite forbidden_no_empty_label.
    cbn [mbind outcome_bind]. rewrite decide_True; [done|]. left. by rewrite En.
Qed.

Lemma has_neighbor_adjacent :
  Exists (fun p => neighbors_spec grid R C p <> []) nep <->
  exists p q, non_empty_position grid p /\ non_empty_position grid q /\ adjacent p q.
Proof.
  rewrite Exists_exists. unfold non_empty_position. split.
  - intros (p & Hp & Hn). destruct (neighbors_spec grid R C p) as [|q l] eqn:E; [done|].
    assert (q ∈ neighbors_spec grid R C p) as Hq by (rewrite E; by left).
    apply elem_of_neighbors_spec in Hq as [Ha Hq].
    exists p, q. rewrite adjacent_around.
    apply elem_of_positions in Hp as [? ?%occupied_spec].
    apply elem_of_positions in Hq as [? ?%occupied_spec]. done.
  - intros (p & q & [Hp1 Hp2%occupied_spec] & [Hq1 Hq2%occupied_spec] & Ha%adjacent_around).
    exists p. split; [by apply elem_of_positions|].
    assert (q ∈ neighbors_spec grid R C p) as Hq.
    { apply elem_of_neighbors_spec. split; [done|]. by apply elem_of_positions. }
    intros E. rewrite E in Hq. by apply elem_of_nil in Hq.
Qed.

End Initial.

(** ** The scripted generator *)

(** The scripted generator rearranges its argument, as [std::ranges::shuffle]
    does. *)
Lemma remove_first_perm (d : string) (l : list string) :
  d ∈ l -> d :: remove_first d l ≡ₚ l.
Proof.
  induction l as [|x l IH]; intros Hd; [by apply elem_of_nil in Hd|]. simpl.
  case_decide as E; [by subst|].
  apply elem_of_cons in Hd as [->|Hd]; [done|].
  rewrite Permutation_swap. by rewrite IH.
Qed.

Lemma scripted_permutes (l : list string) (mt : list string) :
  (scripted l mt).1 ≡ₚ l.
Proof.
  destruct mt as [|d mt]; simpl; [done|]. unfold front.
  case_decide; [by apply remove_first_perm|done].
Qed.

(** ** The properties of the engine *)

Open Scope string_scope.

Section Properties.

Variable G : Type.
Variable ranges_shuffle : list string -> G -> list string * G.
Hypothesis shuffle_permutes : forall l mt, (ranges_shuffle l mt).1 ≡ₚ l.

(** C2, for grids of pairwise distinct labels: after a successful [shuffle]
    every non-empty position of the grid holds, in the output grid, a label
    that differs from the label it holds in the input grid. *)
Theorem shuffle_derangement (grid : Grid) (s s' : GridShuffler) (mt mt' : G)
    (i j : Z) (x : string) :
  distinct_labels grid ->
  reachable ranges_shuffle grid s ->
  shuffle ranges_shuffle s mt = Ret (true, s', mt') ->
  non_empty_position grid (i, j) ->
  grid_at grid i j = Ret x ->
  exists d, grid_at (getShuffledGrid s') i j = Ret d /\ d <> x.
Proof.
  intros Hd Hr%reachable_built Hs Hp Hx.
  assert (built grid s') as Hb'.
  { by destruct (shuffle_true_built _ _ _ _ _ _ _ Hr Hs) as (_ & _ & _ & _ & ? & _). }
  apply (built_positions _ _ _ Hb') in Hp.
  destruct (shuffle_true_valid G ranges_shuffle shuffle_permutes grid Hd
              s s' mt mt' (i, j) Hr Hs Hp) as (d & Hgd & Hne & _).
  exists d. split; [done|]. by rewrite (grid_at_cell _ _ _ _ Hx) in Hne.
Qed.

(** C3, for grids of pairwise distinct labels: after a successful [shuffle],
    for every two orthogonally adjacent non-empty positions [p] and [q], the
    output label at [q] is not in the forbidden set of the output label at
    [p]. *)
Theorem shuffle_adjacency (grid : Grid) (s s' : GridShuffler) (mt mt' : G)
    (p q : Position) :
  distinct_labels grid ->
  reachable ranges_shuffle grid s ->
  shuffle ranges_shuffle s mt = Ret (true, s', mt') ->
  non_empty_position grid p -> non_empty_position grid q -> adjacent p q ->
  exists dp dq S0,
    grid_at (getShuffledGrid s') p.1 p.2 = Ret dp /\
    grid_at (getShuffledGrid s') q.1 q.2 = Ret dq /\
    forbidden_neighbors s' !! dp = Some S0 /\ dq ∉ S0.
Proof.
  intros Hd Hr%reachable_built Hs Hp Hq Ha.
  assert (built grid s') as Hb'.
  { by destruct (shuffle_true_built _ _ _ _ _ _ _ Hr Hs) as (_ & _ & _ & _ & ? & _). }
  apply (built_positions _ _ _ Hb') in Hp. apply (built_positions _ _ _ Hb') in Hq.
  destruct (shuffle_true_valid G ranges_shuffle shuffle_permutes grid Hd
              s s' mt mt' p Hr Hs Hp) as (dp & Hgp & _ & Hv).
  destruct Hv as (dp' & nbrs & Hgp' & Hn & Hnb & _).
  assert (dp' = dp) as -> by congruence.
  assert (q ∈ nbrs) as Hqn.
  { destruct Hb' as (_ & out' & -> & _). simpl in Hp, Hq.
    change (neighbors_map (engine_spec grid) !! p = Some nbrs) in Hn.
    rewrite (neighbors_lookup grid p Hp) in Hn. injection Hn as <-.
    apply elem_of_neighbors_spec. split; [by apply adjacent_around|done]. }
  destruct (Hnb q Hqn) as (S0 & dq & HS & Hgq & Hnot).
  by exists dp, dq, S0.
Qed.

(** C4, for grids of pairwise distinct labels: [validateResult] returns
    [true] on the output grid of every successful [shuffle]. *)
Theorem shuffle_validates (grid : Grid) (s s' : GridShuffler) (mt mt' : G) :
  distinct_labels grid ->
  reachable ranges_shuffle grid s ->
  shuffle ranges_shuffle s mt = Ret (true, s', mt') ->
  validateResult s' = Ret true.
Proof.
  intros Hd Hr%reachable_built Hs. unfold validateResult.
  apply validate_positions_true. intros p Hp.
  by destruct (shuffle_true_valid G ranges_shuffle shuffle_permutes grid Hd
                 s s' mt mt' p Hr Hs Hp) as (d & _ & _ & Hv).
Qed.

(** C5: on the 1x2 grid [["A","B"]] [shuffle] returns [false], whatever
    the generator draws.  A successful search would have to put "B" at
    (0,0) and "A" at (0,1), the only labels that are not at their original
    position, and "A" is forbidden next to "B". *)
Theorem shuffle_two_cells_fails (s : GridShuffler) (mt : G) :
  GridShuffler_ctor two_cells = Ret s ->
  exists mt', shuffle ranges_shuffle s mt = Ret (false, s, mt').
Proof.
  intros Hc. pose proof (ctor_built _ _ Hc) as Hb. apply ctor_Ret in Hc as [_ ->].
  set (s0 := engine_spec two_cells) in *.
  assert (distinct_labels two_cells) as Hdist by (unfold distinct_labels; compute_done).
  destruct (backtrack_total s0 (drawn ranges_shuffle s0 mt)
              (S (length (non_empty_positions s0))) ∅) as [[b ca] Hbt].
  { pose proof (unassigned_bound s0 ∅). lia. }
  unfold shuffle. unfold drawn in Hbt.
  destruct (init_domains ranges_shuffle (all_digits s0) (non_empty_positions s0) ∅ mt)
    as [pd mt1] eqn:Ei.
  cbn [fst] in Hbt. rewrite Hbt. destruct b; [exfalso|by exists mt1].
  assert (pd = drawn ranges_shuffle s0 mt) as -> by (unfold drawn; by rewrite Ei).
  destruct (backtrack_placed _ _ _ _ Hbt) as [Hpl Hsz].
  pose proof (built_conflict_free two_cells Hdist _ _ _ _ Hb Hbt) as Hcf.
  assert (forall p, p ∈ non_empty_positions s0 -> exists d,
            ca !! p = Some d /\ (d = "A" \/ d = "B") /\
            original_positions s0 !! d <> Some p) as Hall.
  { intros p Hp.
    destruct (placed_complete s0 _ ca p (positions_NoDup two_cells) Hpl Hsz Hp) as [d Hd].
    exists d. split; [done|]. destruct (Hpl p d Hd) as (_ & Hdom & Hop). split; [|done].
    unfold drawn in Hdom.
    rewrite (init_domains_perm G ranges_shuffle shuffle_permutes _ _ mt p Hp) in Hdom.
    assert (all_digits s0 = ["A"; "B"]) as Ea by by_evaluation.
    rewrite Ea in Hdom. rewrite !elem_of_cons, elem_of_nil in Hdom. tauto. }
  destruct (Hall (0, 0)) as (d0 & H0 & Hd0 & Ho0); [compute_done|].
  destruct (Hall (0, 1)) as (d1 & H1 & Hd1 & Ho1); [compute_done|].
  assert (d0 = "B") as ->.
  { destruct Hd0 as [-> | ->]; [|done]. exfalso. apply Ho0. by_evaluation. }
  assert (d1 = "A") as ->.
  { destruct Hd1 as [-> | ->]; [done|]. exfalso. apply Ho1. by_evaluation. }
  apply (Hcf (0, 0) (0, 1) "B" "A" H0 H1); compute_done.
Qed.

(** C6: a [shuffle] that returns [false] leaves the stored output grid as it
    was, in every state of the engine; the output grid changes only when
    [shuffle] returns [true]. *)
Theorem shuffle_failure_keeps_output (s s' : GridShuffler) (mt mt' : G) (b : bool) :
  shuffle ranges_shuffle s mt = Ret (b, s', mt') ->
  b = false ->
  getShuffledGrid s' = getShuffledGrid s.
Proof. intros Hs ->. by apply shuffle_false in Hs as ->. Qed.

(** C8: [backtrack] terminates from every partial assignment, in every
    engine state and for all domains.  The number of non-empty positions a
    partial assignment leaves open never exceeds the number of non-empty
    positions, and every recursive call closes one more of them
    ([unassigned_insert_lt]); once the recursion bound exceeds that number,
    [backtrack] returns a result, and the result is the same for every
    larger bound. *)
Theorem backtrack_terminates (s : GridShuffler) (pd : gmap Position (list string))
    (ca : gmap Position string) (fuel : nat) :
  (length (unassigned s ca) < fuel)%nat ->
  (length (unassigned s ca) <= length (non_empty_positions s))%nat /\
  exists b ca',
    backtrack s pd fuel ca = Some (b, ca') /\
    forall fuel', (fuel <= fuel')%nat -> backtrack s pd fuel' ca = Some (b, ca').
Proof.
  intros Hlt. split; [apply unassigned_bound|].
  destruct (backtrack_total s pd fuel ca Hlt) as [[b ca'] Hbt].
  exists b, ca'. split; [done|]. intros fuel' Hle. by eapply backtrack_mono.
Qed.

(** C9: with the domains that [shuffle] draws, the position [backtrack]
    selects for a partial assignment that leaves some non-empty position
    open is the first open non-empty position in row-major order. *)
Theorem selection_first_row_major (grid : Grid) (s : GridShuffler) (mt : G)
    (ca : gmap Position string) :
  reachable ranges_shuffle grid s ->
  (exists p, p ∈ non_empty_positions s /\ ca !! p = None) ->
  exists p0,
    selected s (drawn ranges_shuffle s mt) ca = Some p0 /\
    p0 ∈ non_empty_positions s /\ ca !! p0 = None /\
    forall p, p ∈ non_empty_positions s -> ca !! p = None -> row_major_le p0 p.
Proof.
  intros (_ & out & -> & _)%reachable_built (p & Hp & Hn).
  destruct (head (unassigned (set_shuffled_grid (engine_spec grid) out) ca))
    as [p0|] eqn:Eh.
  - exists p0. split.
    { apply selected_first_open; [|done].
      by apply init_domains_equal. }
    assert (p0 ∈ unassigned (set_shuffled_grid (engine_spec grid) out) ca) as H0.
    { destruct (unassigned _ ca); [done|]. injection Eh as ->. by left. }
    apply list_elem_of_filter in H0 as [H0n H0p]. split; [done|]. split; [done|].
    intros q Hq Hqn. eapply sorted_head_least; [|exact Eh|].
    + apply filter_sorted. apply positions_sorted.
    + by apply list_elem_of_filter.
  - apply head_None in Eh.
    assert (p ∈ unassigned (set_shuffled_grid (engine_spec grid) out) ca) as Hu.
    { by apply list_elem_of_filter. }
    rewrite Eh in Hu. by apply elem_of_nil in Hu.
Qed.

(** C10, as the validator behaves: before any successful [shuffle],
    [validateResult] throws [std::out_of_range] when two non-empty cells of
    the grid are orthogonally adjacent (the empty label it reads from the
    output grid is no key of [forbidden_neighbors]), and returns [true] when
    no two are (the lookup is then never evaluated). *)
Theorem validate_before_shuffle (grid : Grid) (s : GridShuffler) :
  unshuffled ranges_shuffle grid s ->
  ((exists p q, non_empty_position grid p /\ non_empty_position grid q /\ adjacent p q) ->
   validateResult s = Stuck OutOfRange) /\
  (~ (exists p q, non_empty_position grid p /\ non_empty_position grid q /\ adjacent p q) ->
   validateResult s = Ret true).
Proof.
  intros [_ ->]%unshuffled_ctor_eq%ctor_Ret. unfold validateResult.
  rewrite (validate_initial grid) by done. cbn [non_empty_positions engine_spec].
  split; intros Hex; rewrite <- has_neighbor_adjacent in Hex.
  - by rewrite decide_True.
  - by rewrite decide_False.
Qed.

End Properties.

(** C7, as the constructor behaves: for a grid whose rows do not all have the
    same length the constructor raises no error.  When no row is shorter
    than the first one it returns an engine, built over the leading cells of
    each row up to the width of the first; otherwise it reads past the end
    of a row. *)
Theorem ctor_ragged (grid : Grid) :
  ~ rectangular grid ->
  GridShuffler_ctor grid
  = if decide (rows_cover grid) then Ret (engine_spec grid) else Stuck OutOfBounds.
Proof.
  intros _. case_decide as Hc.
  - by apply ctor_readable, readable_rows_cover.
  - destruct (GridShuffler_ctor grid) as [s|w] eqn:E.
    + apply ctor_Ret in E as [Hr%readable_rows_cover _]. done.
    + by apply ctor_stuck in E as [-> _].
Qed.

(** C1 fails on the code: on the grid of the repository's own test
    [AssertNoDuplicates], with domains whose first candidates are "9" for
    the first position and "1" for the others, [shuffle] returns [true] and
    stores a grid holding "1" eight times; its labels are not a
    rearrangement of the labels of the input.  [isValidAssignment] never
    checks whether a label is already assigned to another position. *)
Theorem shuffle_repeats_label :
  GridShuffler_ctor test_grid = Ret (engine_spec test_grid) /\
  shuffle scripted (engine_spec test_grid) test_draws
  = Ret (true, set_shuffled_grid (engine_spec test_grid) test_output, []) /\
  getShuffledGrid (set_shuffled_grid (engine_spec test_grid) test_output)
  = [["9"; "1"; "1"]; ["1"; "1"; "1"]; ["1"; "1"; "1"]] /\
  ~ (concat (getShuffledGrid (set_shuffled_grid (engine_spec test_grid) test_output))
     ≡ₚ concat test_grid).
Proof.
  split; [by_evaluation|]. split; [by_evaluation|]. split; [reflexivity|].
  cbn [getShuffledGrid shuffled_grid set_shuffled_grid].
  intros HP. assert ("2" ∈ concat test_output) as H by (rewrite HP; compute_done).
  revert H. compute_done.
Qed.

(** ** Inputs on which the claims as stated fail *)

(** C2 fails when a label occurs twice: [original_positions] records the
    last occurrence of "A" only, and position (0,0) keeps its label. *)
Lemma derangement_fails_on_repeated_label :
  GridShuffler_ctor spaced_grid = Ret (engine_spec spaced_grid) /\
  shuffle scripted (engine_spec spaced_grid) spaced_draws
  = Ret (true, set_shuffled_grid (engine_spec spaced_grid) spaced_output, []) /\
  non_empty_position spaced_grid (0, 0) /\
  grid_at spaced_grid 0 0 = Ret "A" /\
  grid_at (getShuffledGrid (set_shuffled_grid (engine_spec spaced_grid) spaced_output)) 0 0
  = Ret "A" /\
  ~ (exists d,
       grid_at (getShuffledGrid (set_shuffled_grid (engine_spec spaced_grid) spaced_output))
         0 0 = Ret d /\ d <> "A").
Proof.
  split; [by_evaluation|]. split; [by_evaluation|].
  split; [split; [reflexivity|vm_compute; discriminate]|].
  split; [reflexivity|]. split; [reflexivity|].
  intros (d & Hd & Hne). vm_compute in Hd. congruence.
Qed.

(** C3 fails when a label occurs twice: the second occurrence of "A" resets
    its forbidden set, and "B" and "A" end up side by side although "A" is
    forbidden for "B". *)
Lemma adjacency_fails_on_repeated_label :
  GridShuffler_ctor paired_grid = Ret (engine_spec paired_grid) /\
  shuffle scripted (engine_spec paired_grid) paired_draws
  = Ret (true, set_shuffled_grid (engine_spec paired_grid) paired_output, []) /\
  non_empty_position paired_grid (0, 0) /\
  non_empty_position paired_grid (0, 1) /\
  adjacent (0, 0) (0, 1) /\
  grid_at paired_output 0 0 = Ret "B" /\
  grid_at paired_output 0 1 = Ret "A" /\
  forbidden_neighbors (set_shuffled_grid (engine_spec paired_grid) paired_output) !! "B"
  = Some {["A"]} /\
  ~ (exists dp dq S0,
       grid_at (getShuffledGrid (set_shuffled_grid (engine_spec paired_grid) paired_output))
         0 0 = Ret dp /\
       grid_at (getShuffledGrid (set_shuffled_grid (engine_spec paired_grid) paired_output))
         0 1 = Ret dq /\
       forbidden_neighbors (set_shuffled_grid (engine_spec paired_grid) paired_output) !! dp
       = Some S0 /\
       dq ∉ S0).
Proof.
  assert (forbidden_neighbors (set_shuffled_grid (engine_spec paired_grid) paired_output)
            !! "B" = Some {["A"]}) as HB by by_evaluation.
  split; [by_evaluation|]. split; [by_evaluation|].
  split; [split; [reflexivity|vm_compute; discriminate]|].
  split; [split; [reflexivity|vm_compute; discriminate]|].
  split; [reflexivity|]. split; [reflexivity|]. split; [reflexivity|].
  split; [exact HB|].
  intros (dp & dq & S0 & Hp & Hq & HS & Hn).
  assert (dp = "B") as -> by (vm_compute in Hp; congruence).
  assert (dq = "A") as -> by (vm_compute in Hq; congruence).
  rewrite HB in HS. injection HS as <-. apply Hn. by apply elem_of_singleton.
Qed.

(** C4 fails when a label occurs twice: the validator rejects the grid
    [shuffle] has just stored. *)
Lemma validator_rejects_on_repeated_label :
  GridShuffler_ctor paired_grid = Ret (engine_spec paired_grid) /\
  shuffle scripted (engine_spec paired_grid) paired_draws
  = Ret (true, set_shuffled_grid (engine_spec paired_grid) paired_output, []) /\
  validateResult (set_shuffled_grid (engine_spec paired_grid) paired_output) = Ret false.
Proof.
  split; [by_evaluation|]. split; by_evaluation.
Qed.

(** C7 fails: the constructor returns an engine for a grid whose rows have
    different lengths; the cell "C" is not among its positions. *)
Lemma ctor_accepts_ragged :
  ~ rectangular ragged_grid /\
  GridShuffler_ctor ragged_grid = Ret (engine_spec ragged_grid) /\
  non_empty_positions (engine_spec ragged_grid) = [(0, 0); (1, 0)].
Proof.
  split; [unfold rectangular; compute_done|].
  split; by_evaluation.
Qed.

(** C10 fails: on a single non-empty cell the validator returns [true]
    before any shuffle. *)
Lemma validate_single_cell :
  GridShuffler_ctor single_cell = Ret (engine_spec single_cell) /\
  non_empty_position single_cell (0, 0) /\
  validateResult (engine_spec single_cell) = Ret true.
Proof.
  split; [by_evaluation|].
  split; [split; [reflexivity|vm_compute; discriminate]|].
  by_evaluation.
Qed.

(** ** The theorems at concrete inputs *)

(** The derangement property on the row of four labels: position (0,0)
    held "A" and holds another label after the shuffle. *)
Lemma shuffle_derangement_witness :
  distinct_labels line_grid /\
  GridShuffler_ctor line_grid = Ret (engine_spec line_grid) /\
  shuffle scripted (engine_spec line_grid) line_draws
  = Ret (true, set_shuffled_grid (engine_spec line_grid) line_output, []) /\
  non_empty_position line_grid (0, 0) /\
  grid_at line_grid 0 0 = Ret "A" /\
  exists d,
    grid_at (getShuffledGrid (set_shuffled_grid (engine_spec line_grid) line_output)) 0 0
    = Ret d /\ d <> "A".
Proof.
  assert (distinct_labels line_grid) as H1 by (unfold distinct_labels; compute_done).
  assert (GridShuffler_ctor line_grid = Ret (engine_spec line_grid)) as H2
    by by_evaluation.
  assert (shuffle scripted (engine_spec line_grid) line_draws
          = Ret (true, set_shuffled_grid (engine_spec line_grid) line_output, [])) as H3
    by by_evaluation.
  assert (non_empty_position line_grid (0, 0)) as H4
    by (split; [reflexivity|vm_compute; discriminate]).
  assert (grid_at line_grid 0 0 = Ret "A") as H5 by reflexivity.
  split; [exact H1|]. split; [exact H2|]. split; [exact H3|].
  split; [exact H4|]. split; [exact H5|].
  exact (shuffle_derangement (list string) scripted scripted_permutes line_grid
           (engine_spec line_grid) _ line_draws [] 0 0 "A" H1
           (reachable_ctor _ _ _ H2) H3 H4 H5).
Defined.

(** The adjacency property on the row of four labels, at the positions
    (0,0) and (0,1). *)
Lemma shuffle_adjacency_witness :
  distinct_labels line_grid /\
  GridShuffler_ctor line_grid = Ret (engine_spec line_grid) /\
  shuffle scripted (engine_spec line_grid) line_draws
  = Ret (true, set_shuffled_grid (engine_spec line_grid) line_output, []) /\
  non_empty_position line_grid (0, 0) /\
  non_empty_position line_grid (0, 1) /\
  adjacent (0, 0) (0, 1) /\
  exists dp dq S0,
    grid_at (getShuffledGrid (set_shuffled_grid (engine_spec line_grid) line_output)) 0 0
    = Ret dp /\
    grid_at (getShuffledGrid (set_shuffled_grid (engine_spec line_grid) line_output)) 0 1
    = Ret dq /\
    forbidden_neighbors (set_shuffled_grid (engine_spec line_grid) line_output) !! dp
    = Some S0 /\
    dq ∉ S0.
Proof.
  assert (distinct_labels line_grid) as H1 by (unfold distinct_labels; compute_done).
  assert (GridShuffler_ctor line_grid = Ret (engine_spec line_grid)) as H2
    by by_evaluation.
  assert (shuffle scripted (engine_spec line_grid) line_draws
          = Ret (true, set_shuffled_grid (engine_spec line_grid) line_output, [])) as H3
    by by_evaluation.
  assert (non_empty_position line_grid (0, 0)) as H4
    by (split; [reflexivity|vm_compute; discriminate]).
  assert (non_empty_position line_grid (0, 1)) as H5
    by (split; [reflexivity|vm_compute; discriminate]).
  assert (adjacent (0, 0) (0, 1)) as H6 by reflexivity.
  split; [exact H1|]. split; [exact H2|]. split; [exact H3|].
  split; [exact H4|]. split; [exact H5|]. split; [exact H6|].
  exact (shuffle_adjacency (list string) scripted scripted_permutes line_grid
           (engine_spec line_grid) _ line_draws [] (0, 0) (0, 1) H1
           (reachable_ctor _ _ _ H2) H3 H4 H5 H6).
Defined.

(** The agreement of the validator on the row of four labels. *)
Lemma shuffle_validates_witness :
  distinct_labels line_grid /\
  GridShuffler_ctor line_grid = Ret (engine_spec line_grid) /\
  shuffle scripted (engine_spec line_grid) line_draws
  = Ret (true, set_shuffled_grid (engine_spec line_grid) line_output, []) /\
  validateResult (set_shuffled_grid (engine_spec line_grid) line_output) = Ret true.
Proof.
  assert (distinct_labels line_grid) as H1 by (unfold distinct_labels; compute_done).
  assert (GridShuffler_ctor line_grid = Ret (engine_spec line_grid)) as H2
    by by_evaluation.
  assert (shuffle scripted (engine_spec line_grid) line_draws
          = Ret (true, set_shuffled_grid (engine_spec line_grid) line_output, [])) as H3
    by by_evaluation.
  split; [exact H1|]. split; [exact H2|]. split; [exact H3|].
  exact (shuffle_validates (list string) scripted scripted_permutes line_grid
           (engine_spec line_grid) _ line_draws [] H1 (reachable_ctor _ _ _ H2) H3).
Defined.

(** The infeasibility scenario with the scripted generator. *)
Lemma shuffle_two_cells_fails_witness :
  GridShuffler_ctor two_cells = Ret (engine_spec two_cells) /\
  exists mt', shuffle scripted (engine_spec two_cells) ["B"; "A"]
              = Ret (false, engine_spec two_cells, mt').
Proof.
  assert (GridShuffler_ctor two_cells = Ret (engine_spec two_cells)) as H1
    by by_evaluation.
  split; [exact H1|].
  exact (shuffle_two_cells_fails (list string) scripted scripted_permutes
           (engine_spec two_cells) ["B"; "A"] H1).
Defined.

(** The output grid across the failing shuffle of the two-cell grid. *)
Lemma shuffle_failure_keeps_output_witness :
  shuffle scripted (engine_spec two_cells) ["B"; "A"]
  = Ret (false, engine_spec two_cells, []) /\
  getShuffledGrid (engine_spec two_cells) = getShuffledGrid (engine_spec two_cells).
Proof.
  assert (shuffle scripted (engine_spec two_cells) ["B"; "A"]
          = Ret (false, engine_spec two_cells, [])) as H1 by by_evaluation.
  split; [exact H1|].
  exact (shuffle_failure_keeps_output (list string) scripted
           (engine_spec two_cells) (engine_spec two_cells) ["B"; "A"] [] false
           H1 eq_refl).
Defined.

(** The constructor on the grid whose second row is longer than the
    first. *)
Lemma ctor_ragged_witness :
  ~ rectangular ragged_grid /\
  GridShuffler_ctor ragged_grid
  = if decide (rows_cover ragged_grid)
    then Ret (engine_spec ragged_grid) else Stuck OutOfBounds.
Proof.
  assert (~ rectangular ragged_grid) as H1 by (unfold rectangular; compute_done).
  split; [exact H1|]. exact (ctor_ragged ragged_grid H1).
Defined.

(** Termination on the two-cell grid, from the empty assignment and with
    empty domains. *)
Lemma backtrack_terminates_witness :
  (length (unassigned (engine_spec two_cells) ∅) < 3)%nat /\
  (length (unassigned (engine_spec two_cells) ∅)
   <= length (non_empty_positions (engine_spec two_cells)))%nat /\
  exists b ca',
    backtrack (engine_spec two_cells) ∅ 3 ∅ = Some (b, ca') /\
    forall fuel', (3 <= fuel')%nat ->
      backtrack (engine_spec two_cells) ∅ fuel' ∅ = Some (b, ca').
Proof.
  assert (length (unassigned (engine_spec two_cells) ∅) < 3)%nat as H1
    by (vm_compute; lia).
  split; [exact H1|].
  exact (backtrack_terminates (engine_spec two_cells) ∅ ∅ 3 H1).
Defined.

(** The selected position on the row of four labels, for the empty
    assignment. *)
Lemma selection_first_row_major_witness :
  GridShuffler_ctor line_grid = Ret (engine_spec line_grid) /\
  (exists p, p ∈ non_empty_positions (engine_spec line_grid) /\
             (∅ : gmap Position string) !! p = None) /\
  exists p0,
    selected (engine_spec line_grid)
      (drawn scripted (engine_spec line_grid) line_draws) ∅ = Some p0 /\
    p0 ∈ non_empty_positions (engine_spec line_grid) /\
    (∅ : gmap Position string) !! p0 = None /\
    forall p, p ∈ non_empty_positions (engine_spec line_grid) ->
              (∅ : gmap Position string) !! p = None -> row_major_le p0 p.
Proof.
  assert (GridShuffler_ctor line_grid = Ret (engine_spec line_grid)) as H1
    by by_evaluation.
  assert (exists p, p ∈ non_empty_positions (engine_spec line_grid) /\
                    (∅ : gmap Position string) !! p = None) as H2.
  { exists (0, 0). split; [compute_done|reflexivity]. }
  split; [exact H1|]. split; [exact H2|].
  exact (selection_first_row_major (list string) scripted scripted_permutes line_grid
           (engine_spec line_grid) line_draws ∅ (reachable_ctor _ _ _ H1) H2).
Defined.

(** The validator before any shuffle on the two-cell grid, whose two cells
    are adjacent. *)
Lemma validate_before_shuffle_witness :
  GridShuffler_ctor two_cells = Ret (engine_spec two_cells) /\
  (exists p q, non_empty_position two_cells p /\ non_empty_position two_cells q /\
               adjacent p q) /\
  validateResult (engine_spec two_cells) = Stuck OutOfRange.
Proof.
  assert (GridShuffler_ctor two_cells = Ret (engine_spec two_cells)) as H1
    by by_evaluation.
  assert (exists p q, non_empty_position two_cells p /\ non_empty_position two_cells q /\
                      adjacent p q) as H2.
  { exists (0, 0), (0, 1).
    split; [split; [reflexivity|vm_compute; discriminate]|].
    split; [split; [reflexivity|vm_compute; discriminate]|]. reflexivity. }
  split; [exact H1|]. split; [exact H2|].
  exact (proj1 (validate_before_shuffle (list string) scripted two_cells
                  (engine_spec two_cells) (unshuffled_ctor _ _ _ H1)) H2).
Defined.

(** * Further properties of the code *)

(** ** Selection by minimum remaining values *)

Section Selection.

Variable ca : gmap Position string.
Variable pd : gmap Position (list string).

Lemma mrv_pick_step (pre : list Position) (i : nat) (sm y : Position) :
  mrv_pick ca pd pre i sm ->
  mrv_pick ca pd (pre ++ [y])
    (if mrv_less ca pd y sm then length pre else i)
    (if mrv_less ca pd y sm then y else sm).
Proof.
  intros (Hi & Hopen & Hmin). unfold mrv_less. fold (domain_of pd y) (domain_of pd sm).
  destruct (contains ca y) eqn:Ey; simpl.
  - (* [y] is assigned: nothing changes *)
    apply contains_true in Ey. split; [by apply lookup_app_l_Some|]. split.
    + intros p [Hp|Hp%list_elem_of_singleton]%elem_of_app Ho; [by eapply Hopen|].
      by subst.
    + intros j p [Hj|[_ Hj]]%lookup_app_Some Ho; [by apply Hmin|].
      apply list_lookup_singleton_Some in Hj as [_ <-]. done.
  - apply contains_false in Ey.
    destruct (contains ca sm) eqn:Es; simpl.
    + (* the pick so far is assigned, so nothing before [y] is open *)
      apply contains_true in Es. split.
      { rewrite lookup_app_r by done. by rewrite Nat.sub_diag. }
      split; [done|].
      intros j p [Hj|[Hlen Hj]]%lookup_app_Some Ho.
      * exfalso. apply Es. eapply Hopen; [|done]. by eapply list_elem_of_lookup_2.
      * apply list_lookup_singleton_Some in Hj as [Hj <-]. split; [done|]. lia.
    + apply contains_false in Es. case_bool_decide as Hlt.
      * split.
        { rewrite lookup_app_r by done. by rewrite Nat.sub_diag. }
        split; [done|].
        intros j p [Hj|[Hlen Hj]]%lookup_app_Some Ho.
        -- destruct (Hmin j p Hj Ho) as [Hle _]. split; [lia|]. intros _. lia.
        -- apply list_lookup_singleton_Some in Hj as [Hj <-]. split; [done|]. lia.
      * split; [by apply lookup_app_l_Some|]. split; [done|].
        intros j p [Hj|[Hlen Hj]]%lookup_app_Some Ho; [by apply Hmin|].
        apply list_lookup_singleton_Some in Hj as [Hj <-]. split; [lia|].
        intros Hji. apply lookup_lt_Some in Hi. lia.
Qed.

Lemma min_element_from_mrv (rest pre : list Position) (i : nat) (sm : Position) :
  mrv_pick ca pd pre i sm ->
  exists i', mrv_pick ca pd (pre ++ rest) i' (min_element_from (mrv_less ca pd) sm rest).
Proof.
  revert pre i sm. induction rest as [|y rest IH]; intros pre i sm Hp.
  { exists i. by rewrite app_nil_r. }
  cbn [min_element_from].
  destruct (IH _ _ _ (mrv_pick_step pre i sm y Hp)) as [i' Hi'].
  exists i'. by rewrite <- app_assoc in Hi'.
Qed.

Lemma min_element_mrv (l : list Position) (m : Position) :
  min_element (mrv_less ca pd) l = Some m -> exists i, mrv_pick ca pd l i m.
Proof.
  destruct l as [|x rest]; [done|]. intros [= <-].
  destruct (min_element_from_mrv rest [x] 0 x) as [i Hi]; [|by exists i].
  split; [done|]. split.
  - by intros p ->%list_elem_of_singleton.
  - intros j p [-> <-]%list_lookup_singleton_Some _. split; [done|lia].
Qed.

End Selection.

(** Whenever a non-empty position is open, the selected position is open. *)
Lemma selected_open (s : GridShuffler) (pd : gmap Position (list string))
    (ca : gmap Position string) (p : Position) :
  p ∈ non_empty_positions s -> ca !! p = None ->
  exists p0, selected s pd ca = Some p0 /\
             p0 ∈ non_empty_positions s /\ ca !! p0 = None.
Proof.
  intros Hp Ho. unfold selected.
  destruct (min_element (mrv_less ca pd) (non_empty_positions s)) as [p0|] eqn:Em.
  - destruct (min_element_mrv ca pd _ _ Em) as (i & Hi & Hopen & _).
    exists p0. split; [done|]. split; [by eapply list_elem_of_lookup_2|].
    by eapply Hopen.
  - destruct (non_empty_positions s); [by apply elem_of_nil in Hp|done].
Qed.

(** A partial assignment on the non-empty positions that has not one entry
    per position leaves a position open. *)
Lemma open_position (s : GridShuffler) (ca : gmap Position string) :
  NoDup (non_empty_positions s) ->
  (forall p, is_Some (ca !! p) -> p ∈ non_empty_positions s) ->
  size ca <> length (non_empty_positions s) ->
  exists p, p ∈ non_empty_positions s /\ ca !! p = None.
Proof.
  intros Hnd Hkeys Hsz.
  destruct (decide (Forall (fun p => is_Some (ca !! p)) (non_empty_positions s)))
    as [Hall|Hex].
  - exfalso. apply Hsz. rewrite <- size_dom, <- (size_list_to_set (C := gset Position)) by done.
    f_equal. apply set_eq. intros p. rewrite elem_of_dom, elem_of_list_to_set.
    split; [apply Hkeys|]. intros Hp. by eapply Forall_forall in Hall.
  - apply not_Forall_Exists in Hex; [|apply _].
    apply Exists_exists in Hex as (p & Hp & Hn).
    exists p. split; [done|]. by apply eq_None_not_Some.
Qed.

(** ** Exhaustiveness of the search *)

Lemma backtrack_unfold (s : GridShuffler) (pd : gmap Position (list string))
    (fuel : nat) (ca : gmap Position string) :
  backtrack s pd (S fuel) ca
  = if decide (size ca = length (non_empty_positions s)) then Some (true, ca)
    else
      match selected s pd ca with
      | None => Some (false, ca)
      | Some pos =>
          if contains ca pos then Some (false, ca)
          else try_digits (backtrack s pd fuel) s pos (default [] (pd !! pos)) ca
      end.
Proof. reflexivity. Qed.

Section Complete.

Variable s : GridShuffler.
Variable pd : gmap Position (list string).
Variable sol : gmap Position string.

Hypothesis Hnodup : NoDup (non_empty_positions s).
Hypothesis Htotal : forall p, p ∈ non_empty_positions s -> is_Some (sol !! p).
Hypothesis Hplaced : placed s pd sol.
Hypothesis Hfree : conflict_free s sol.

Lemma solution_valid (ca : gmap Position string) (pos : Position) (d : string) :
  ca ⊆ sol -> sol !! pos = Some d ->
  isValidAssignment s pos d ca = true.
Proof.
  intros Hsub Hd. apply isValidAssignment_true. split.
  - intros n dn Hn Hl. eapply (Hfree pos n d dn); [done| |done].
    by eapply lookup_weaken.
  - by destruct (Hplaced pos d Hd) as (_ & _ & ?).
Qed.

Lemma try_digits_complete
    (rec : gmap Position string -> option (bool * gmap Position string))
    (pos : Position) (d : string) (digits : list string) (ca : gmap Position string) :
  (forall c c', rec c = Some (false, c') -> c' = c) ->
  (forall d0, is_Some (rec (<[pos := d0]> ca))) ->
  (exists c', rec (<[pos := d]> ca) = Some (true, c')) ->
  ca !! pos = None ->
  isValidAssignment s pos d ca = true ->
  d ∈ digits ->
  exists c', try_digits rec s pos digits ca = Some (true, c').
Proof.
  intros Hfalse Htot [c1 Hd] Hnone Hv.
  induction digits as [|d0 digits IH]; intros Hin; [by apply elem_of_nil in Hin|].
  cbn [try_digits]. destruct (isValidAssignment s pos d0 ca) eqn:Ev.
  - destruct (Htot d0) as [[[] c] Er]; rewrite Er; [eauto|].
    pose proof (Hfalse _ _ Er) as ->. rewrite delete_insert_id by done.
    apply IH. apply elem_of_cons in Hin as [->|Hin]; [congruence|done].
  - apply IH. apply elem_of_cons in Hin as [->|Hin]; [congruence|done].
Qed.

Lemma backtrack_complete (fuel : nat) (ca : gmap Position string) :
  ca ⊆ sol ->
  (length (unassigned s ca) < fuel)%nat ->
  exists ca', backtrack s pd fuel ca = Some (true, ca').
Proof.
  revert ca. induction fuel as [|fuel IH]; intros ca Hsub Hlt; [lia|].
  rewrite backtrack_unfold. case_decide as Hsz; [eauto|].
  destruct (open_position s ca Hnodup) as (p & Hp & Ho); [|done|].
  { intros q [d Hq]. eapply lookup_weaken in Hq; [|done].
    by destruct (Hplaced q d Hq). }
  destruct (selected_open s pd ca p Hp Ho) as (pos & -> & Hpos & Hnone).
  rewrite (proj2 (contains_false ca pos) Hnone).
  destruct (Htotal pos Hpos) as [d Hd].
  assert (forall d0, (length (unassigned s (<[pos := d0]> ca)) < fuel)%nat) as Hless.
  { intros d0. pose proof (unassigned_insert_lt s ca pos d0 Hpos Hnone). lia. }
  apply (try_digits_complete _ pos d).
  - intros c c'. apply backtrack_false.
  - intros d0. by apply backtrack_total.
  - apply IH; [|done]. by apply insert_subseteq_l.
  - done.
  - by apply solution_valid.
  - by destruct (Hplaced pos d Hd) as (_ & ? & _).
Qed.

End Complete.

(** ** The last insertion wins *)

Section InsertLast.

Context `{Countable K} {V A : Type}.
Variable key : A -> K.
Variable val : A -> V.

Lemma insert_all_app (m : gmap K V) (l1 l2 : list A) :
  insert_all key val m (l1 ++ l2)%list = insert_all key val (insert_all key val m l1) l2.
Proof. unfold insert_all. apply foldl_app. Qed.

Lemma lookup_insert_all_last (m : gmap K V) (l1 l2 : list A) (x : A) :
  (forall y, y ∈ l2 -> key y <> key x) ->
  insert_all key val m (l1 ++ x :: l2)%list !! key x = Some (val x).
Proof.
  intros Hl2. rewrite insert_all_app.
  change (insert_all key val (insert_all key val m l1) (x :: l2))
    with (insert_all key val (<[key x := val x]> (insert_all key val m l1)) l2).
  rewrite lookup_insert_all_None by done. apply lookup_insert_eq.
Qed.

(** The last element of a list that has a given key. *)
Lemma last_with_key (l : list A) (k : K) :
  (exists y, y ∈ l /\ key y = k) ->
  exists l1 x l2, l = (l1 ++ x :: l2)%list /\ key x = k /\ forall y, y ∈ l2 -> key y <> k.
Proof.
  induction l as [|z l IH]; intros (y & Hy & Hk); [by apply elem_of_nil in Hy|].
  destruct (decide (Exists (fun y' => key y' = k) l)) as [He|He].
  - apply Exists_exists in He as (y' & Hy' & Hk').
    destruct IH as (l1 & x & l2 & -> & Hx & Hl2); [eauto|].
    by exists (z :: l1), x, l2.
  - assert (forall y', y' ∈ l -> key y' <> k) as Hnone.
    { intros y' Hy' Hk'. apply He. apply Exists_exists. eauto. }
    apply elem_of_cons in Hy as [->|Hy]; [|by apply Hnone in Hy].
    by exists [], z, l.
Qed.

End InsertLast.

(** ** The indices the constructor builds *)

Lemma around_length (p : Position) : length (around p) = 4%nat.
Proof. reflexivity. Qed.

Lemma sorted_app_le (l1 l2 : list Position) (x q : Position) :
  StronglySorted row_major_lt (l1 ++ x :: l2)%list ->
  q ∈ (l1 ++ [x])%list -> row_major_le q x.
Proof.
  intros Hs [Hq|Hq%list_elem_of_singleton]%elem_of_app; [right|by left].
  eapply (StronglySorted_app_1_elem_of _ l1 (x :: l2)); [done..|by left].
Qed.

Lemma row_major_le_antisym (p q : Position) :
  row_major_le p q -> row_major_le q p -> p = q.
Proof.
  unfold row_major_le, row_major_lt. destruct p as [pi pj], q as [qi qj]. simpl.
  intros [?|?] [?|?]; try done; try (f_equal; lia).
Qed.

Section MoreIndices.

Variable grid : Grid.

Abbreviation R := (Z.of_nat (length grid)).
Abbreviation C := (first_row_width grid).
Abbreviation nep := (positions_spec grid R C).
Abbreviation s0 := (engine_spec grid).

Lemma positions_non_empty (p : Position) :
  p ∈ nep <-> non_empty_position grid p.
Proof. unfold non_empty_position. by rewrite elem_of_positions, occupied_spec. Qed.

(** [original_positions] maps a label to the last position, in row-major
    order, that holds it. *)
Lemma originals_last (d : string) (p : Position) :
  original_positions s0 !! d = Some p <->
  p ∈ nep /\ cell grid p = d /\
  forall q, q ∈ nep -> cell grid q = d -> row_major_le q p.
Proof.
  assert (forall p', p' ∈ nep -> cell grid p' = d ->
            exists x, original_positions s0 !! d = Some x /\ x ∈ nep /\
                      cell grid x = d /\
                      forall q, q ∈ nep -> cell grid q = d -> row_major_le q x) as Hlast.
  { intros p' Hp' Hc.
    destruct (last_with_key (cell grid) nep d) as (l1 & x & l2 & El & Hx & Hl2); [eauto|].
    exists x. split.
    { cbn [original_positions engine_spec]. rewrite El, <- Hx.
      apply (lookup_insert_all_last (cell grid) id). intros y Hy. rewrite Hx. by apply Hl2. }
    assert (x ∈ nep) as Hxin by (rewrite El; set_solver).
    split; [done|]. split; [done|]. intros q Hq Hcq.
    pose proof (positions_sorted grid) as Hs. rewrite El in Hs, Hq.
    apply (sorted_app_le l1 l2); [done|].
    rewrite cons_middle, (assoc_L (++) l1 [x] l2) in Hq.
    apply elem_of_app in Hq as [Hq|Hq]; [done|]. by apply Hl2 in Hq. }
  split.
  - intros Hop. destruct (originals_lookup_Some grid d p Hop) as [Hp Hc].
    destruct (Hlast p Hp Hc) as (x & Hx & _ & _ & Hle).
    assert (x = p) as -> by congruence. done.
  - intros (Hp & Hc & Hle).
    destruct (Hlast p Hp Hc) as (x & Hx & Hxin & Hcx & Hlex).
    rewrite Hx. f_equal. apply row_major_le_antisym; [by apply Hle|by apply Hlex].
Qed.

(** The candidates are the labels of the non-empty positions. *)
Lemma elem_of_all_digits (d : string) :
  d ∈ all_digits s0 <-> d <> EmptyString /\ exists p, p ∈ nep /\ cell grid p = d.
Proof.
  unfold all_digits. rewrite list_elem_of_fmap. split.
  - intros ([d' S0] & -> & Hd%elem_of_map_to_list). simpl.
    assert (is_Some (forbidden_neighbors s0 !! d')) as Hk by eauto.
    split; [by eapply forbidden_keys_nonempty|]. by apply forbidden_keys.
  - intros (_ & Hp). destruct (proj2 (forbidden_keys grid d) Hp) as [S0 HS].
    exists (d, S0). split; [done|]. by apply elem_of_map_to_list.
Qed.

End MoreIndices.

(** X1: on a grid whose rows all have the length of the first, the
    constructor returns an engine that keeps the grid and its dimensions and
    whose output grid has these dimensions and holds the empty label in
    every cell. *)
Theorem ctor_rectangular (grid : Grid) :
  rectangular grid ->
  exists s,
    GridShuffler_ctor grid = Ret s /\
    original_grid s = grid /\
    rows s = Z.of_nat (length grid) /\
    cols s = first_row_width grid /\
    shaped (rows s) (cols s) (getShuffledGrid s) /\
    forall i j, in_range (rows s) (cols s) i j = true ->
                grid_at (getShuffledGrid s) i j = Ret EmptyString.
Proof.
  intros Hrect. exists (engine_spec grid). split.
  { apply ctor_readable, readable_rows_cover. unfold rows_cover.
    eapply Forall_impl; [exact Hrect|]. simpl. intros row ->. done. }
  split; [done|]. split; [done|]. split; [done|].
  split; [apply shaped_replicate|]. intros i j Hin. by apply grid_at_replicate.
Qed.

(** X2: [non_empty_positions] of a constructed engine lists exactly the
    positions within the dimensions whose cell is not empty, in strictly
    increasing row-major order. *)
Theorem ctor_positions (grid : Grid) (s : GridShuffler) :
  GridShuffler_ctor grid = Ret s ->
  (forall p, p ∈ non_empty_positions s <-> non_empty_position grid p) /\
  StronglySorted row_major_lt (non_empty_positions s).
Proof.
  intros [_ ->]%ctor_Ret. split.
  - intros p. apply positions_non_empty.
  - apply positions_sorted.
Qed.

(** X3: [neighbors_map] of a constructed engine has an entry for every
    non-empty position and for no other; the entry of [p] lists, at most
    four, exactly the non-empty positions orthogonally adjacent to [p]. *)
Theorem ctor_neighbors (grid : Grid) (s : GridShuffler) (p : Position) :
  GridShuffler_ctor grid = Ret s ->
  (non_empty_position grid p ->
   exists l, neighbors_map s !! p = Some l /\ (length l <= 4)%nat /\
             forall q, q ∈ l <-> non_empty_position grid q /\ adjacent p q) /\
  (~ non_empty_position grid p -> neighbors_map s !! p = None).
Proof.
  intros [_ ->]%ctor_Ret. split.
  - intros Hp%positions_non_empty.
    exists (neighbors_spec grid (Z.of_nat (length grid)) (first_row_width grid) p).
    split; [by apply neighbors_lookup|]. split.
    + unfold neighbors_spec. etrans; [apply length_filter|]. by rewrite around_length.
    + intros q. rewrite elem_of_neighbors_spec, positions_non_empty, adjacent_around. tauto.
  - intros Hp. apply neighbors_lookup_None. by rewrite positions_non_empty.
Qed.

(** X4: the candidate list of a constructed engine, the keys of
    [forbidden_neighbors], holds every label of a non-empty position once,
    and nothing else; the empty label is no candidate. *)
Theorem ctor_candidates (grid : Grid) (s : GridShuffler) :
  GridShuffler_ctor grid = Ret s ->
  NoDup (all_digits s) /\
  forall d, d ∈ all_digits s <->
            d <> EmptyString /\ exists p, non_empty_position grid p /\ cell grid p = d.
Proof.
  intros [_ ->]%ctor_Ret. split; [apply NoDup_fst_map_to_list|].
  intros d. rewrite elem_of_all_digits. split.
  - intros (Hd & p & Hp & Hc). split; [done|]. exists p. by rewrite <- positions_non_empty.
  - intros (Hd & p & Hp & Hc). split; [done|]. exists p. by rewrite positions_non_empty.
Qed.

(** X5: when the non-empty labels of the grid are pairwise distinct, label
    [b] is forbidden for label [a] exactly when [a] and [b] are the labels
    of two orthogonally adjacent non-empty positions; the relation is
    symmetric, and no label is forbidden for itself. *)
Theorem ctor_forbidden_pairs (grid : Grid) (s : GridShuffler) (a b : string) :
  distinct_labels grid ->
  GridShuffler_ctor grid = Ret s ->
  (b ∈ forbidden_of s a <->
   exists p q, non_empty_position grid p /\ non_empty_position grid q /\
               adjacent p q /\ cell grid p = a /\ cell grid q = b) /\
  (b ∈ forbidden_of s a -> a ∈ forbidden_of s b) /\
  a ∉ forbidden_of s a.
Proof.
  intros Hd [_ ->]%ctor_Ret.
  assert (forall x y, y ∈ forbidden_of (engine_spec grid) x <->
            exists p q, non_empty_position grid p /\ non_empty_position grid q /\
                        adjacent p q /\ cell grid p = x /\ cell grid q = y) as Hchar.
  { intros x y. rewrite (elem_of_forbidden_of grid Hd). split.
    - intros (p & q & Hp & Hq & Ha & Hcp & Hcq). exists p, q.
      by rewrite <- !positions_non_empty, adjacent_around.
    - intros (p & q & Hp & Hq & Ha & Hcp & Hcq). exists p, q.
      by rewrite !positions_non_empty, <- adjacent_around. }
  split; [apply Hchar|]. split; [apply (forbidden_of_sym grid Hd)|].
  rewrite Hchar. intros (p & q & Hp & Hq & Ha & Hcp & Hcq).
  assert (p = q) as ->.
  { apply (cell_inj grid Hd); [congruence|]. rewrite Hcp, <- Hcq. apply Hq. }
  unfold adjacent in Ha. lia.
Qed.

(** X6: [original_positions] of a constructed engine maps a label to the
    last position, in row-major order, that holds it in the grid; labels of
    no non-empty position have no entry. *)
Theorem ctor_original_last (grid : Grid) (s : GridShuffler) (d : string)
    (p : Position) :
  GridShuffler_ctor grid = Ret s ->
  original_positions s !! d = Some p <->
  non_empty_position grid p /\ cell grid p = d /\
  forall q, non_empty_position grid q -> cell grid q = d -> row_major_le q p.
Proof.
  intros [_ ->]%ctor_Ret. rewrite originals_last, positions_non_empty.
  split; intros (Hp & Hc & Hle); (split; [done|split; [done|]]);
    intros q Hq; apply Hle; by apply positions_non_empty.
Qed.

(** X7: whenever some non-empty position is open, [backtrack] selects an
    open position whose domain is no larger than that of any open position
    and smaller than that of every open position listed before it; this
    holds in every engine state and for all domains. *)
Theorem selected_mrv (s : GridShuffler) (pd : gmap Position (list string))
    (ca : gmap Position string) :
  (exists p, p ∈ non_empty_positions s /\ ca !! p = None) ->
  exists p0 i,
    selected s pd ca = Some p0 /\
    non_empty_positions s !! i = Some p0 /\
    ca !! p0 = None /\
    forall j p, non_empty_positions s !! j = Some p -> ca !! p = None ->
      (length (domain_of pd p0) <= length (domain_of pd p))%nat /\
      ((j < i)%nat -> (length (domain_of pd p0) < length (domain_of pd p))%nat).
Proof.
  intros (p & Hp & Ho).
  destruct (selected_open s pd ca p Hp Ho) as (p0 & Hsel & _ & Hopen).
  destruct (min_element_mrv ca pd _ _ Hsel) as (i & Hi & _ & Hmin).
  by exists p0, i.
Qed.

(** X8: a candidate that [isValidAssignment] accepts against an assignment
    is accepted against every part of that assignment: entries only ever
    add reasons to reject. *)
Theorem isValidAssignment_antitone (s : GridShuffler) (pos : Position)
    (digit : string) (ca ca' : gmap Position string) :
  ca ⊆ ca' ->
  isValidAssignment s pos digit ca' = true ->
  isValidAssignment s pos digit ca = true.
Proof.
  rewrite !isValidAssignment_true. intros Hsub [Hnb Hop]. split; [|done].
  intros n dn Hn Hl. eapply Hnb; [done|]. by eapply lookup_weaken.
Qed.

(** X9: [backtrack] hands back an assignment that contains the one it was
    given: the very same when it returns [false], and one with an entry per
    non-empty position when it returns [true]. *)
Theorem backtrack_result (s : GridShuffler) (pd : gmap Position (list string))
    (fuel : nat) (ca ca' : gmap Position string) (b : bool) :
  backtrack s pd fuel ca = Some (b, ca') ->
  ca ⊆ ca' /\
  (b = false -> ca' = ca) /\
  (b = true -> size ca' = length (non_empty_positions s)).
Proof.
  intros Hb. destruct b.
  - apply (backtrack_invariant s pd (fun c => ca ⊆ c)) in Hb as [Hsub Hsz]; [done| |done].
    intros c pos d Hc _ Hnone _ _. etrans; [exact Hc|]. by apply insert_subseteq.
  - apply backtrack_false in Hb as ->. done.
Qed.

(** ** Runs of [shuffle] on a built engine *)

Lemma set_shuffled_grid_id (s : GridShuffler) :
  set_shuffled_grid s (shuffled_grid s) = s.
Proof. by destruct s. Qed.

Section Runs.

Variable G : Type.
Variable ranges_shuffle : list string -> G -> list string * G.
Hypothesis shuffle_permutes : forall l mt, (ranges_shuffle l mt).1 ≡ₚ l.

Variable grid : Grid.

Lemma drawn_domain (s : GridShuffler) (mt : G) (p : Position) :
  p ∈ non_empty_positions s ->
  domain_of (drawn ranges_shuffle s mt) p ≡ₚ all_digits s.
Proof. intros Hp. by apply init_domains_perm. Qed.

(** The assignment of a successful search fits the output grid. *)
Lemma built_write_back (s : GridShuffler) (pd : gmap Position (list string))
    (fuel : nat) (ca : gmap Position string) :
  built grid s ->
  backtrack s pd fuel ∅ = Some (true, ca) ->
  exists out, write_back (shuffled_grid s) ca = Ret out.
Proof.
  intros (Hr & out0 & -> & Hsh) Hbt.
  destruct (backtrack_placed _ _ _ _ Hbt) as [Hpl _].
  destruct (write_back_spec _ _ ca out0 Hsh) as (out' & Hw' & _); [|by exists out'].
  intros p d Hp. destruct (Hpl p d Hp) as (Hin & _). simpl in Hin.
  by apply elem_of_positions in Hin as [? _].
Qed.

Lemma shuffle_returns_built (s : GridShuffler) (mt : G) :
  built grid s ->
  exists b s' mt', shuffle ranges_shuffle s mt = Ret (b, s', mt').
Proof.
  intros Hb. unfold shuffle. destruct (init_domains _ _ _ _ _) as [pd mt1].
  destruct (backtrack_total s pd (S (length (non_empty_positions s))) ∅) as [[b ca] Hbt].
  { pose proof (unassigned_bound s ∅). lia. }
  rewrite Hbt. destruct b; [|eauto].
  destruct (built_write_back s pd _ ca Hb Hbt) as [out ->]. simpl. eauto.
Qed.

Lemma shuffle_complete_built (s : GridShuffler) (mt : G) (sol : gmap Position string) :
  built grid s -> arrangement s sol ->
  exists s' mt', shuffle ranges_shuffle s mt = Ret (true, s', mt').
Proof.
  intros Hb (Htot & Hpl & Hcf).
  assert (exists ca, backtrack s (drawn ranges_shuffle s mt)
                       (S (length (non_empty_positions s))) ∅ = Some (true, ca))
    as [ca Hbt].
  { apply (backtrack_complete s (drawn ranges_shuffle s mt) sol).
    - destruct Hb as (_ & out & -> & _). apply positions_NoDup.
    - done.
    - intros p d Hd. destruct (Hpl p d Hd) as (Hp & Hin & Hop).
      split; [done|]. split; [|done]. by rewrite drawn_domain.
    - done.
    - apply map_empty_subseteq.
    - pose proof (unassigned_bound s ∅). lia. }
  unfold shuffle. unfold drawn in Hbt.
  destruct (init_domains _ _ _ _ _) as [pd mt1]. cbn [fst] in Hbt. rewrite Hbt.
  destruct (built_write_back s pd _ ca Hb Hbt) as [out ->]. simpl. eauto.
Qed.

(** What every non-empty position holds after a successful [shuffle]. *)
Lemma shuffle_true_cells (s s' : GridShuffler) (mt mt' : G) (p : Position) :
  built grid s ->
  shuffle ranges_shuffle s mt = Ret (true, s', mt') ->
  p ∈ non_empty_positions s ->
  exists d, grid_at (shuffled_grid s') p.1 p.2 = Ret d /\
            d ∈ all_digits s /\ original_positions s !! d <> Some p.
Proof.
  intros Hb Hs Hp.
  destruct (shuffle_true_built _ _ _ _ _ _ _ Hb Hs) as (ca & _ & Hpl & Hall & _ & Hrd).
  destruct (Hall p Hp) as [d Hd]. exists d.
  pose proof (Hrd p) as Hr. rewrite Hd in Hr. split; [done|].
  destruct (Hpl p d Hd) as (_ & Hdom & Hop). split; [|done].
  by rewrite drawn_domain in Hdom.
Qed.

(** On a grid of distinct labels, the assignment of a successful [shuffle]
    is an arrangement. *)
Lemma shuffle_true_arrangement (s s' : GridShuffler) (mt mt' : G) :
  distinct_labels grid ->
  built grid s ->
  shuffle ranges_shuffle s mt = Ret (true, s', mt') ->
  exists sol, arrangement s sol.
Proof.
  intros Hd Hb Hs.
  destruct (shuffle_true_built _ _ _ _ _ _ _ Hb Hs) as (ca & Hbt & Hpl & Hall & _ & _).
  exists ca. split; [done|]. split.
  - intros p d Hp. destruct (Hpl p d Hp) as (Hin & Hdom & Hop).
    split; [done|]. split; [|done]. by rewrite drawn_domain in Hdom.
  - by apply (built_conflict_free grid Hd s _ _ ca Hb Hbt).
Qed.

(** Positions that are not non-empty positions keep what they hold. *)
Lemma shuffle_true_others (s s' : GridShuffler) (mt mt' : G) (p : Position) :
  built grid s ->
  shuffle ranges_shuffle s mt = Ret (true, s', mt') ->
  p ∉ non_empty_positions s ->
  grid_at (shuffled_grid s') p.1 p.2 = grid_at (shuffled_grid s) p.1 p.2.
Proof.
  intros Hb Hs Hp.
  destruct (shuffle_true_built _ _ _ _ _ _ _ Hb Hs) as (ca & _ & Hpl & _ & _ & Hrd).
  rewrite Hrd. destruct (ca !! p) as [d|] eqn:Hd; [|done].
  by destruct (Hpl p d Hd) as (? & _).
Qed.

Lemma reachable_others (s : GridShuffler) (p : Position) :
  reachable ranges_shuffle grid s ->
  in_range (Z.of_nat (length grid)) (first_row_width grid) p.1 p.2 = true ->
  p ∉ non_empty_positions s ->
  grid_at (shuffled_grid s) p.1 p.2 = Ret EmptyString.
Proof.
  intros Hreach Hin.
  induction Hreach as [s Hc|s mt b s' mt' Hreach IH Hs].
  - apply ctor_Ret in Hc as [_ ->]. intros _. by apply grid_at_replicate.
  - pose proof (reachable_built _ _ _ _ Hreach) as Hb. destruct b.
    + destruct (shuffle_true _ _ s s' mt mt' Hs) as (ca & out & _ & _ & ->).
      cbn [non_empty_positions set_shuffled_grid]. intros Hp.
      rewrite <- (IH Hp).
      apply (shuffle_true_others s _ mt mt'); done.
    + by apply shuffle_false in Hs as ->.
Qed.

End Runs.

(** ** When the validator returns *)

Lemma validate_neighbors_returns (s : GridShuffler) (d : string) (nbrs : list Position) :
  (nbrs <> [] -> is_Some (forbidden_neighbors s !! d)) ->
  (forall q, q ∈ nbrs -> exists dq, grid_at (shuffled_grid s) q.1 q.2 = Ret dq) ->
  exists b, validate_neighbors s d nbrs = Ret b.
Proof.
  intros Hk. induction nbrs as [|[qi qj] nbrs IH]; intros Hall; [by exists false|].
  destruct Hk as [S0 HS]; [done|].
  destruct (Hall (qi, qj)) as [dq Hq]; [by left|].
  cbn [validate_neighbors]. unfold map_at. rewrite HS. cbn [mbind outcome_bind].
  simpl in Hq. rewrite Hq. cbn [mbind outcome_bind].
  case_decide; [by exists true|]. apply IH; [eauto|].
  intros q Hq'. apply Hall. by right.
Qed.

Lemma validate_positions_returns (s : GridShuffler) (ps : list Position) :
  (forall p, p ∈ ps ->
     exists d nbrs,
       grid_at (shuffled_grid s) p.1 p.2 = Ret d /\
       neighbors_map s !! p = Some nbrs /\
       (nbrs <> [] -> is_Some (forbidden_neighbors s !! d)) /\
       (forall q, q ∈ nbrs -> exists dq, grid_at (shuffled_grid s) q.1 q.2 = Ret dq) /\
       (forall it, original_positions s !! d = Some it ->
          exists v, grid_at (shuffled_grid s) it.1 it.2 = Ret v)) ->
  exists b, validate_positions s ps = Ret b.
Proof.
  induction ps as [|p ps IH]; intros Hall; [by exists true|].
  destruct (Hall p) as (d & nbrs & Hd & Hn & Hk & Hnb & Hop); [by left|].
  cbn [validate_positions]. rewrite Hd. cbn [mbind outcome_bind].
  unfold map_at. rewrite Hn. cbn [mbind outcome_bind].
  destruct (validate_neighbors_returns s d nbrs Hk Hnb) as [c ->]. cbn [mbind outcome_bind].
  destruct c; [by exists false|].
  assert (exists b, validate_positions s ps = Ret b) as Hrest.
  { apply IH. intros q Hq. apply Hall. by right. }
  destruct (original_positions s !! d) as [it|] eqn:Eo; [|done].
  destruct (Hop it eq_refl) as (v & ->). cbn [mbind outcome_bind].
  destruct (String.eqb v d); [by exists false|done].
Qed.

Lemma validate_neighbors_false_inv (s : GridShuffler) (d : string) (nbrs : list Position) :
  validate_neighbors s d nbrs = Ret false ->
  forall q, q ∈ nbrs ->
    exists S0 dq, forbidden_neighbors s !! d = Some S0 /\
                  grid_at (shuffled_grid s) q.1 q.2 = Ret dq /\ dq ∉ S0.
Proof.
  induction nbrs as [|[qi qj] nbrs IH]; intros Hv q Hq; [by apply elem_of_nil in Hq|].
  cbn [validate_neighbors] in Hv. unfold map_at in Hv.
  destruct (forbidden_neighbors s !! d) as [S0|] eqn:HS; [|done].
  cbn [mbind outcome_bind] in Hv.
  destruct (grid_at (shuffled_grid s) qi qj) as [dq|] eqn:Hg; [|done].
  cbn [mbind outcome_bind] in Hv. case_decide as Hin; [done|].
  apply elem_of_cons in Hq as [->|Hq].
  - by exists S0, dq.
  - by apply IH.
Qed.

Lemma validate_positions_true_inv (s : GridShuffler) (ps : list Position) :
  validate_positions s ps = Ret true -> forall p, p ∈ ps -> valid_at s p.
Proof.
  induction ps as [|p ps IH]; intros Hv q Hq; [by apply elem_of_nil in Hq|].
  cbn [validate_positions] in Hv.
  destruct (grid_at (shuffled_grid s) p.1 p.2) as [d|] eqn:Hd; [|done].
  cbn [mbind outcome_bind] in Hv. unfold map_at in Hv.
  destruct (neighbors_map s !! p) as [nbrs|] eqn:Hn; [|done].
  cbn [mbind outcome_bind] in Hv.
  destruct (validate_neighbors s d nbrs) as [[]|] eqn:Hc; [done| |done].
  cbn [mbind outcome_bind] in Hv.
  assert (validate_positions s ps = Ret true /\
          forall it, original_positions s !! d = Some it ->
            exists v, grid_at (shuffled_grid s) it.1 it.2 = Ret v /\ v <> d) as [Hrest Hop].
  { destruct (original_positions s !! d) as [it|] eqn:Eo; [|done].
    destruct (grid_at (shuffled_grid s) it.1 it.2) as [v|] eqn:Hg; [|done].
    cbn [mbind outcome_bind] in Hv.
    destruct (String.eqb v d) eqn:Ev; [done|]. split; [done|].
    intros ? [= <-]. exists v. split; [done|]. by apply String.eqb_neq. }
  apply elem_of_cons in Hq as [->|Hq]; [|by apply IH].
  exists d, nbrs. split; [done|]. split; [done|]. split; [|done].
  by apply validate_neighbors_false_inv.
Qed.

(** ** Further properties of [shuffle] and [validateResult] *)

Section Behaviour.

Variable G : Type.
Variable ranges_shuffle : list string -> G -> list string * G.
Hypothesis shuffle_permutes : forall l mt, (ranges_shuffle l mt).1 ≡ₚ l.

Variable grid : Grid.

(** X10: in every state of an engine, [shuffle] runs to a result: the
    search ends, every write of the assignment falls inside the output grid,
    and a boolean comes back. *)
Theorem shuffle_returns (s : GridShuffler) (mt : G) :
  reachable ranges_shuffle grid s ->
  exists b s' mt', shuffle ranges_shuffle s mt = Ret (b, s', mt').
Proof. intros Hb%reachable_built. by apply (shuffle_returns_built G ranges_shuffle grid). Qed.

(** X11: the search is complete.  If the non-empty positions can be
    labelled with candidates so that no label sits at the position recorded
    as its original one and no neighbour's label is forbidden, then
    [shuffle] returns [true], whatever the random generator draws. *)
Theorem shuffle_complete (s : GridShuffler) (mt : G) (sol : gmap Position string) :
  reachable ranges_shuffle grid s ->
  arrangement s sol ->
  exists s' mt', shuffle ranges_shuffle s mt = Ret (true, s', mt').
Proof.
  intros Hb%reachable_built.
  by apply (shuffle_complete_built G ranges_shuffle shuffle_permutes grid).
Qed.

(** X12: on a grid of pairwise distinct labels, [shuffle] returns [true]
    exactly when such a labelling of the non-empty positions exists; so
    whether it succeeds does not depend on the random generator. *)
Theorem shuffle_succeeds_iff (s : GridShuffler) (mt : G) :
  distinct_labels grid ->
  reachable ranges_shuffle grid s ->
  (exists s' mt', shuffle ranges_shuffle s mt = Ret (true, s', mt')) <->
  (exists sol, arrangement s sol).
Proof.
  intros Hd Hb%reachable_built. split.
  - intros (s' & mt' & Hs).
    by apply (shuffle_true_arrangement G ranges_shuffle shuffle_permutes grid s s' mt mt').
  - intros [sol Hsol].
    by apply (shuffle_complete_built G ranges_shuffle shuffle_permutes grid s mt sol).
Qed.

(** X13: in every state of an engine the indices are those the
    constructor built, the output grid has the dimensions of the engine,
    and every cell of it that is not a non-empty position of the input
    holds the empty label. *)
Theorem reachable_output (s : GridShuffler) :
  reachable ranges_shuffle grid s ->
  (exists s0, GridShuffler_ctor grid = Ret s0 /\
              s = set_shuffled_grid s0 (getShuffledGrid s)) /\
  shaped (rows s) (cols s) (getShuffledGrid s) /\
  forall p, in_range (rows s) (cols s) p.1 p.2 = true ->
            ~ non_empty_position grid p ->
            grid_at (getShuffledGrid s) p.1 p.2 = Ret EmptyString.
Proof.
  intros Hreach. pose proof (reachable_built _ _ _ _ Hreach) as Hb.
  pose proof Hb as (Hr & out & Hs & Hsh). split; [|split].
  - exists (engine_spec grid). split; [by apply ctor_readable|]. by rewrite Hs.
  - by rewrite Hs.
  - intros p Hin Hp. apply (reachable_others G ranges_shuffle grid s p Hreach).
    + by rewrite Hs in Hin.
    + by rewrite (built_positions grid s p Hb).
Qed.

(** X14: after a successful [shuffle], every non-empty position of the
    input holds a non-empty label of the input, and never the label whose
    recorded original position it is; this holds for every grid, also with
    repeated labels. *)
Theorem shuffle_labels_from_input (s s' : GridShuffler) (mt mt' : G) (p : Position) :
  reachable ranges_shuffle grid s ->
  shuffle ranges_shuffle s mt = Ret (true, s', mt') ->
  non_empty_position grid p ->
  exists d, grid_at (getShuffledGrid s') p.1 p.2 = Ret d /\
            d <> EmptyString /\
            (exists q, non_empty_position grid q /\ cell grid q = d) /\
            original_positions s' !! d <> Some p.
Proof.
  intros Hb%reachable_built Hs Hp.
  apply (built_positions grid s p Hb) in Hp.
  destruct (shuffle_true_cells G ranges_shuffle shuffle_permutes grid s s' mt mt' p Hb Hs Hp)
    as (d & Hd & Hin & Hop).
  destruct (shuffle_true _ _ s s' mt mt' Hs) as (_ & out & _ & _ & ->).
  destruct Hb as (_ & out0 & -> & _).
  apply elem_of_all_digits in Hin as (Hne & q & Hq & Hc).
  exists d. split; [done|]. split; [done|]. split; [|done].
  exists q. by rewrite <- positions_non_empty.
Qed.

(** X15: right after a successful [shuffle], [validateResult] returns a
    boolean on every grid: each of its checked lookups finds its key. *)
Theorem validate_after_shuffle_returns (s s' : GridShuffler) (mt mt' : G) :
  reachable ranges_shuffle grid s ->
  shuffle ranges_shuffle s mt = Ret (true, s', mt') ->
  exists b, validateResult s' = Ret b.
Proof.
  intros Hb%reachable_built Hs.
  pose proof (shuffle_true_cells G ranges_shuffle shuffle_permutes grid s s' mt mt') as Hcells.
  destruct (shuffle_true _ _ s s' mt mt' Hs) as (_ & out & _ & _ & Es').
  assert (forall q, q ∈ non_empty_positions s ->
            exists dq, grid_at (shuffled_grid s') q.1 q.2 = Ret dq /\ dq ∈ all_digits s) as Hq.
  { intros q Hq. destruct (Hcells q Hb Hs Hq) as (dq & ? & ? & _). eauto. }
  clear Hcells. subst s'. destruct Hb as (_ & out0 & -> & _).
  apply validate_positions_returns. intros p Hp.
  destruct (Hq p Hp) as (d & Hd & Hin).
  exists d, (neighbors_spec grid (Z.of_nat (length grid)) (first_row_width grid) p).
  split; [done|]. split; [by apply neighbors_lookup|]. split; [|split].
  - intros _. apply elem_of_all_digits in Hin as (_ & Hk). by apply forbidden_keys.
  - intros q [_ Hqn]%elem_of_neighbors_spec. destruct (Hq q Hqn) as (dq & ? & _). eauto.
  - intros it Hit. destruct (originals_lookup_Some grid d it Hit) as [Hin' _].
    destruct (Hq it Hin') as (v & ? & _). eauto.
Qed.

(** X17: on an engine whose grid has no non-empty cell, [shuffle] returns
    [true] without drawing from the generator and without changing the
    engine, and [validateResult] returns [true]. *)
Theorem shuffle_no_positions (s : GridShuffler) (mt : G) :
  GridShuffler_ctor grid = Ret s ->
  (forall p, ~ non_empty_position grid p) ->
  shuffle ranges_shuffle s mt = Ret (true, s, mt) /\ validateResult s = Ret true.
Proof.
  intros [_ ->]%ctor_Ret Hnone.
  assert (non_empty_positions (engine_spec grid) = []) as Hnil.
  { apply elem_of_nil_inv. intros p Hp%positions_non_empty. by apply (Hnone p). }
  unfold shuffle, validateResult. rewrite Hnil. split; [|done].
  cbn [init_domains length]. rewrite backtrack_unfold, Hnil.
  rewrite decide_True by done.
  unfold write_back. rewrite map_to_list_empty. cbn [foldM mbind outcome_bind].
  by rewrite set_shuffled_grid_id.
Qed.

(** X18: when all non-empty cells of the grid carry one and the same
    label, [shuffle] returns [false] and leaves the engine as it is: the
    only candidate cannot go to its recorded original position. *)
Theorem shuffle_one_label_fails (s : GridShuffler) (mt : G) :
  reachable ranges_shuffle grid s ->
  (exists p, non_empty_position grid p) ->
  (forall p q, non_empty_position grid p -> non_empty_position grid q ->
               cell grid p = cell grid q) ->
  exists mt', shuffle ranges_shuffle s mt = Ret (false, s, mt').
Proof.
  intros Hb%reachable_built [p0 Hp0] Hone.
  destruct (shuffle_returns_built G ranges_shuffle grid s mt Hb) as (b & s' & mt' & Hs).
  destruct b.
  - exfalso.
    pose proof (shuffle_true_cells G ranges_shuffle shuffle_permutes grid s s' mt mt') as Hcells.
    destruct Hb as (Hr & out0 & -> & Hsh).
    assert (built grid (set_shuffled_grid (engine_spec grid) out0)) as Hb
      by (split; [done|by exists out0]).
    apply positions_non_empty in Hp0.
    destruct (lookup_insert_all_is_Some (cell grid) id ∅ _ p0 (or_introl Hp0)) as [it Hit].
    change (original_positions (engine_spec grid) !! cell grid p0 = Some it) in Hit.
    destruct (originals_lookup_Some grid _ it Hit) as [Hin Hc].
    destruct (Hcells it Hb Hs Hin) as (d & _ & Hd & Hop).
    apply elem_of_all_digits in Hd as (_ & q & Hq & <-).
    apply Hop. simpl. simpl in Hit. rewrite <- Hit. f_equal.
    apply Hone; by apply positions_non_empty.
  - exists mt'. by rewrite (shuffle_false _ _ s s' mt mt' Hs) in Hs.
Qed.

End Behaviour.

(** X16: [validateResult] returns [true] exactly when, at every non-empty
    position, each of its lookups finds its key, no neighbour holds a label
    forbidden for the label of the position, and the recorded original
    position of that label holds another label. *)
Theorem validateResult_true_iff (s : GridShuffler) :
  validateResult s = Ret true <->
  forall p, p ∈ non_empty_positions s -> valid_at s p.
Proof.
  split; [apply validate_positions_true_inv|apply validate_positions_true].
Qed.

(** ** The tests of the repository *)

Lemma arrangement_check_sound (s : GridShuffler) (sol : gmap Position string) :
  arrangement_check s sol -> arrangement s sol.
Proof.
  intros (H1 & H2 & H3). split; [|split].
  - intros p Hp. by apply (proj1 (Forall_forall _ _) H1).
  - intros p d Hd. by apply (H2 p d).
  - intros p q dp dq Hp Hq. by apply (H3 p dp Hp q dq Hq).
Qed.

(** A grid of distinct labels that one generator solves is solved with
    every generator. *)
Lemma shuffle_transfer (G1 G2 : Type)
    (rs1 : list string -> G1 -> list string * G1)
    (rs2 : list string -> G2 -> list string * G2)
    (grid : Grid) (s s1 : GridShuffler) (mt1 mt1' : G1) (mt2 : G2) :
  (forall l mt, (rs1 l mt).1 ≡ₚ l) ->
  (forall l mt, (rs2 l mt).1 ≡ₚ l) ->
  distinct_labels grid ->
  built grid s ->
  shuffle rs1 s mt1 = Ret (true, s1, mt1') ->
  exists s2 mt2', shuffle rs2 s mt2 = Ret (true, s2, mt2').
Proof.
  intros H1 H2 Hd Hb Hs.
  destruct (shuffle_true_arrangement G1 rs1 H1 grid s s1 mt1 mt1' Hd Hb Hs) as [sol Hsol].
  by apply (shuffle_complete_built G2 rs2 H2 grid s mt2 sol).
Qed.

Section TestsPass.

Variable G : Type.
Variable ranges_shuffle : list string -> G -> list string * G.
Hypothesis shuffle_permutes : forall l mt, (ranges_shuffle l mt).1 ≡ₚ l.

Lemma shuffle_test_grid (mt : G) :
  exists s' mt', shuffle ranges_shuffle (engine_spec test_grid) mt = Ret (true, s', mt').
Proof.
  assert (exists s1 m1, shuffle scripted (engine_spec test_grid) [] = Ret (true, s1, m1))
    as (s1 & m1 & Hs) by (eexists _, _; by_evaluation).
  apply (shuffle_transfer _ G scripted ranges_shuffle test_grid _ s1 [] m1 mt
           scripted_permutes shuffle_permutes); [|by apply ctor_built; by_evaluation|done].
  unfold distinct_labels. compute_done.
Qed.

Lemma shuffle_sparse_grid (mt : G) :
  exists s' mt', shuffle ranges_shuffle (engine_spec sparse_grid) mt = Ret (true, s', mt').
Proof.
  assert (exists s1 m1, shuffle scripted (engine_spec sparse_grid) [] = Ret (true, s1, m1))
    as (s1 & m1 & Hs) by (eexists _, _; by_evaluation).
  apply (shuffle_transfer _ G scripted ranges_shuffle sparse_grid _ s1 [] m1 mt
           scripted_permutes shuffle_permutes); [|by apply ctor_built; by_evaluation|done].
  unfold distinct_labels. compute_done.
Qed.

(** X19: the assertions of the tests [BasicTest] and [WithEmptyCells] hold
    with every generator and every seed: [shuffle] returns [true] on the
    3x3 grid of the labels "1" to "9" and on the grid with three empty
    cells. *)
Theorem tests_shuffle_succeed (mt : G) :
  BasicTest ranges_shuffle mt = Ret true /\
  WithEmptyCells ranges_shuffle mt = Ret true.
Proof.
  unfold BasicTest, WithEmptyCells, shuffle_test. split.
  - replace (GridShuffler_ctor test_grid) with (Ret (engine_spec test_grid))
      by (symmetry; by_evaluation).
    cbn [mbind outcome_bind]. by destruct (shuffle_test_grid mt) as (s' & mt' & ->).
  - replace (GridShuffler_ctor sparse_grid) with (Ret (engine_spec sparse_grid))
      by (symmetry; by_evaluation).
    cbn [mbind outcome_bind]. by destruct (shuffle_sparse_grid mt) as (s' & mt' & ->).
Qed.

(** X20: the assertion of the test [ValidateResult] holds with every
    generator and every seed: on the 3x3 grid of the labels "1" to "9",
    [validateResult] returns [true] after [shuffle]. *)
Theorem test_validate_succeeds (mt : G) :
  ValidateResult ranges_shuffle mt = Ret true.
Proof.
  unfold ValidateResult.
  assert (GridShuffler_ctor test_grid = Ret (engine_spec test_grid)) as Hc by by_evaluation.
  rewrite Hc. cbn [mbind outcome_bind].
  destruct (shuffle_test_grid mt) as (s' & mt' & Hs). rewrite Hs. cbn [mbind outcome_bind snd fst].
  unfold validateResult. apply validate_positions_true. intros p Hp.
  assert (distinct_labels test_grid) as Hd by (unfold distinct_labels; compute_done).
  by destruct (shuffle_true_valid G ranges_shuffle shuffle_permutes test_grid Hd
                 _ s' mt mt' p (ctor_built _ _ Hc) Hs Hp) as (d & _ & _ & Hv).
Qed.

End TestsPass.

(** ** Earlier calls leave no trace *)

(** Two grids of the same dimensions that hold the same labels are equal. *)
Lemma grid_ext (nrows ncols : Z) (g1 g2 : Grid) :
  shaped nrows ncols g1 -> shaped nrows ncols g2 ->
  (forall i j, in_range nrows ncols i j = true -> grid_at g1 i j = grid_at g2 i j) ->
  g1 = g2.
Proof.
  intros [Hl1 Hr1] [Hl2 Hr2] Heq.
  apply (list_eq_same_length _ _ (Z.to_nat nrows)); [done..|].
  intros i row1 row2 Hi H1 H2.
  pose proof (Forall_lookup_1 _ _ _ _ Hr1 H1) as Hc1.
  pose proof (Forall_lookup_1 _ _ _ _ Hr2 H2) as Hc2. simpl in Hc1, Hc2.
  apply (list_eq_same_length _ _ (Z.to_nat ncols)); [done..|].
  intros j a b Hj Ha Hb.
  assert (grid_at g1 (Z.of_nat i) (Z.of_nat j) = Ret a) as E1.
  { apply grid_at_Ret. split; [lia|]. split; [lia|]. rewrite !Nat2Z.id. eauto. }
  assert (grid_at g2 (Z.of_nat i) (Z.of_nat j) = Ret b) as E2.
  { apply grid_at_Ret. split; [lia|]. split; [lia|]. rewrite !Nat2Z.id. eauto. }
  rewrite Heq in E1 by (apply in_range_spec; lia). congruence.
Qed.

(** The search does not read the output grid. *)
Lemma isValidAssignment_set_output (s : GridShuffler) (out : Grid) (pos : Position)
    (digit : string) (ca : gmap Position string) :
  isValidAssignment (set_shuffled_grid s out) pos digit ca
  = isValidAssignment s pos digit ca.
Proof.
  unfold isValidAssignment.
  cbn [neighbors_map original_positions set_shuffled_grid].
  assert (forall l, neighbor_conflict (set_shuffled_grid s out) digit ca l
                    = neighbor_conflict s digit ca l) as ->; [|done].
  induction l as [|n l IH]; [done|]. cbn [neighbor_conflict].
  cbn [forbidden_neighbors set_shuffled_grid]. by rewrite IH.
Qed.

Lemma try_digits_set_output
    (rec rec' : gmap Position string -> option (bool * gmap Position string))
    (s : GridShuffler) (out : Grid) (pos : Position) (digits : list string)
    (ca : gmap Position string) :
  (forall c, rec c = rec' c) ->
  try_digits rec (set_shuffled_grid s out) pos digits ca = try_digits rec' s pos digits ca.
Proof.
  intros Hrec. revert ca. induction digits as [|d digits IH]; intros ca; [done|].
  cbn [try_digits].
  rewrite isValidAssignment_set_output.
  destruct (isValidAssignment s pos d ca); [|apply IH].
  rewrite Hrec. destruct (rec' (<[pos := d]> ca)) as [[[] c]|]; [done|apply IH|done].
Qed.

Lemma backtrack_set_output (s : GridShuffler) (out : Grid)
    (pd : gmap Position (list string)) (fuel : nat) (ca : gmap Position string) :
  backtrack (set_shuffled_grid s out) pd fuel ca = backtrack s pd fuel ca.
Proof.
  revert ca. induction fuel as [|fuel IH]; intros ca; [done|].
  rewrite !backtrack_unfold.
  change (non_empty_positions (set_shuffled_grid s out)) with (non_empty_positions s).
  change (selected (set_shuffled_grid s out) pd ca) with (selected s pd ca).
  case_decide; [done|].
  destruct (selected s pd ca) as [pos|]; [|done].
  destruct (contains ca pos); [done|].
  by apply try_digits_set_output.
Qed.

Section History.

Variable G : Type.
Variable ranges_shuffle : list string -> G -> list string * G.

Variable grid : Grid.

(** X25: a call of [shuffle] behaves as on a freshly constructed engine:
    in every state of an engine it returns the boolean and leaves the
    generator as the same call on a fresh engine does, and when it returns
    [true] it leaves the same engine, output grid included.  Earlier calls
    show only through the generator. *)
Theorem shuffle_history_independent (s s0 s' : GridShuffler) (mt mt' : G) (b : bool) :
  reachable ranges_shuffle grid s ->
  GridShuffler_ctor grid = Ret s0 ->
  shuffle ranges_shuffle s mt = Ret (b, s', mt') ->
  exists s0', shuffle ranges_shuffle s0 mt = Ret (b, s0', mt') /\
              (b = true -> s0' = s').
Proof.
  intros Hreach Hc Hs.
  pose proof (reachable_built _ _ _ _ Hreach) as Hb.
  pose proof (ctor_built _ _ Hc) as Hb0.
  apply ctor_Ret in Hc as [_ ->].
  destruct b.
  - destruct (shuffle_true_built _ _ _ _ _ _ _ Hb Hs)
      as (ca & Hbt & Hpl & Hall & Hb' & Hrd).
    pose proof (shuffle_true _ _ _ _ _ _ Hs) as (ca1 & out1 & Hbt1 & _ & Es').
    assert (ca1 = ca) as -> by congruence.
    pose proof Hb as (_ & out & Es & Hsh).
    assert (backtrack (engine_spec grid)
              (drawn ranges_shuffle (engine_spec grid) mt)
              (S (length (non_empty_positions (engine_spec grid)))) ∅ = Some (true, ca))
      as Hbt0.
    { rewrite Es in Hbt. by rewrite backtrack_set_output in Hbt. }
    destruct (built_write_back grid (engine_spec grid) _ _ ca Hb0 Hbt0) as [out0 Hw0].
    assert (shuffle ranges_shuffle (engine_spec grid) mt
            = Ret (true, set_shuffled_grid (engine_spec grid) out0, mt')) as Hs0.
    { unfold shuffle in Hs |- *. unfold drawn in Hbt, Hbt0.
      rewrite Es in Hs, Hbt.
      change (all_digits (set_shuffled_grid (engine_spec grid) out))
        with (all_digits (engine_spec grid)) in Hs, Hbt.
      change (non_empty_positions (set_shuffled_grid (engine_spec grid) out))
        with (non_empty_positions (engine_spec grid)) in Hs, Hbt.
      destruct (init_domains _ _ _ _ _) as [pd mt1]. cbn [fst] in Hbt, Hbt0.
      rewrite Hbt in Hs. rewrite Hbt0, Hw0. cbn [mbind outcome_bind].
      destruct (write_back _ ca) as [g|]; [|done]. by injection Hs as _ <-. }
    exists (set_shuffled_grid (engine_spec grid) out0). split; [done|]. intros _.
    destruct (shuffle_true_built _ _ _ _ _ _ _ Hb0 Hs0)
      as (ca0 & Hbt0' & _ & _ & Hb0' & Hrd0).
    assert (ca0 = ca) as -> by congruence.
    rewrite Es', Es. cbn [set_shuffled_grid original_grid non_empty_positions
      forbidden_neighbors neighbors_map original_positions rows cols]. f_equal.
    destruct Hb' as (_ & o1 & Eo1 & Hsh1). destruct Hb0' as (_ & o0 & Eo0 & Hsh0).
    assert (o1 = out1) as -> by (rewrite Es' in Eo1; rewrite Es in Eo1; by injection Eo1).
    assert (o0 = out0) as -> by (by injection Eo0).
    apply (grid_ext _ _ _ _ Hsh0 Hsh1). intros i j Hin.
    specialize (Hrd (i, j)). specialize (Hrd0 (i, j)).
    rewrite Es' in Hrd. cbn [shuffled_grid set_shuffled_grid fst snd] in Hrd, Hrd0.
    rewrite Hrd, Hrd0. destruct (ca !! (i, j)) as [d|] eqn:Hd; [done|].
    assert ((i, j) ∉ non_empty_positions s) as Hnot.
    { intros Hp. apply Hall in Hp as [d' Hd']. congruence. }
    pose proof (reachable_others G ranges_shuffle grid s (i, j) Hreach Hin Hnot) as Hrs.
    cbn [fst snd] in Hrs. rewrite Hrs. by apply grid_at_replicate.
  - pose proof (shuffle_false _ _ _ _ _ _ Hs) as ->.
    pose proof Hb as (_ & out & Es & Hsh).
    unfold shuffle in Hs |- *. rewrite Es in Hs.
    change (all_digits (set_shuffled_grid (engine_spec grid) out))
      with (all_digits (engine_spec grid)) in Hs.
    change (non_empty_positions (set_shuffled_grid (engine_spec grid) out))
      with (non_empty_positions (engine_spec grid)) in Hs.
    destruct (init_domains _ _ _ _ _) as [pd mt1].
    rewrite backtrack_set_output in Hs.
    destruct (backtrack (engine_spec grid) pd _ ∅) as [[[] c]|]; [|  |done].
    + cbn [shuffled_grid set_shuffled_grid] in Hs.
      destruct (write_back out c); done.
    + injection Hs as <-. by eexists.
Qed.

End History.

(** * The standalone copy [grid_shuffler_alg.cpp] *)

(** ** Its selection loop *)

Section LegacySelection.

Variable ca : gmap Position string.
Variable pd : gmap Position (list string).

(** The loop variables of the copy follow the running minimum of
    [min_element]: nothing is recorded while that minimum is an assigned
    position, and afterwards [next_pos] is the minimum and [min_options]
    the size of its domain. *)
Lemma legacy_select_from_agrees (l : list Position) (smallest np : Position) (mo : Z) :
  (forall p, p ∈ l -> Z.of_nat (length (domain_of pd p)) < Legacy.size_max) ->
  (contains ca smallest = true /\ mo = Legacy.size_max) \/
  (contains ca smallest = false /\ np = smallest /\
   mo = Z.of_nat (length (domain_of pd smallest))) ->
  (contains ca (min_element_from (mrv_less ca pd) smallest l) = true /\
   (Legacy.select_from ca pd l np mo).2 = Legacy.size_max) \/
  (contains ca (min_element_from (mrv_less ca pd) smallest l) = false /\
   (Legacy.select_from ca pd l np mo).1 = min_element_from (mrv_less ca pd) smallest l /\
   (Legacy.select_from ca pd l np mo).2
   = Z.of_nat (length (domain_of pd (min_element_from (mrv_less ca pd) smallest l)))).
Proof.
  revert smallest np mo. induction l as [|x l IH]; intros smallest np mo Hb Hinv.
  { done. }
  assert (forall p, p ∈ l -> Z.of_nat (length (domain_of pd p)) < Legacy.size_max) as Hb'.
  { intros p Hp. apply Hb. by right. }
  cbn [min_element_from Legacy.select_from]. fold (domain_of pd x).
  destruct (contains ca x) eqn:Ex.
  { assert (mrv_less ca pd x smallest = false) as ->
      by (unfold mrv_less; by rewrite Ex).
    by apply IH. }
  destruct Hinv as [[Hs ->]|(Hs & -> & ->)].
  - assert (mrv_less ca pd x smallest = true) as ->
      by (unfold mrv_less; by rewrite Ex, Hs).
    assert ((Z.of_nat (length (domain_of pd x)) <? Legacy.size_max)%Z = true) as ->.
    { apply Z.ltb_lt, Hb. by left. }
    apply IH; [done|]. right. by rewrite Ex.
  - destruct (decide (length (domain_of pd x) < length (domain_of pd smallest))%nat)
      as [Hlt|Hge].
    + assert (mrv_less ca pd x smallest = true) as ->.
      { unfold mrv_less. rewrite Ex, Hs. cbn [negb andb orb].
        by apply bool_decide_eq_true_2. }
      assert ((Z.of_nat (length (domain_of pd x))
               <? Z.of_nat (length (domain_of pd smallest)))%Z = true) as ->
        by (apply Z.ltb_lt; lia).
      apply IH; [done|]. right. by rewrite Ex.
    + assert (mrv_less ca pd x smallest = false) as ->.
      { unfold mrv_less. rewrite Ex, Hs. cbn [negb andb orb].
        by apply bool_decide_eq_false_2. }
      assert ((Z.of_nat (length (domain_of pd x))
               <? Z.of_nat (length (domain_of pd smallest)))%Z = false) as ->
        by (apply Z.ltb_ge; lia).
      apply IH; [done|]. right. by rewrite Hs.
Qed.

End LegacySelection.

Lemma legacy_next_position (s : GridShuffler) (pd : gmap Position (list string))
    (ca : gmap Position string) :
  (exists p, p ∈ non_empty_positions s /\ ca !! p = None) ->
  (forall p, p ∈ non_empty_positions s ->
             Z.of_nat (length (domain_of pd p)) < Legacy.size_max) ->
  selected s pd ca = Some (Legacy.next_position s pd ca).
Proof.
  intros (p & Hp & Ho) Hb.
  destruct (selected_open s pd ca p Hp Ho) as (p0 & Hsel & _ & Hopen).
  rewrite Hsel. f_equal. unfold selected in Hsel. unfold Legacy.next_position.
  destruct (non_empty_positions s) as [|x l]; [done|].
  injection Hsel as Hsel.
  assert (forall q, q ∈ l -> Z.of_nat (length (domain_of pd q)) < Legacy.size_max) as Hb'.
  { intros q Hq. apply Hb. by right. }
  apply contains_false in Hopen.
  cbn [Legacy.select_from]. fold (domain_of pd x).
  destruct (contains ca x) eqn:Ex.
  - destruct (legacy_select_from_agrees ca pd l x (0, 0) Legacy.size_max Hb')
      as [[Hc _]|(_ & Hr & _)]; [by left| |].
    + rewrite Hsel in Hc. congruence.
    + by rewrite Hr, Hsel.
  - assert ((Z.of_nat (length (domain_of pd x)) <? Legacy.size_max)%Z = true) as ->.
    { apply Z.ltb_lt, Hb. by left. }
    destruct (legacy_select_from_agrees ca pd l x x
                (Z.of_nat (length (domain_of pd x))) Hb')
      as [[Hc _]|(_ & Hr & _)]; [by right| |].
    + rewrite Hsel in Hc. congruence.
    + by rewrite Hr, Hsel.
Qed.

(** ** Its search *)

Lemma legacy_isValidAssignment_neighbors (s : GridShuffler) (pos : Position)
    (digit : string) (ca : gmap Position string) :
  Legacy.isValidAssignment s pos digit ca = true ->
  forall n dn, n ∈ neighbors_of s pos -> ca !! n = Some dn ->
               dn ∉ forbidden_of s digit.
Proof.
  unfold Legacy.isValidAssignment. fold (neighbors_of s pos).
  destruct (neighbor_conflict s digit ca (neighbors_of s pos)) eqn:En; [done|].
  intros _. by apply neighbor_conflict_false.
Qed.

Section LegacySearch.

Variable s : GridShuffler.
Variable pd : gmap Position (list string).

Hypothesis Hnodup : NoDup (non_empty_positions s).
Hypothesis Hbound : forall p, p ∈ non_empty_positions s ->
  Z.of_nat (length (domain_of pd p)) < Legacy.size_max.

Variable Inv : gmap Position string -> Prop.

Hypothesis Inv_keys : forall ca p,
  Inv ca -> is_Some (ca !! p) -> p ∈ non_empty_positions s.
Hypothesis Inv_insert : forall ca pos digit,
  Inv ca -> pos ∈ non_empty_positions s -> ca !! pos = None ->
  digit ∈ domain_of pd pos -> Legacy.isValidAssignment s pos digit ca = true ->
  Inv (<[pos := digit]> ca).

Lemma legacy_try_digits_spec
    (rec : gmap Position string -> option (bool * gmap Position string))
    (pos : Position) (digits : list string) (ca : gmap Position string) :
  (forall c, Inv c -> (exists d, c = <[pos := d]> ca) ->
     exists b c', rec c = Some (b, c') /\ (b = false -> c' = c) /\
                  (b = true -> Inv c' /\ size c' = length (non_empty_positions s))) ->
  pos ∈ non_empty_positions s -> ca !! pos = None ->
  (forall d, d ∈ digits -> d ∈ domain_of pd pos) ->
  Inv ca ->
  exists b ca', Legacy.try_digits rec s pos digits ca = Some (b, ca') /\
                (b = false -> ca' = ca) /\
                (b = true -> Inv ca' /\ size ca' = length (non_empty_positions s)).
Proof.
  intros Hrec Hpos Hnone. induction digits as [|d digits IH]; intros Hdom Hc.
  { exists false, ca. split; [done|]. by split. }
  assert (forall d', d' ∈ digits -> d' ∈ domain_of pd pos) as Hdom'.
  { intros d' Hd'. apply Hdom. by right. }
  cbn [Legacy.try_digits].
  destruct (Legacy.isValidAssignment s pos d ca) eqn:Ev; [|by apply IH].
  destruct (Hrec (<[pos := d]> ca)) as (b & c' & Er & Hf & Ht); [|by eauto|].
  { apply Inv_insert; [done..| |done]. apply Hdom. by left. }
  rewrite Er. destruct b.
  - exists true, c'. split; [done|]. split; [done|]. intros _. by apply Ht.
  - rewrite (Hf eq_refl), delete_insert_id by done. by apply IH.
Qed.

Lemma legacy_backtrack_spec (fuel : nat) (ca : gmap Position string) :
  Inv ca ->
  (length (unassigned s ca) < fuel)%nat ->
  exists b ca', Legacy.backtrack s pd fuel ca = Some (b, ca') /\
                (b = false -> ca' = ca) /\
                (b = true -> Inv ca' /\ size ca' = length (non_empty_positions s)).
Proof.
  revert ca. induction fuel as [|fuel IH]; intros ca Hc Hlt; [lia|].
  cbn [Legacy.backtrack]. case_decide as Hsz.
  { exists true, ca. split; [done|]. by split. }
  assert (exists p, p ∈ non_empty_positions s /\ ca !! p = None) as Hopen.
  { apply open_position; [done| |done]. intros p. by apply Inv_keys. }
  pose proof (legacy_next_position s pd ca Hopen Hbound) as Hsel.
  destruct Hopen as (p & Hp & Ho).
  destruct (selected_open s pd ca p Hp Ho) as (p0 & Hsel' & Hin & Hnone).
  assert (Legacy.next_position s pd ca = p0) as -> by congruence.
  apply legacy_try_digits_spec; try done.
  intros c Hic [d ->]. apply IH; [done|].
  pose proof (unassigned_insert_lt s ca p0 d Hin Hnone). lia.
Qed.

End LegacySearch.

Lemma conflict_free_insert_rule (s : GridShuffler) (ca : gmap Position string)
    (pos : Position) (digit : string) :
  (forall p q, q ∈ neighbors_of s p -> p ∈ neighbors_of s q) ->
  (forall p, p ∉ neighbors_of s p) ->
  (forall a b, b ∈ forbidden_of s a -> a ∈ forbidden_of s b) ->
  conflict_free s ca ->
  (forall n dn, n ∈ neighbors_of s pos -> ca !! n = Some dn ->
                dn ∉ forbidden_of s digit) ->
  conflict_free s (<[pos := digit]> ca).
Proof.
  intros Hns Hni Hfs H2 Hnb p q dp dq. rewrite !lookup_insert.
  destruct (decide (pos = p)) as [<-|Ep], (decide (pos = q)) as [<-|Eq].
  - intros _ _ Hq. by apply Hni in Hq.
  - intros [= <-] Hq Hn. by eapply Hnb.
  - intros Hp [= <-] Hn Hf. apply Hns in Hn. apply Hfs in Hf. by eapply Hnb.
  - apply H2.
Qed.

(** ** Runs of its [shuffle] *)

Section LegacyRuns.

Variable G : Type.
Variable ranges_shuffle : list string -> G -> list string * G.
Hypothesis shuffle_permutes : forall l mt, (ranges_shuffle l mt).1 ≡ₚ l.

Variable grid : Grid.

(** What a run of the copy's [shuffle] on a built engine comes to. *)
Lemma legacy_shuffle_built (s : GridShuffler) (mt : G) :
  built grid s ->
  Z.of_nat (length (all_digits s)) < Legacy.size_max ->
  exists b s' mt',
    Legacy.shuffle ranges_shuffle s mt = Ret (b, s', mt') /\
    (b = false -> s' = s) /\
    (b = true ->
     exists ca,
       (forall p, p ∈ non_empty_positions s ->
          exists d, ca !! p = Some d /\ d ∈ all_digits s) /\
       (distinct_labels grid -> conflict_free s ca) /\
       built grid s' /\
       (forall p, grid_at (shuffled_grid s') p.1 p.2
                  = match ca !! p with
                    | Some d => Ret d
                    | None => grid_at (shuffled_grid s) p.1 p.2
                    end)).
Proof.
  intros Hb Hsize.
  assert (NoDup (non_empty_positions s)) as Hnd.
  { destruct Hb as (_ & out & -> & _). apply positions_NoDup. }
  set (pd := drawn ranges_shuffle s mt).
  set (Inv := fun c : gmap Position string =>
         (forall p d, c !! p = Some d ->
            p ∈ non_empty_positions s /\ d ∈ domain_of pd p) /\
         (distinct_labels grid -> conflict_free s c)).
  destruct (legacy_backtrack_spec s pd Hnd) with (Inv := Inv)
    (fuel := S (length (non_empty_positions s))) (ca := (∅ : gmap Position string))
    as (b & ca & Hbt & Hf & Ht).
  - intros p Hp. unfold pd.
    by rewrite (drawn_domain G ranges_shuffle shuffle_permutes s mt p Hp).
  - intros c p [Hk _] [d Hd]. by apply (Hk p d).
  - intros c pos d [Hk Hcf] Hpos Hnone Hd Hv. split.
    + intros p d'. rewrite lookup_insert. case_decide as E.
      * intros [= <-]. by subst.
      * apply Hk.
    + intros Hdist. destruct Hb as (_ & out & -> & _).
      apply conflict_free_insert_rule.
      * exact (neighbors_of_sym grid).
      * exact (neighbors_of_irrefl grid).
      * exact (forbidden_of_sym grid Hdist).
      * by apply Hcf.
      * by apply legacy_isValidAssignment_neighbors.
  - split.
    + intros p d. by rewrite lookup_empty.
    + intros _ p q dp dq. by rewrite lookup_empty.
  - pose proof (unassigned_bound s ∅). lia.
  - unfold Legacy.shuffle. unfold pd, drawn in Hbt.
    destruct (init_domains _ _ _ _ _) as [pd0 mt1] eqn:Ei. cbn [fst] in Hbt.
    rewrite Hbt. destruct b.
    + destruct (Ht eq_refl) as [[Hk Hcf] Hsz].
      pose proof Hb as (Hr & out0 & -> & Hsh).
      destruct (write_back_spec _ _ ca out0 Hsh) as (out' & Hw & Hsh' & Hrd).
      { intros p d Hp. destruct (Hk p d Hp) as (Hin & _). simpl in Hin.
        by apply elem_of_positions in Hin as [? _]. }
      cbn [shuffled_grid set_shuffled_grid]. rewrite Hw. cbn [mbind outcome_bind].
      eexists true, _, mt1. split; [done|]. split; [done|]. intros _.
      exists ca. split; [|split; [done|split; [|done]]].
      * intros p Hp.
        assert (is_Some (ca !! p)) as [d Hd].
        { assert (dom ca = list_to_set (non_empty_positions
                     (set_shuffled_grid (engine_spec grid) out0))) as Hdom.
          { apply set_subseteq_size_eq.
            - intros q [d Hq]%elem_of_dom. apply elem_of_list_to_set. by apply (Hk q d).
            - rewrite size_dom, Hsz, size_list_to_set by done. lia. }
          apply elem_of_dom. rewrite Hdom. by apply elem_of_list_to_set. }
        exists d. split; [done|]. destruct (Hk p d Hd) as [_ Hin].
        unfold pd in Hin.
        by rewrite (drawn_domain G ranges_shuffle shuffle_permutes _ mt p Hp) in Hin.
      * split; [done|]. by exists out'.
    + exists false, s, mt1. split; [done|]. by split.
Qed.

End LegacyRuns.

Lemma NoDup_singleton_list {A : Type} (l : list A) (a : A) :
  NoDup l -> (forall x, x ∈ l <-> x = a) -> l = [a].
Proof.
  intros Hnd Hl. destruct l as [|x l].
  { exfalso. by apply (elem_of_nil a), Hl. }
  assert (x = a) as -> by (apply Hl; by left).
  apply NoDup_cons in Hnd as [Hx _]. f_equal.
  destruct l as [|y l]; [done|]. exfalso. apply Hx.
  assert (y = a) as -> by (apply Hl; right; by left). by left.
Qed.

Section LegacyTheorems.

Variable G : Type.
Variable ranges_shuffle : list string -> G -> list string * G.
Hypothesis shuffle_permutes : forall l mt, (ranges_shuffle l mt).1 ≡ₚ l.

Variable grid : Grid.

(** X21: the selection loop of the copy picks the position that the
    [min_element] call of the header picks, whenever some non-empty position
    is open and no domain has the size of the largest [size_t]. *)
Theorem legacy_selection_agrees (s : GridShuffler) (pd : gmap Position (list string))
    (ca : gmap Position string) :
  (exists p, p ∈ non_empty_positions s /\ ca !! p = None) ->
  (forall p, p ∈ non_empty_positions s ->
             Z.of_nat (length (domain_of pd p)) < Legacy.size_max) ->
  selected s pd ca = Some (Legacy.next_position s pd ca).
Proof. apply legacy_next_position. Qed.

(** X22: the copy's [shuffle] runs to a result on every engine built from
    the grid: its search ends, although it does not test what the selection
    loop found, and the writes into the output grid are within bounds; when
    it returns [false] the engine is unchanged. *)
Theorem legacy_shuffle_returns (s : GridShuffler) (mt : G) :
  built grid s ->
  Z.of_nat (length (all_digits s)) < Legacy.size_max ->
  exists b s' mt',
    Legacy.shuffle ranges_shuffle s mt = Ret (b, s', mt') /\
    (b = false -> s' = s).
Proof.
  intros Hb Hsize.
  destruct (legacy_shuffle_built G ranges_shuffle shuffle_permutes grid s mt Hb Hsize)
    as (b & s' & mt' & Hs & Hf & _).
  by exists b, s', mt'.
Qed.

(** X23: on a grid of pairwise distinct labels, a successful [shuffle] of
    the copy leaves no two orthogonally adjacent non-empty positions with
    labels of which the second is forbidden for the first. *)
Theorem legacy_shuffle_adjacency (s s' : GridShuffler) (mt mt' : G) (p q : Position) :
  distinct_labels grid ->
  built grid s ->
  Z.of_nat (length (all_digits s)) < Legacy.size_max ->
  Legacy.shuffle ranges_shuffle s mt = Ret (true, s', mt') ->
  non_empty_position grid p -> non_empty_position grid q -> adjacent p q ->
  exists dp dq S0,
    grid_at (getShuffledGrid s') p.1 p.2 = Ret dp /\
    grid_at (getShuffledGrid s') q.1 q.2 = Ret dq /\
    forbidden_neighbors s' !! dp = Some S0 /\ dq ∉ S0.
Proof.
  intros Hd Hb Hsize Hs Hp Hq Ha.
  destruct (legacy_shuffle_built G ranges_shuffle shuffle_permutes grid s mt Hb Hsize)
    as (b & s1 & mt1 & Hs1 & _ & Ht).
  rewrite Hs in Hs1. injection Hs1 as <- <- <-.
  destruct (Ht eq_refl) as (ca & Hall & Hcf & Hb' & Hrd).
  apply (built_positions grid s p Hb) in Hp. apply (built_positions grid s q Hb) in Hq.
  destruct (Hall p Hp) as (dp & Hdp & Hin). destruct (Hall q Hq) as (dq & Hdq & _).
  pose proof (Hrd p) as Hrp. rewrite Hdp in Hrp.
  pose proof (Hrd q) as Hrq. rewrite Hdq in Hrq.
  pose proof (Hcf Hd p q dp dq Hdp Hdq) as Hn.
  destruct Hb as (_ & out & -> & _). destruct Hb' as (_ & out' & -> & _).
  apply elem_of_all_digits in Hin as (_ & Hk). apply forbidden_keys in Hk as [S0 HS].
  exists dp, dq, S0. split; [done|]. split; [done|]. split; [done|].
  unfold forbidden_of in Hn. cbn [forbidden_neighbors set_shuffled_grid] in Hn.
  rewrite HS in Hn. apply Hn.
  apply (elem_of_neighbors_of grid). split; [done|]. split; [done|].
  by apply adjacent_around.
Qed.

(** X24: on a grid with exactly one non-empty cell, the copy's [shuffle]
    returns [true] and writes the label of that cell back to it, and
    [validateResult] then returns [false]: the copy's original-position
    rule looks at the assignment, in which the cell is still open. *)
Theorem legacy_single_cell_stays (s : GridShuffler) (mt : G) (p0 : Position) :
  GridShuffler_ctor grid = Ret s ->
  (forall p, non_empty_position grid p <-> p = p0) ->
  exists s' mt',
    Legacy.shuffle ranges_shuffle s mt = Ret (true, s', mt') /\
    grid_at (getShuffledGrid s') p0.1 p0.2 = Ret (cell grid p0) /\
    validateResult s' = Ret false.
Proof.
  intros Hc Hone. pose proof (ctor_built _ _ Hc) as Hb.
  apply ctor_Ret in Hc as [Hr ->].
  set (s0 := engine_spec grid) in *.
  assert (non_empty_positions s0 = [p0]) as Hnep.
  { apply NoDup_singleton_list; [apply positions_NoDup|].
    intros p. rewrite <- Hone. apply positions_non_empty. }
  assert (p0 ∈ non_empty_positions s0) as Hp0 by (rewrite Hnep; by left).
  assert (all_digits s0 = [cell grid p0]) as Hdig.
  { apply NoDup_singleton_list; [apply NoDup_fst_map_to_list|].
    intros d. unfold s0. rewrite elem_of_all_digits. split.
    - intros (_ & p & Hp & <-). change (p ∈ non_empty_positions s0) in Hp. rewrite Hnep in Hp.
      by apply list_elem_of_singleton in Hp as ->.
    - intros ->. split; [|by exists p0].
      apply positions_non_empty in Hp0. apply Hp0. }
  assert (neighbors_map s0 !! p0 = Some []) as Hnb.
  { rewrite (neighbors_lookup grid p0 Hp0 : neighbors_map s0 !! p0 = _). f_equal.
    apply elem_of_nil_inv. intros q [Ha Hq]%elem_of_neighbors_spec.
    change (q ∈ non_empty_positions s0) in Hq.
    rewrite Hnep in Hq. apply list_elem_of_singleton in Hq as ->.
    by apply around_irrefl in Ha. }
  assert (original_positions s0 !! cell grid p0 = Some p0) as Hop.
  { destruct (lookup_insert_all_is_Some (cell grid) id ∅ _ p0 (or_introl Hp0)) as [it Hit].
    change (original_positions s0 !! cell grid p0 = Some it) in Hit.
    destruct (originals_lookup_Some grid _ it Hit) as [Hin _].
    change (it ∈ non_empty_positions s0) in Hin. rewrite Hnep in Hin.
    by apply list_elem_of_singleton in Hin as ->. }
  assert (exists mt1, init_domains ranges_shuffle (all_digits s0) (non_empty_positions s0) ∅ mt
                      = ({[ p0 := [cell grid p0] ]}, mt1)) as [mt1 Hinit].
  { rewrite Hnep, Hdig. cbn [init_domains].
    pose proof (shuffle_permutes [cell grid p0] mt) as Hperm.
    destruct (ranges_shuffle [cell grid p0] mt) as [l mt1]. cbn [fst] in Hperm.
    apply Permutation_singleton_r in Hperm as ->. by exists mt1. }
  assert (Legacy.backtrack s0 {[ p0 := [cell grid p0] ]} 2 ∅
          = Some (true, {[ p0 := cell grid p0 ]})) as Hbt.
  { cbn [Legacy.backtrack]. rewrite Hnep. rewrite decide_False by done.
    assert (Legacy.next_position s0 {[ p0 := [cell grid p0] ]} ∅ = p0) as ->.
    { unfold Legacy.next_position. rewrite Hnep. cbn [Legacy.select_from].
      assert (contains ∅ p0 = false) as -> by by apply contains_false.
      by rewrite lookup_singleton_eq. }
    rewrite lookup_singleton_eq. cbn [default]. unfold id. cbn [Legacy.try_digits].
    assert (Legacy.isValidAssignment s0 p0 (cell grid p0) ∅ = true) as ->.
    { unfold Legacy.isValidAssignment. rewrite Hnb, Hop. cbn [default neighbor_conflict].
      by rewrite lookup_empty. }
    rewrite insert_empty. rewrite decide_True; [done|].
    by rewrite map_size_singleton. }
  destruct Hb as (_ & out0 & Hs0 & Hsh).
  destruct (write_back_spec _ _ {[ p0 := cell grid p0 ]} out0 Hsh) as (out' & Hw & Hsh' & Hrd).
  { intros p d [-> _]%lookup_singleton_Some.
    by apply elem_of_positions in Hp0 as [? _]. }
  assert (shuffled_grid s0 = out0) as Hout by (by rewrite Hs0).
  exists (set_shuffled_grid s0 out'), mt1. split; [|split].
  - unfold Legacy.shuffle. rewrite Hinit, Hnep. cbn [length]. rewrite Hbt, Hout, Hw. done.
  - cbn [getShuffledGrid shuffled_grid set_shuffled_grid].
    by rewrite Hrd, lookup_singleton_eq.
  - unfold validateResult. cbn [non_empty_positions set_shuffled_grid]. rewrite Hnep.
    cbn [validate_positions shuffled_grid set_shuffled_grid].
    rewrite Hrd, lookup_singleton_eq. cbn [mbind outcome_bind].
    unfold map_at. cbn [neighbors_map set_shuffled_grid]. rewrite Hnb.
    cbn [mbind outcome_bind validate_neighbors original_positions set_shuffled_grid].
    rewrite Hop. rewrite Hrd, lookup_singleton_eq. cbn [mbind outcome_bind].
    by rewrite String.eqb_refl.
Qed.

End LegacyTheorems.

(** ** Instances of the further properties *)

(** The constructor on the 3x3 grid of the tests. *)
Lemma ctor_rectangular_witness :
  rectangular test_grid /\
  exists s,
    GridShuffler_ctor test_grid = Ret s /\
    original_grid s = test_grid /\
    rows s = Z.of_nat (length test_grid) /\
    cols s = first_row_width test_grid /\
    shaped (rows s) (cols s) (getShuffledGrid s) /\
    forall i j, in_range (rows s) (cols s) i j = true ->
                grid_at (getShuffledGrid s) i j = Ret EmptyString.
Proof.
  assert (rectangular test_grid) as H by (unfold rectangular; compute_done).
  split; [exact H|]. exact (ctor_rectangular test_grid H).
Defined.

(** The non-empty positions of the grid with three empty cells. *)
Lemma ctor_positions_witness :
  GridShuffler_ctor sparse_grid = Ret (engine_spec sparse_grid) /\
  (forall p, p ∈ non_empty_positions (engine_spec sparse_grid)
             <-> non_empty_position sparse_grid p) /\
  StronglySorted row_major_lt (non_empty_positions (engine_spec sparse_grid)).
Proof.
  assert (GridShuffler_ctor sparse_grid = Ret (engine_spec sparse_grid)) as H
    by by_evaluation.
  split; [exact H|]. exact (ctor_positions sparse_grid _ H).
Defined.

(** The neighbours of position (1,0) of the grid with three empty cells. *)
Lemma ctor_neighbors_witness :
  GridShuffler_ctor sparse_grid = Ret (engine_spec sparse_grid) /\
  (non_empty_position sparse_grid (1, 0) ->
   exists l, neighbors_map (engine_spec sparse_grid) !! (1, 0) = Some l /\
             (length l <= 4)%nat /\
             forall q, q ∈ l <-> non_empty_position sparse_grid q /\ adjacent (1, 0) q) /\
  (~ non_empty_position sparse_grid (1, 0) ->
   neighbors_map (engine_spec sparse_grid) !! (1, 0) = None).
Proof.
  assert (GridShuffler_ctor sparse_grid = Ret (engine_spec sparse_grid)) as H
    by by_evaluation.
  split; [exact H|]. exact (ctor_neighbors sparse_grid _ (1, 0) H).
Defined.

(** The candidates of a grid in which a label occurs twice. *)
Lemma ctor_candidates_witness :
  GridShuffler_ctor spaced_grid = Ret (engine_spec spaced_grid) /\
  NoDup (all_digits (engine_spec spaced_grid)) /\
  forall d, d ∈ all_digits (engine_spec spaced_grid) <->
            d <> EmptyString /\
            exists p, non_empty_position spaced_grid p /\ cell spaced_grid p = d.
Proof.
  assert (GridShuffler_ctor spaced_grid = Ret (engine_spec spaced_grid)) as H
    by by_evaluation.
  split; [exact H|]. exact (ctor_candidates spaced_grid _ H).
Defined.

(** The forbidden pairs of the row of four labels. *)
Lemma ctor_forbidden_pairs_witness :
  distinct_labels line_grid /\
  GridShuffler_ctor line_grid = Ret (engine_spec line_grid) /\
  ("B" ∈ forbidden_of (engine_spec line_grid) "A" <->
   exists p q, non_empty_position line_grid p /\ non_empty_position line_grid q /\
               adjacent p q /\ cell line_grid p = "A" /\ cell line_grid q = "B") /\
  ("B" ∈ forbidden_of (engine_spec line_grid) "A" ->
   "A" ∈ forbidden_of (engine_spec line_grid) "B") /\
  "A" ∉ forbidden_of (engine_spec line_grid) "A".
Proof.
  assert (distinct_labels line_grid) as H1 by (unfold distinct_labels; compute_done).
  assert (GridShuffler_ctor line_grid = Ret (engine_spec line_grid)) as H2
    by by_evaluation.
  split; [exact H1|]. split; [exact H2|].
  exact (ctor_forbidden_pairs line_grid _ "A" "B" H1 H2).
Defined.

(** The recorded original position of a label that occurs twice. *)
Lemma ctor_original_last_witness :
  GridShuffler_ctor spaced_grid = Ret (engine_spec spaced_grid) /\
  (original_positions (engine_spec spaced_grid) !! "A" = Some (0, 2) <->
   non_empty_position spaced_grid (0, 2) /\ cell spaced_grid (0, 2) = "A" /\
   forall q, non_empty_position spaced_grid q -> cell spaced_grid q = "A" ->
             row_major_le q (0, 2)).
Proof.
  assert (GridShuffler_ctor spaced_grid = Ret (engine_spec spaced_grid)) as H
    by by_evaluation.
  split; [exact H|]. exact (ctor_original_last spaced_grid _ "A" (0, 2) H).
Defined.

(** The selection on the row of four labels, with domains of different sizes. *)
Lemma selected_mrv_witness :
  (exists p, p ∈ non_empty_positions (engine_spec line_grid) /\
             line_partial !! p = None) /\
  exists p0 i,
    selected (engine_spec line_grid) line_domains line_partial = Some p0 /\
    non_empty_positions (engine_spec line_grid) !! i = Some p0 /\
    line_partial !! p0 = None /\
    forall j p, non_empty_positions (engine_spec line_grid) !! j = Some p ->
      line_partial !! p = None ->
      (length (domain_of line_domains p0) <= length (domain_of line_domains p))%nat /\
      ((j < i)%nat ->
       (length (domain_of line_domains p0) < length (domain_of line_domains p))%nat).
Proof.
  assert (exists p, p ∈ non_empty_positions (engine_spec line_grid) /\
                    line_partial !! p = None) as H.
  { exists (0, 1). split; [compute_done|reflexivity]. }
  split; [exact H|].
  exact (selected_mrv (engine_spec line_grid) line_domains line_partial H).
Defined.

(** A candidate accepted against an assignment and against the empty one. *)
Lemma isValidAssignment_antitone_witness :
  ∅ ⊆ line_partial /\
  isValidAssignment (engine_spec line_grid) (0, 1) "A" line_partial = true /\
  isValidAssignment (engine_spec line_grid) (0, 1) "A" ∅ = true.
Proof.
  assert (∅ ⊆ line_partial) as H1
    by apply map_empty_subseteq.
  assert (isValidAssignment (engine_spec line_grid) (0, 1) "A" line_partial = true)
    as H2 by by_evaluation.
  split; [exact H1|]. split; [exact H2|].
  exact (isValidAssignment_antitone _ _ _ _ _ H1 H2).
Defined.

(** The search on the row of four labels. *)
Lemma backtrack_result_witness :
  backtrack (engine_spec line_grid) (drawn scripted (engine_spec line_grid) line_draws) 5 ∅
  = Some (true, line_assignment) /\
  (∅ : gmap Position string)
    ⊆ line_assignment /\
  (true = false ->
   line_assignment
   = (∅ : gmap Position string)) /\
  (true = true ->
   size (line_assignment
           : gmap Position string)
   = length (non_empty_positions (engine_spec line_grid))).
Proof.
  assert (backtrack (engine_spec line_grid)
            (drawn scripted (engine_spec line_grid) line_draws) 5 ∅
          = Some (true, line_assignment)) as H
    by by_evaluation.
  split; [exact H|]. exact (backtrack_result _ _ _ _ _ _ H).
Defined.

(** A run of [shuffle] on the row of four labels. *)
Lemma shuffle_returns_witness :
  GridShuffler_ctor line_grid = Ret (engine_spec line_grid) /\
  exists b s' mt', shuffle scripted (engine_spec line_grid) line_draws = Ret (b, s', mt').
Proof.
  assert (GridShuffler_ctor line_grid = Ret (engine_spec line_grid)) as H
    by by_evaluation.
  split; [exact H|].
  exact (shuffle_returns (list string) scripted line_grid _ line_draws
           (reachable_ctor _ _ _ H)).
Defined.

(** The row of four labels has an arrangement, so another run succeeds as well. *)
Lemma shuffle_complete_witness :
  GridShuffler_ctor line_grid = Ret (engine_spec line_grid) /\
  arrangement (engine_spec line_grid) line_assignment /\
  exists s' mt', shuffle scripted (engine_spec line_grid) ["B"; "D"] = Ret (true, s', mt').
Proof.
  assert (GridShuffler_ctor line_grid = Ret (engine_spec line_grid)) as H1
    by by_evaluation.
  assert (arrangement (engine_spec line_grid) line_assignment) as H2.
  { apply arrangement_check_sound. unfold arrangement_check. compute_done. }
  split; [exact H1|]. split; [exact H2|].
  exact (shuffle_complete (list string) scripted scripted_permutes line_grid _
           ["B"; "D"] line_assignment (reachable_ctor _ _ _ H1) H2).
Defined.

(** Success and arrangements on the row of four labels. *)
Lemma shuffle_succeeds_iff_witness :
  distinct_labels line_grid /\
  GridShuffler_ctor line_grid = Ret (engine_spec line_grid) /\
  ((exists s' mt', shuffle scripted (engine_spec line_grid) line_draws = Ret (true, s', mt'))
   <-> exists sol, arrangement (engine_spec line_grid) sol).
Proof.
  assert (distinct_labels line_grid) as H1 by (unfold distinct_labels; compute_done).
  assert (GridShuffler_ctor line_grid = Ret (engine_spec line_grid)) as H2
    by by_evaluation.
  split; [exact H1|]. split; [exact H2|].
  exact (shuffle_succeeds_iff (list string) scripted scripted_permutes line_grid _
           line_draws H1 (reachable_ctor _ _ _ H2)).
Defined.

(** The output grid after a successful run on a grid with empty cells. *)
Lemma reachable_output_witness :
  GridShuffler_ctor spaced_grid = Ret (engine_spec spaced_grid) /\
  shuffle scripted (engine_spec spaced_grid) spaced_draws
  = Ret (true, set_shuffled_grid (engine_spec spaced_grid) spaced_output, []) /\
  (exists s0, GridShuffler_ctor spaced_grid = Ret s0 /\
              set_shuffled_grid (engine_spec spaced_grid) spaced_output
              = set_shuffled_grid s0
                  (getShuffledGrid (set_shuffled_grid (engine_spec spaced_grid) spaced_output))) /\
  shaped (rows (set_shuffled_grid (engine_spec spaced_grid) spaced_output))
         (cols (set_shuffled_grid (engine_spec spaced_grid) spaced_output))
         (getShuffledGrid (set_shuffled_grid (engine_spec spaced_grid) spaced_output)) /\
  forall p,
    in_range (rows (set_shuffled_grid (engine_spec spaced_grid) spaced_output))
             (cols (set_shuffled_grid (engine_spec spaced_grid) spaced_output)) p.1 p.2 = true ->
    ~ non_empty_position spaced_grid p ->
    grid_at (getShuffledGrid (set_shuffled_grid (engine_spec spaced_grid) spaced_output))
            p.1 p.2 = Ret EmptyString.
Proof.
  assert (GridShuffler_ctor spaced_grid = Ret (engine_spec spaced_grid)) as H1
    by by_evaluation.
  assert (shuffle scripted (engine_spec spaced_grid) spaced_draws
          = Ret (true, set_shuffled_grid (engine_spec spaced_grid) spaced_output, [])) as H2
    by by_evaluation.
  split; [exact H1|]. split; [exact H2|].
  exact (reachable_output (list string) scripted spaced_grid _
           (reachable_shuffle _ _ _ _ _ _ _ (reachable_ctor _ _ _ H1) H2)).
Defined.

(** The label at (0,0) after a successful run on a grid with a repeated label. *)
Lemma shuffle_labels_from_input_witness :
  GridShuffler_ctor spaced_grid = Ret (engine_spec spaced_grid) /\
  shuffle scripted (engine_spec spaced_grid) spaced_draws
  = Ret (true, set_shuffled_grid (engine_spec spaced_grid) spaced_output, []) /\
  non_empty_position spaced_grid (0, 0) /\
  exists d,
    grid_at (getShuffledGrid (set_shuffled_grid (engine_spec spaced_grid) spaced_output)) 0 0
    = Ret d /\
    d <> EmptyString /\
    (exists q, non_empty_position spaced_grid q /\ cell spaced_grid q = d) /\
    original_positions (set_shuffled_grid (engine_spec spaced_grid) spaced_output) !! d
    <> Some (0, 0).
Proof.
  assert (GridShuffler_ctor spaced_grid = Ret (engine_spec spaced_grid)) as H1
    by by_evaluation.
  assert (shuffle scripted (engine_spec spaced_grid) spaced_draws
          = Ret (true, set_shuffled_grid (engine_spec spaced_grid) spaced_output, [])) as H2
    by by_evaluation.
  assert (non_empty_position spaced_grid (0, 0)) as H3 by (split; [reflexivity|done]).
  split; [exact H1|]. split; [exact H2|]. split; [exact H3|].
  exact (shuffle_labels_from_input (list string) scripted scripted_permutes spaced_grid
           _ _ spaced_draws [] (0, 0) (reachable_ctor _ _ _ H1) H2 H3).
Defined.

(** The validator after a successful run on a grid with a repeated label. *)
Lemma validate_after_shuffle_returns_witness :
  GridShuffler_ctor paired_grid = Ret (engine_spec paired_grid) /\
  shuffle scripted (engine_spec paired_grid) paired_draws
  = Ret (true, set_shuffled_grid (engine_spec paired_grid) paired_output, []) /\
  exists b, validateResult (set_shuffled_grid (engine_spec paired_grid) paired_output)
            = Ret b.
Proof.
  assert (GridShuffler_ctor paired_grid = Ret (engine_spec paired_grid)) as H1
    by by_evaluation.
  assert (shuffle scripted (engine_spec paired_grid) paired_draws
          = Ret (true, set_shuffled_grid (engine_spec paired_grid) paired_output, [])) as H2
    by by_evaluation.
  split; [exact H1|]. split; [exact H2|].
  exact (validate_after_shuffle_returns (list string) scripted scripted_permutes
           paired_grid _ _ paired_draws [] (reachable_ctor _ _ _ H1) H2).
Defined.

(** The grid of two empty cells. *)
Lemma shuffle_no_positions_witness :
  GridShuffler_ctor blank_grid = Ret (engine_spec blank_grid) /\
  (forall p, ~ non_empty_position blank_grid p) /\
  shuffle scripted (engine_spec blank_grid) ["A"]
  = Ret (true, engine_spec blank_grid, ["A"]) /\
  validateResult (engine_spec blank_grid) = Ret true.
Proof.
  assert (GridShuffler_ctor blank_grid = Ret (engine_spec blank_grid)) as H1
    by by_evaluation.
  assert (forall p, ~ non_empty_position blank_grid p) as H2.
  { intros [i j] [Hin Hc]. apply in_range_spec in Hin. unfold first_row_width in Hin. simpl in Hin.
    assert (i = 0) as -> by lia.
    assert (j = 0 \/ j = 1) as [-> | ->] by lia; by apply Hc. }
  split; [exact H1|]. split; [exact H2|].
  exact (shuffle_no_positions (list string) scripted blank_grid _ ["A"] H1 H2).
Defined.

(** The grid of two cells with the same label. *)
Lemma shuffle_one_label_fails_witness :
  GridShuffler_ctor same_grid = Ret (engine_spec same_grid) /\
  (exists p, non_empty_position same_grid p) /\
  (forall p q, non_empty_position same_grid p -> non_empty_position same_grid q ->
               cell same_grid p = cell same_grid q) /\
  exists mt', shuffle scripted (engine_spec same_grid) [] = Ret (false, engine_spec same_grid, mt').
Proof.
  assert (GridShuffler_ctor same_grid = Ret (engine_spec same_grid)) as H1
    by by_evaluation.
  assert (exists p, non_empty_position same_grid p) as H2.
  { exists (0, 0). split; [reflexivity|done]. }
  assert (forall p, non_empty_position same_grid p -> cell same_grid p = "A") as Hc.
  { intros [i j] [Hin _]. apply in_range_spec in Hin. unfold first_row_width in Hin. simpl in Hin.
    assert (i = 0) as -> by lia.
    by assert (j = 0 \/ j = 1) as [-> | ->] by lia. }
  assert (forall p q, non_empty_position same_grid p -> non_empty_position same_grid q ->
                      cell same_grid p = cell same_grid q) as H3.
  { intros p q Hp Hq. by rewrite (Hc p Hp), (Hc q Hq). }
  split; [exact H1|]. split; [exact H2|]. split; [exact H3|].
  exact (shuffle_one_label_fails (list string) scripted scripted_permutes same_grid _ []
           (reachable_ctor _ _ _ H1) H2 H3).
Defined.

(** The two tests with the scripted generator. *)
Lemma tests_shuffle_succeed_witness :
  BasicTest scripted test_draws = Ret true /\
  WithEmptyCells scripted test_draws = Ret true.
Proof. exact (tests_shuffle_succeed (list string) scripted scripted_permutes test_draws). Defined.

(** The validation test with the scripted generator. *)
Lemma test_validate_succeeds_witness :
  ValidateResult scripted ["2"; "1"] = Ret true.
Proof. exact (test_validate_succeeds (list string) scripted scripted_permutes ["2"; "1"]). Defined.

(** The two selections on the row of four labels. *)
Lemma legacy_selection_agrees_witness :
  (exists p, p ∈ non_empty_positions (engine_spec line_grid) /\
             line_partial !! p = None) /\
  (forall p, p ∈ non_empty_positions (engine_spec line_grid) ->
             Z.of_nat (length (domain_of line_domains p)) < Legacy.size_max) /\
  selected (engine_spec line_grid) line_domains line_partial
  = Some (Legacy.next_position (engine_spec line_grid) line_domains line_partial).
Proof.
  assert (exists p, p ∈ non_empty_positions (engine_spec line_grid) /\
                    line_partial !! p = None) as H1.
  { exists (0, 1). split; [compute_done|reflexivity]. }
  assert (forall p, p ∈ non_empty_positions (engine_spec line_grid) ->
            Z.of_nat (length (domain_of line_domains p)) < Legacy.size_max) as H2.
  { apply Forall_forall. compute_done. }
  split; [exact H1|]. split; [exact H2|].
  exact (legacy_selection_agrees (engine_spec line_grid) line_domains line_partial H1 H2).
Defined.

(** A run of the copy on the row of four labels. *)
Lemma legacy_shuffle_returns_witness :
  built line_grid (engine_spec line_grid) /\
  Z.of_nat (length (all_digits (engine_spec line_grid))) < Legacy.size_max /\
  exists b s' mt',
    Legacy.shuffle scripted (engine_spec line_grid) line_draws = Ret (b, s', mt') /\
    (b = false -> s' = engine_spec line_grid).
Proof.
  assert (built line_grid (engine_spec line_grid)) as H1
    by (apply ctor_built; by_evaluation).
  assert (Z.of_nat (length (all_digits (engine_spec line_grid))) < Legacy.size_max) as H2
    by by_evaluation.
  split; [exact H1|]. split; [exact H2|].
  exact (legacy_shuffle_returns (list string) scripted scripted_permutes line_grid
           _ line_draws H1 H2).
Defined.

(** The neighbours (0,1) and (0,2) after a run of the copy on the row of
    four labels. *)
Lemma legacy_shuffle_adjacency_witness :
  distinct_labels line_grid /\
  built line_grid (engine_spec line_grid) /\
  Z.of_nat (length (all_digits (engine_spec line_grid))) < Legacy.size_max /\
  Legacy.shuffle scripted (engine_spec line_grid) line_draws
  = Ret (true, set_shuffled_grid (engine_spec line_grid) line_output, []) /\
  non_empty_position line_grid (0, 1) /\ non_empty_position line_grid (0, 2) /\
  adjacent (0, 1) (0, 2) /\
  exists dp dq S0,
    grid_at (getShuffledGrid (set_shuffled_grid (engine_spec line_grid) line_output)) 0 1
    = Ret dp /\
    grid_at (getShuffledGrid (set_shuffled_grid (engine_spec line_grid) line_output)) 0 2
    = Ret dq /\
    forbidden_neighbors (set_shuffled_grid (engine_spec line_grid) line_output) !! dp
    = Some S0 /\
    dq ∉ S0.
Proof.
  assert (distinct_labels line_grid) as H1 by (unfold distinct_labels; compute_done).
  assert (built line_grid (engine_spec line_grid)) as H2
    by (apply ctor_built; by_evaluation).
  assert (Z.of_nat (length (all_digits (engine_spec line_grid))) < Legacy.size_max) as H3
    by by_evaluation.
  assert (Legacy.shuffle scripted (engine_spec line_grid) line_draws
          = Ret (true, set_shuffled_grid (engine_spec line_grid) line_output, [])) as H4
    by by_evaluation.
  assert (non_empty_position line_grid (0, 1)) as H5 by (split; [reflexivity|done]).
  assert (non_empty_position line_grid (0, 2)) as H6 by (split; [reflexivity|done]).
  assert (adjacent (0, 1) (0, 2)) as H7 by reflexivity.
  split; [exact H1|]. split; [exact H2|]. split; [exact H3|]. split; [exact H4|].
  split; [exact H5|]. split; [exact H6|]. split; [exact H7|].
  exact (legacy_shuffle_adjacency (list string) scripted scripted_permutes line_grid
           _ _ line_draws [] (0, 1) (0, 2) H1 H2 H3 H4 H5 H6 H7).
Defined.

(** The copy on the grid of one cell. *)
Lemma legacy_single_cell_stays_witness :
  GridShuffler_ctor single_cell = Ret (engine_spec single_cell) /\
  (forall p, non_empty_position single_cell p <-> p = (0, 0)) /\
  exists s' mt',
    Legacy.shuffle scripted (engine_spec single_cell) [] = Ret (true, s', mt') /\
    grid_at (getShuffledGrid s') 0 0 = Ret (cell single_cell (0, 0)) /\
    validateResult s' = Ret false.
Proof.
  assert (GridShuffler_ctor single_cell = Ret (engine_spec single_cell)) as H1
    by by_evaluation.
  assert (forall p, non_empty_position single_cell p <-> p = (0, 0)) as H2.
  { intros [i j]. split.
    - intros [Hin _]. apply in_range_spec in Hin. unfold first_row_width in Hin.
      simpl in Hin. f_equal; lia.
    - intros [= -> ->]. split; [reflexivity|done]. }
  split; [exact H1|]. split; [exact H2|].
  exact (legacy_single_cell_stays (list string) scripted scripted_permutes single_cell
           _ [] (0, 0) H1 H2).
Defined.

(** A second run on the row of four labels, and the same run on a fresh
    engine. *)
Lemma shuffle_history_independent_witness :
  GridShuffler_ctor line_grid = Ret (engine_spec line_grid) /\
  shuffle scripted (engine_spec line_grid) line_draws
  = Ret (true, set_shuffled_grid (engine_spec line_grid) line_output, []) /\
  shuffle scripted (set_shuffled_grid (engine_spec line_grid) line_output)
    ["B"; "D"; "A"; "C"]
  = Ret (true, set_shuffled_grid (engine_spec line_grid) [["B"; "D"; "A"; "C"]], []) /\
  exists s0',
    shuffle scripted (engine_spec line_grid) ["B"; "D"; "A"; "C"] = Ret (true, s0', []) /\
    (true = true ->
     s0' = set_shuffled_grid (engine_spec line_grid) [["B"; "D"; "A"; "C"]]).
Proof.
  assert (GridShuffler_ctor line_grid = Ret (engine_spec line_grid)) as H1
    by by_evaluation.
  assert (shuffle scripted (engine_spec line_grid) line_draws
          = Ret (true, set_shuffled_grid (engine_spec line_grid) line_output, [])) as H2
    by by_evaluation.
  assert (shuffle scripted (set_shuffled_grid (engine_spec line_grid) line_output)
            ["B"; "D"; "A"; "C"]
          = Ret (true, set_shuffled_grid (engine_spec line_grid) [["B"; "D"; "A"; "C"]], []))
    as H3 by by_evaluation.
  split; [exact H1|]. split; [exact H2|]. split; [exact H3|].
  exact (shuffle_history_independent (list string) scripted line_grid _ _ _
           ["B"; "D"; "A"; "C"] [] true
           (reachable_shuffle _ _ _ _ _ _ _ (reachable_ctor _ _ _ H1) H2) H1 H3).
Defined.
